(** * KPI trace UI: the Copilot query and analysis engine

    A shallow embedding of the graph store ([CopilotEngine]), the
    analytics layer ([AdvancedAnalyzer]), the query parser
    ([parseQuery]) and the conversation context ([ContextManager]) of the
    KPI trace UI, with the properties its specification states about them
    and further properties read off the code.

    Conventions of the embedding.
    - A JavaScript [Set<string>] is a [gset string]; [.size] is [size].
    - A JavaScript string is a [string] holding its UTF-8 bytes.  Every
      character the code looks for is either ASCII or a CJK ideograph, and
      UTF-8 is self-synchronising, so substring search on bytes agrees with
      substring search on characters.
    - The recursive closures [traverse], [traverseUp] and [traverseDown]
      mutate three sets that live in the enclosing call; here they pass a
      [TraceState] along.  The recursion is not structural, so each takes a
      recursion budget and returns [None] when the budget is exhausted; the
      public functions start them with a budget that is proved sufficient.
    - Numbers that the code only compares with literals or adds up are [Z]
      (scores, counts) or [Q] (confidences, rates). *)

From Stdlib Require Import QArith Ascii String.
From stdpp Require Import gmap strings list sorting pretty.

Set Warnings "-clear-no-such-hyp".

Local Open Scope string_scope.
Local Open Scope list_scope.
Local Open Scope nat_scope.

(** ** Data model (src/data/graphData.ts, reactflow's Node and Edge) *)

Inductive ModelType := sysml | modelica | fmu | simulink.

#[global] Instance ModelType_eq_dec : EqDecision ModelType.
Proof. solve_decision. Defined.

(** [modelType] is an optional field that may also hold [null]: an absent
    key (read as [undefined]) is [None], [null] is [Some None] and a model
    type [Some (Some t)].  The code tells the first two apart when it
    compares with [===]. *)
Record KPIMetrics := {
  achieved : bool;
  modelType : option (option ModelType);
  modelCovered : bool;
  achievementRate : option Q;
}.

(** [!!metrics.modelType]: a model type is truthy, [undefined] and [null]
    are falsy. *)
Definition truthyModelType (m : KPIMetrics) : bool :=
  match modelType m with
  | Some (Some _) => true
  | _ => false
  end.

Module Node.
(** [data.category], [data.level] and [data.metrics] are flattened into
    the node; [category] stays a string, as the code compares it with
    string literals and indexes a histogram with it. *)
Record t := {
  id : string;
  label : string;
  category : string;
  level : option Z;
  metrics : option KPIMetrics;
}.
End Node.

Module Edge.
Record t := {
  id : string;
  source : string;
  target : string;
  relationship : option string;
}.
End Edge.

Module ChainResult.
Record t := {
  nodes : gset string;
  edges : gset string;
}.
End ChainResult.

(** The engine object: [this.nodes] and [this.edges]. *)
Record CopilotEngine := {
  nodes : list Node.t;
  edges : list Edge.t;
}.

(** ** Array.prototype.forEach over a callback that may run out of budget *)

Fixpoint forEach {A St : Type} (f : A → St → option St) (l : list A) (st : St)
    : option St :=
  match l with
  | [] => Some st
  | a :: l' =>
    match f a st with
    | Some st' => forEach f l' st'
    | None => None
    end
  end.

(** ** The three sets shared by a traversal *)

Record TraceState := {
  relatedNodes : gset string;
  relatedEdges : gset string;
  visited : gset string;
}.

Definition initial : TraceState :=
  {| relatedNodes := ∅; relatedEdges := ∅; visited := ∅ |}.

(** [visited.add(nodeId); relatedNodes.add(nodeId);] *)
Definition visit (nodeId : string) (st : TraceState) : TraceState :=
  {| relatedNodes := {[nodeId]} ∪ relatedNodes st;
     relatedEdges := relatedEdges st;
     visited := {[nodeId]} ∪ visited st |}.

(** [relatedEdges.add(edge.id); relatedNodes.add(other);] *)
Definition relate (edgeId other : string) (st : TraceState) : TraceState :=
  {| relatedNodes := {[other]} ∪ relatedNodes st;
     relatedEdges := {[edgeId]} ∪ relatedEdges st;
     visited := visited st |}.

Definition result (st : TraceState) : ChainResult.t :=
  {| ChainResult.nodes := relatedNodes st;
     ChainResult.edges := relatedEdges st |}.

(** ** CopilotEngine.traceChain *)

Fixpoint traverse (this : CopilotEngine) (fuel : nat) (nodeId : string)
    (st : TraceState) : option TraceState :=
  match fuel with
  | O => None
  | S fuel =>
    if bool_decide (nodeId ∈ visited st) then Some st
    else
      let st := visit nodeId st in
      (* incoming edges *)
      st ← forEach (λ edge st,
              if bool_decide (Edge.target edge = nodeId)
                 && negb (bool_decide (Edge.source edge ∈ visited st))
              then traverse this fuel (Edge.source edge)
                     (relate (Edge.id edge) (Edge.source edge) st)
              else Some st) (edges this) st;
      (* outgoing edges *)
      forEach (λ edge st,
              if bool_decide (Edge.source edge = nodeId)
                 && negb (bool_decide (Edge.target edge ∈ visited st))
              then traverse this fuel (Edge.target edge)
                     (relate (Edge.id edge) (Edge.target edge) st)
              else Some st) (edges this) st
  end.

(** The recursion budget: one more than the number of identifiers that can
    ever be visited (two per edge, plus the start identifiers). *)
Definition budget (this : CopilotEngine) (starts : nat) : nat :=
  S (2 * length (edges this) + starts).

Definition traceChain (this : CopilotEngine) (startNodeIds : list string)
    : option ChainResult.t :=
  st ← forEach (λ nodeId st,
          if existsb (λ n, bool_decide (Node.id n = nodeId)) (nodes this)
          then traverse this (budget this (length startNodeIds)) nodeId st
          else Some st) startNodeIds initial;
  Some (result st).

(** ** CopilotEngine.traceImpact *)

Fixpoint traverseUp (this : CopilotEngine) (fuel : nat)
    (currentNodeId : string) (st : TraceState) : option TraceState :=
  match fuel with
  | O => None
  | S fuel =>
    if bool_decide (currentNodeId ∈ visited st) then Some st
    else
      let st := visit currentNodeId st in
      forEach (λ edge st,
              if bool_decide (Edge.target edge = currentNodeId)
              then traverseUp this fuel (Edge.source edge)
                     (relate (Edge.id edge) (Edge.source edge) st)
              else Some st) (edges this) st
  end.

Definition traceImpact (this : CopilotEngine) (nodeId : string)
    : option ChainResult.t :=
  st ← traverseUp this (budget this 1) nodeId initial;
  Some (result st).

(** ** CopilotEngine.traceDependencies *)

Fixpoint traverseDown (this : CopilotEngine) (fuel : nat)
    (currentNodeId : string) (st : TraceState) : option TraceState :=
  match fuel with
  | O => None
  | S fuel =>
    if bool_decide (currentNodeId ∈ visited st) then Some st
    else
      let st := visit currentNodeId st in
      forEach (λ edge st,
              if bool_decide (Edge.source edge = currentNodeId)
              then traverseDown this fuel (Edge.target edge)
                     (relate (Edge.id edge) (Edge.target edge) st)
              else Some st) (edges this) st
  end.

Definition traceDependencies (this : CopilotEngine) (nodeId : string)
    : option ChainResult.t :=
  st ← traverseDown this (budget this 1) nodeId initial;
  Some (result st).

(** ** CopilotEngine.queryNodes *)

Record QueryCondition := {
  cond_category : option (list string);
  cond_achieved : option bool;                 (* undefined or null: [None] *)
  cond_modelType : option (option ModelType);  (* undefined: [None]; null: [Some None] *)
  cond_level : option Z;
  cond_hasModel : option bool;
  cond_nodeIds : option (list string);
}.

Definition anyCondition : QueryCondition :=
  {| cond_category := None; cond_achieved := None; cond_modelType := None;
     cond_level := None; cond_hasModel := None; cond_nodeIds := None |}.

Definition isKpi (n : Node.t) : bool := bool_decide (Node.category n = "kpi").

(** [!!n.data.metrics?.modelType] *)
Definition hasModelType (n : Node.t) : bool :=
  match Node.metrics n with
  | Some m => truthyModelType m
  | None => false
  end.

(** Each filter applies only when its field of the condition is given.
    [n.data.metrics?.modelType] is [undefined] when the node has no
    metrics record or the record has no [modelType] key; the filter runs
    only for a condition that is not [undefined], so [===] then fails. *)
Definition queryNodes (this : CopilotEngine) (condition : QueryCondition)
    : list Node.t :=
  let result := nodes this in
  let result :=
    match cond_category condition with
    | Some (c :: cs) =>
      filter (λ n, Node.category n ∈ c :: cs) result
    | _ => result
    end in
  let result :=
    match cond_achieved condition with
    | Some a =>
      filter (λ n, isKpi n
                   && bool_decide (achieved <$> Node.metrics n = Some a)) result
    | None => result
    end in
  let result :=
    match cond_modelType condition with
    | Some mt =>
      filter (λ n, isKpi n
                   && bool_decide (Node.metrics n ≫= modelType = Some mt)) result
    | None => result
    end in
  let result :=
    match cond_level condition with
    | Some l => filter (λ n, bool_decide (Node.level n = Some l)) result
    | None => result
    end in
  let result :=
    match cond_hasModel condition with
    | Some h => filter (λ n, isKpi n && bool_decide (hasModelType n = h)) result
    | None => result
    end in
  match cond_nodeIds condition with
  | Some (i :: ids) => filter (λ n, Node.id n ∈ i :: ids) result
  | _ => result
  end.

(** ** CopilotEngine.calculateStats *)

(** [byCategory] is a plain object, created by [{}], so it inherits from
    [Object.prototype]: reading a key it does not own finds the property
    of that name there, if there is one.  These are the property names of
    [Object.prototype] in a standard host; all are functions, but for the
    accessor [__proto__], which reads as [Object.prototype] itself. *)
Definition objectPrototype : list string :=
  ["constructor"; "hasOwnProperty"; "isPrototypeOf"; "propertyIsEnumerable";
   "toLocaleString"; "toString"; "valueOf"; "__proto__";
   "__defineGetter__"; "__defineSetter__"; "__lookupGetter__";
   "__lookupSetter__"].

(** What the histogram can come to hold under a key: a number, or a
    string.  The only strings that arise are the text an inherited
    property converts to (which depends on the host, and is not spelled
    out here) followed by one or more characters "1": [text key ones] is
    String(Object.prototype[key]) followed by [ones] times "1". *)
Inductive JsValue :=
  | number (n : Z)
  | text (key : string) (ones : nat).

#[global] Instance JsValue_eq_dec : EqDecision JsValue.
Proof. solve_decision. Defined.

Module Stats.
Record counts := {
  achieved : Z;
  unachieved : Z;
  partial : Z;
  withModel : Z;
  withoutModel : Z;
}.
Record t := {
  total : Z;
  byCategory : gmap string JsValue;
  byStatus : counts;
}.
End Stats.

(** [byStatus.achieved++] and its three siblings *)
Definition incAchieved (c : Stats.counts) : Stats.counts :=
  {| Stats.achieved := (Stats.achieved c + 1)%Z;
     Stats.unachieved := Stats.unachieved c;
     Stats.partial := Stats.partial c;
     Stats.withModel := Stats.withModel c;
     Stats.withoutModel := Stats.withoutModel c |}.

Definition incUnachieved (c : Stats.counts) : Stats.counts :=
  {| Stats.achieved := Stats.achieved c;
     Stats.unachieved := (Stats.unachieved c + 1)%Z;
     Stats.partial := Stats.partial c;
     Stats.withModel := Stats.withModel c;
     Stats.withoutModel := Stats.withoutModel c |}.

Definition incWithModel (c : Stats.counts) : Stats.counts :=
  {| Stats.achieved := Stats.achieved c;
     Stats.unachieved := Stats.unachieved c;
     Stats.partial := Stats.partial c;
     Stats.withModel := (Stats.withModel c + 1)%Z;
     Stats.withoutModel := Stats.withoutModel c |}.

Definition incWithoutModel (c : Stats.counts) : Stats.counts :=
  {| Stats.achieved := Stats.achieved c;
     Stats.unachieved := Stats.unachieved c;
     Stats.partial := Stats.partial c;
     Stats.withModel := Stats.withModel c;
     Stats.withoutModel := (Stats.withoutModel c + 1)%Z |}.

(** The status part of the loop body: only for a kpi node that has a
    metrics record. *)
Definition countStatus (node : Node.t) (byStatus : Stats.counts) : Stats.counts :=
  match Node.metrics node with
  | Some m =>
    if isKpi node then
      let byStatus :=
        if achieved m then incAchieved byStatus else incUnachieved byStatus in
      if truthyModelType m
      then incWithModel byStatus else incWithoutModel byStatus
    else byStatus
  | None => byStatus
  end.

(** The nodes [countStatus] counts. *)
Definition counted (n : Node.t) : bool :=
  isKpi n && bool_decide (is_Some (Node.metrics n)).

(** [byCategory[category] = (byCategory[category] || 0) + 1].
    - An own number [n]: [n || 0] is [n] (or 0 for 0), and 1 is added.
    - An own string is not empty, so it is truthy, and [+ 1] appends "1".
    - No own property, but an inherited one: a function or object, which
      is truthy, and [+ 1] converts it to a string and appends "1".
    - No property at all: [undefined || 0] is 0, and the result 1.
    The assignment creates or overwrites an own property, except for the
    key [__proto__], whose setter ignores a value that is not an object:
    that key is never created. *)
Definition countCategory (node : Node.t) (byCategory : gmap string JsValue)
    : gmap string JsValue :=
  let category := Node.category node in
  let next :=
    match byCategory !! category with
    | Some (number n) => number (n + 1)
    | Some (text key ones) => text key (S ones)
    | None =>
      if bool_decide (category ∈ objectPrototype)
      then text category 1 else number 1
    end in
  if bool_decide (category = "__proto__") then byCategory
  else <[category := next]> byCategory.

(** [nodesArg] is the optional argument [nodes]; an array, even an empty one, is
    truthy, so [nodes || this.nodes] falls back only when it is absent. *)
Definition calculateStats (this : CopilotEngine) (nodesArg : option (list Node.t))
    : Stats.t :=
  let targetNodes := default (nodes this) nodesArg in
  let start :=
    (∅ : gmap string JsValue,
     {| Stats.achieved := 0%Z; Stats.unachieved := 0%Z; Stats.partial := 0%Z;
        Stats.withModel := 0%Z; Stats.withoutModel := 0%Z |}) in
  let acc :=
    foldl (λ acc node, (countCategory node acc.1, countStatus node acc.2))
      start targetNodes in
  {| Stats.total := Z.of_nat (length targetNodes);
     Stats.byCategory := acc.1;
     Stats.byStatus := acc.2 |}.

(** ** CopilotEngine.getConnectedNodes *)

Inductive Direction := incoming | outgoing | both.

#[global] Instance Direction_eq_dec : EqDecision Direction.
Proof. solve_decision. Defined.

Definition getConnectedNodes (this : CopilotEngine) (nodeId : string)
    (direction : Direction) : list Node.t :=
  let connectedIds :=
    foldl (λ (connectedIds : gset string) edge,
        let connectedIds :=
          if bool_decide (direction = incoming ∨ direction = both)
             && bool_decide (Edge.target edge = nodeId)
          then {[Edge.source edge]} ∪ connectedIds else connectedIds in
        if bool_decide (direction = outgoing ∨ direction = both)
           && bool_decide (Edge.source edge = nodeId)
        then {[Edge.target edge]} ∪ connectedIds else connectedIds)
      ∅ (edges this) in
  filter (λ n, Node.id n ∈ connectedIds) (nodes this).

(** ** Array.prototype.sort

    The sort is stable, and for a comparator that orders its arguments
    consistently the result is the one stable ordering of the input, which
    insertion from the right computes: an element goes in front of the
    first element it does not compare greater than. *)

Fixpoint insertBy {A} (compareFn : A → A → Z) (x : A) (l : list A) : list A :=
  match l with
  | [] => [x]
  | y :: l' =>
    if (compareFn x y <=? 0)%Z then x :: y :: l'
    else y :: insertBy compareFn x l'
  end.

Definition sort {A} (compareFn : A → A → Z) (l : list A) : list A :=
  foldr (insertBy compareFn) [] l.

(** ** AdvancedAnalyzer *)

Record AdvancedAnalyzer := {
  engine : CopilotEngine;
  analyzer_nodes : list Node.t;
  analyzer_edges : list Edge.t;
}.

Definition kpiCondition : QueryCondition :=
  {| cond_category := Some ["kpi"]; cond_achieved := None;
     cond_modelType := None; cond_level := None; cond_hasModel := None;
     cond_nodeIds := None |}.

(** [kpi.data.metrics?.achieved]: [None] is undefined. *)
Definition achievedOf (n : Node.t) : option bool :=
  achieved <$> Node.metrics n.

(** Truthiness of an optional boolean. *)
Definition truthy (b : option bool) : bool := default false b.

(** *** analyzeCorrelations *)

Inductive Strength := strong | medium | weak.

Module Correlation.
Record kpiRef := { id : string; name : string; achieved : bool }.
Record t := {
  kpi1 : kpiRef;
  kpi2 : kpiRef;
  sharedDesignParams : Z;
  sharedVerifications : Z;
  correlationStrength : Strength;
  insight : string;
}.
End Correlation.

Definition generateCorrelationInsight (kpi1 kpi2 : Node.t)
    (sharedDesign sharedVerify : Z) : string :=
  let neither := negb (truthy (achievedOf kpi1)) && negb (truthy (achievedOf kpi2)) in
  let oneAchieved := negb (bool_decide (achievedOf kpi1 = achievedOf kpi2)) in
  if (2 <=? sharedDesign)%Z then
    if neither then "共享多个设计参数，两个指标都未达成，建议优先优化共享参数"
    else if oneAchieved then "共享设计参数但达成情况不同，可能存在其他影响因素"
    else "共享设计参数且都已达成，设计方案有效"
  else "存在关联，建议综合考虑".

(** [new Set(getConnectedNodes(id, 'outgoing').filter(n => n.data.category
    === c).map(n => n.id))] *)
Definition neighbourIds (this : CopilotEngine) (kpiId c : string) : gset string :=
  list_to_set
    (Node.id <$> filter (λ n, Node.category n = c)
                   (getConnectedNodes this kpiId outgoing)).

(** The identifiers both [k1] and [k2] point to, among the nodes of
    category [c]. *)
Definition sharedNeighbours (this : CopilotEngine) (c k1 k2 : string)
    : gset string :=
  neighbourIds this k1 c ∩ neighbourIds this k2 c.

(** [Array.from(s1).filter(id => s2.has(id))] *)
Definition shared (s1 s2 : gset string) : list string :=
  filter (λ id, id ∈ s2) (elements s1).

(** The body of the inner loop: the entry pushed for the pair, if any. *)
Definition correlate (this : AdvancedAnalyzer) (kpi1 kpi2 : Node.t)
    : list Correlation.t :=
  let design1 := neighbourIds (engine this) (Node.id kpi1) "design" in
  let design2 := neighbourIds (engine this) (Node.id kpi2) "design" in
  let sharedDesign := shared design1 design2 in
  let verify1 := neighbourIds (engine this) (Node.id kpi1) "verify" in
  let verify2 := neighbourIds (engine this) (Node.id kpi2) "verify" in
  let sharedVerify := shared verify1 verify2 in
  if (0 <? length sharedDesign)%nat || (0 <? length sharedVerify)%nat then
    let strength :=
      if (2 <=? length sharedDesign)%nat then strong
      else if (1 <=? length sharedDesign)%nat then medium
      else weak in
    [ {| Correlation.kpi1 :=
           {| Correlation.id := Node.id kpi1;
              Correlation.name := Node.label kpi1;
              Correlation.achieved := truthy (achievedOf kpi1) |};
         Correlation.kpi2 :=
           {| Correlation.id := Node.id kpi2;
              Correlation.name := Node.label kpi2;
              Correlation.achieved := truthy (achievedOf kpi2) |};
         Correlation.sharedDesignParams := Z.of_nat (length sharedDesign);
         Correlation.sharedVerifications := Z.of_nat (length sharedVerify);
         Correlation.correlationStrength := strength;
         Correlation.insight :=
           generateCorrelationInsight kpi1 kpi2
             (Z.of_nat (length sharedDesign)) (Z.of_nat (length sharedVerify)) |} ]
  else [].

(** The two nested index loops, before the final sort. *)
Definition correlations (this : AdvancedAnalyzer) : list Correlation.t :=
  let kpis := queryNodes (engine this) kpiCondition in
  i ← seq 0 (length kpis);
  j ← seq (i + 1) (length kpis - (i + 1));
  match kpis !! i, kpis !! j with
  | Some kpi1, Some kpi2 => correlate this kpi1 kpi2
  | _, _ => []
  end.

Definition analyzeCorrelations (this : AdvancedAnalyzer) : list Correlation.t :=
  sort (λ a b, (Correlation.sharedDesignParams b
                - Correlation.sharedDesignParams a)%Z)
    (correlations this).

(** *** prioritizeNodes *)

Module Priority.
Record t := {
  nodeId : string;
  nodeName : string;
  category : string;
  priorityScore : Z;
  reasons : list string;
}.
End Priority.

(** One iteration of the loop over the KPIs: the entry pushed, if any.
    [impact] is the size of [traceDependencies(kpi.id).nodes]. *)
Definition scoreKpi (this : AdvancedAnalyzer) (kpi : Node.t) (impact : nat)
    : list Priority.t :=
  let score := 0%Z in
  let reasons : list string := [] in
  let '(score, reasons) :=
    if negb (truthy (achievedOf kpi))
    then ((score + 50)%Z, (reasons ++ ["指标未达成"])%list) else (score, reasons) in
  let '(score, reasons) :=
    if negb (hasModelType kpi)
    then ((score + 30)%Z, (reasons ++ ["缺少模型"])%list) else (score, reasons) in
  let hasVerify :=
    existsb (λ n, bool_decide (Node.category n = "verify"))
      (getConnectedNodes (engine this) (Node.id kpi) outgoing) in
  let '(score, reasons) :=
    if negb hasVerify
    then ((score + 20)%Z, (reasons ++ ["缺少验证"])%list) else (score, reasons) in
  let '(score, reasons) :=
    if bool_decide (Node.level kpi = Some 1%Z)
    then ((score + 10)%Z, (reasons ++ ["一级指标"])%list) else (score, reasons) in
  let score := (score + Z.min (Z.of_nat impact) 20)%Z in
  let reasons :=
    if (5 <? impact)%nat
    then (reasons ++ ["影响" +:+ pretty impact +:+ "个节点"])%list else reasons in
  if (0 <? score)%Z then
    [ {| Priority.nodeId := Node.id kpi;
         Priority.nodeName := Node.label kpi;
         Priority.category := Node.category kpi;
         Priority.priorityScore := score;
         Priority.reasons := reasons |} ]
  else [].

(** The loop over the KPIs, before the final sort; [None] only if a
    traversal ran out of budget. *)
Fixpoint priorities (this : AdvancedAnalyzer) (kpis : list Node.t)
    : option (list Priority.t) :=
  match kpis with
  | [] => Some []
  | kpi :: kpis =>
    impact ← traceDependencies (engine this) (Node.id kpi);
    rest ← priorities this kpis;
    Some (scoreKpi this kpi (size (ChainResult.nodes impact)) ++ rest)%list
  end.

Definition prioritizeNodes (this : AdvancedAnalyzer) : option (list Priority.t) :=
  ps ← priorities this (queryNodes (engine this) kpiCondition);
  Some (sort (λ a b, (Priority.priorityScore b - Priority.priorityScore a)%Z) ps).

(** ** Regular expressions (the subset the parser uses)

    A backtracking matcher in continuation style, as ECMAScript defines
    its pattern semantics: alternatives are tried left to right,
    quantifiers are greedy, and an iteration of [*] that consumes nothing
    is rejected.  A cursor remembers the character before it, for [\b]
    and [^]. *)

Inductive regex :=
  | Eps                          (* the empty pattern *)
  | Lit (s : string)             (* literal text *)
  | Class (p : ascii → bool)     (* one character of a class *)
  | Seq (r1 r2 : regex)
  | Alt (r1 r2 : regex)          (* r1|r2 *)
  | Star (r : regex)             (* r* *)
  | Boundary                     (* \b *)
  | Start.                       (* ^ *)

Definition Plus (r : regex) : regex := Seq r (Star r).   (* r+ *)
Definition Opt (r : regex) : regex := Alt r Eps.         (* r? *)

(** [a|b|c] over literals. *)
Fixpoint oneOf (s : string) (l : list string) : regex :=
  match l with
  | [] => Lit s
  | s' :: l' => Alt (Lit s) (oneOf s' l')
  end.

Record cursor := { before : option ascii; rest : string }.

Definition inRange (lo hi c : ascii) : bool :=
  (nat_of_ascii lo <=? nat_of_ascii c)%nat && (nat_of_ascii c <=? nat_of_ascii hi)%nat.

Definition isUpper (c : ascii) : bool := inRange "A"%char "Z"%char c.
Definition isLower (c : ascii) : bool := inRange "a"%char "z"%char c.
Definition isDigit (c : ascii) : bool := inRange "0"%char "9"%char c.
(** [\w] *)
Definition isWord (c : ascii) : bool :=
  isUpper c || isLower c || isDigit c || Ascii.eqb c "_"%char.

Definition lowerChar (c : ascii) : ascii :=
  if isUpper c then ascii_of_nat (nat_of_ascii c + 32) else c.

(** Character comparison; under the [i] flag ASCII letters match in either
    case, and no other character matches an ASCII letter. *)
Definition sameChar (ignoreCase : bool) (a b : ascii) : bool :=
  if ignoreCase then Ascii.eqb (lowerChar a) (lowerChar b) else Ascii.eqb a b.

Definition atBoundary (c : cursor) : bool :=
  let a := match before c with Some x => isWord x | None => false end in
  let b := match rest c with String x _ => isWord x | EmptyString => false end in
  xorb a b.

Fixpoint literal (ignoreCase : bool) (s : string) (c : cursor) : option cursor :=
  match s with
  | EmptyString => Some c
  | String a s' =>
    match rest c with
    | String b r =>
      if sameChar ignoreCase a b
      then literal ignoreCase s' {| before := Some b; rest := r |}
      else None
    | EmptyString => None
    end
  end.

Fixpoint matcher (ignoreCase : bool) (r : regex) (k : cursor → option cursor)
    (c : cursor) : option cursor :=
  match r with
  | Eps => k c
  | Lit s => literal ignoreCase s c ≫= k
  | Class p =>
    match rest c with
    | String b t => if p b then k {| before := Some b; rest := t |} else None
    | EmptyString => None
    end
  | Seq r1 r2 => matcher ignoreCase r1 (matcher ignoreCase r2 k) c
  | Alt r1 r2 =>
    match matcher ignoreCase r1 k c with
    | Some c' => Some c'
    | None => matcher ignoreCase r2 k c
    end
  | Star r1 =>
    (fix repeat (n : nat) (c : cursor) : option cursor :=
       match n with
       | O => k c
       | S n' =>
         match matcher ignoreCase r1
                 (λ c', if (String.length (rest c') <? String.length (rest c))%nat
                        then repeat n' c' else None) c with
         | Some c' => Some c'
         | None => k c
         end
       end) (String.length (rest c)) c
  | Boundary => if atBoundary c then k c else None
  | Start => match before c with None => k c | Some _ => None end
  end.

(** The leftmost match at or after the cursor: where it starts and ends. *)
Fixpoint execFrom (ignoreCase : bool) (r : regex) (b : option ascii) (s : string)
    : option (cursor * cursor) :=
  let c := {| before := b; rest := s |} in
  match matcher ignoreCase r Some c with
  | Some c' => Some (c, c')
  | None =>
    match s with
    | EmptyString => None
    | String a s' => execFrom ignoreCase r (Some a) s'
    end
  end.

(** [RegExp.prototype.test] *)
Definition test (ignoreCase : bool) (r : regex) (s : string) : bool :=
  bool_decide (is_Some (execFrom ignoreCase r None s)).

(** The text between two cursors of the same string. *)
Definition matched (c c' : cursor) : string :=
  substring 0 (String.length (rest c) - String.length (rest c')) (rest c).

(** The matches of a [g] pattern, left to right: after a match the search
    resumes at its end, one character further if the match was empty.
    [skip] counts the characters of the last match still to step over. *)
Fixpoint scan (ignoreCase : bool) (r : regex) (skip : nat) (b : option ascii)
    (s : string) : list string :=
  let c := {| before := b; rest := s |} in
  let next sk := match s with
                 | EmptyString => []
                 | String a s' => scan ignoreCase r sk (Some a) s'
                 end in
  match skip with
  | S sk => next sk
  | O =>
    match matcher ignoreCase r Some c with
    | Some c' =>
      matched c c' :: next (String.length (rest c) - String.length (rest c') - 1)
    | None => next 0
    end
  end.

(** [String.prototype.match] with a [g] pattern: [null] when nothing
    matches. *)
Definition matchAll (ignoreCase : bool) (r : regex) (s : string)
    : option (list string) :=
  match scan ignoreCase r 0 None s with
  | [] => None
  | ms => Some ms
  end.

(** [String.prototype.includes] *)
Fixpoint includes (s needle : string) : bool :=
  String.prefix needle s
  || match s with
     | EmptyString => false
     | String _ s' => includes s' needle
     end.

(** ** The query parser (lib/nlpParser) *)

Module EntityType.
Inductive t :=
  node_id | category | status | model_type | level | metric | relationship.
End EntityType.

Module Entity.
Record t := {
  type : EntityType.t;
  value : string;
  confidence : option Q;
}.
End Entity.

Module QueryIntent.
Inductive t :=
  | query_stats | query_nodes | trace_chain | analyze_impact | find_issues
  | suggest | compare | correlation | health_check | prioritize | unknown.
End QueryIntent.

Module ParsedQuery.
Record t := {
  rawQuery : string;
  intent : QueryIntent.t;
  entities : list Entity.t;
  confidence : Q;
}.
End ParsedQuery.

Definition entity (t : EntityType.t) (v : string) (c : Q) : Entity.t :=
  {| Entity.type := t; Entity.value := v; Entity.confidence := Some c |}.

Definition bytes (l : list nat) : string :=
  string_of_list_ascii (ascii_of_nat <$> l).

(** [\s]: the ASCII white space and the UTF-8 encodings of U+00A0, U+1680,
    U+2000 to U+200A, U+2028, U+2029, U+202F, U+205F, U+3000 and U+FEFF. *)
Definition whiteSpace : regex :=
  Alt (Class (λ c, inRange (ascii_of_nat 9) (ascii_of_nat 13) c
                   || Ascii.eqb c " "%char))
  (Alt (Lit (bytes [194; 160]))
  (Alt (Lit (bytes [225; 154; 128]))
  (Alt (Seq (Lit (bytes [226; 128]))
            (Class (λ c, inRange (ascii_of_nat 128) (ascii_of_nat 138) c
                         || inRange (ascii_of_nat 168) (ascii_of_nat 169) c
                         || Ascii.eqb c (ascii_of_nat 175))))
  (Alt (Lit (bytes [226; 129; 159]))
  (Alt (Lit (bytes [227; 128; 128]))
       (Lit (bytes [239; 187; 191]))))))).

(** The patterns of the intent cascade, in source order. *)
Definition reStats : regex := oneOf "统计" ["多少"; "几个"; "数量"; "占比"; "比例"; "百分"].
Definition reChain : regex := oneOf "链路" ["路径"; "追踪"; "关系"].
Definition reImpact : regex := oneOf "影响" ["波及"; "连带"].
Definition reIssues : regex := oneOf "问题" ["瓶颈"; "风险"; "缺失"; "缺少"].
Definition reSuggest : regex := oneOf "建议" ["推荐"; "优化"; "改进"].
Definition reCompare : regex := oneOf "对比" ["比较"; "差异"].
Definition reCorrelation : regex := oneOf "相关" ["关联"].
Definition reHealth : regex := oneOf "健康" ["评估"; "诊断"].
Definition rePrioritize : regex := oneOf "优先级" ["排序"; "重要"].
Definition reDisplay : regex := oneOf "显示" ["查看"; "列出"; "找出"].

(** The global pattern for identifier tokens: a word boundary, one or
    more of [A-Z_], any number of digits, a word boundary; and the prefix
    pattern [^(KPI_|D_|V_|G_)]. *)
Definition reNodeIdToken : regex :=
  Seq Boundary
    (Seq (Seq (Plus (Class (λ c, isUpper c || Ascii.eqb c "_"%char)))
              (Star (Class isDigit)))
         Boundary).
Definition reNodeIdPrefix : regex :=
  Seq Start (oneOf "KPI_" ["D_"; "V_"; "G_"]).

(** [Object.entries(aliasMap)], in insertion order. *)
Definition aliasMap : list (string * string) :=
  [ ("折叠时间", "KPI_FoldTime");
    ("空间收益", "KPI_SpaceGain");
    ("用户体验", "KPI_UX");
    ("安全性", "KPI_Safety");
    ("nvh", "KPI_NVH");
    ("成本", "KPI_Cost");
    ("可靠性", "KPI_Reliability");
    ("电机扭矩", "D_MotorTorque");
    ("控制算法", "D_ControlAlgo") ].

Section Parser.
(** [String.prototype.toLowerCase] and [String.prototype.trim] belong to
    the host; the parser is stated over any pair of them. *)
Context (toLowerCase trim : string → string).

Definition classifyIntent (normalizedQuery : string) : QueryIntent.t * Q :=
  if test false reStats normalizedQuery then (QueryIntent.query_stats, 0.9%Q)
  else if test false reChain normalizedQuery then (QueryIntent.trace_chain, 0.9%Q)
  else if test false reImpact normalizedQuery then (QueryIntent.analyze_impact, 0.9%Q)
  else if test false reIssues normalizedQuery then (QueryIntent.find_issues, 0.8%Q)
  else if test false reSuggest normalizedQuery then (QueryIntent.suggest, 0.8%Q)
  else if test false reCompare normalizedQuery then (QueryIntent.compare, 0.8%Q)
  else if test false reCorrelation normalizedQuery then (QueryIntent.correlation, 0.8%Q)
  else if test false reHealth normalizedQuery then (QueryIntent.health_check, 0.9%Q)
  else if test false rePrioritize normalizedQuery then (QueryIntent.prioritize, 0.8%Q)
  else if test false reDisplay normalizedQuery then (QueryIntent.query_nodes, 0.7%Q)
  else (QueryIntent.unknown, 0.5%Q).

(** 1. node identifiers, from the raw query *)
Definition nodeIdEntities (query : string) : list Entity.t :=
  match matchAll false reNodeIdToken query with
  | Some nodeIdMatches =>
    id ← nodeIdMatches;
    if test false reNodeIdPrefix id
    then [entity EntityType.node_id id 0.95%Q] else []
  | None => []
  end.

(** 2. aliases *)
Definition aliasEntities (normalizedQuery : string) : list Entity.t :=
  '(alias, id) ← aliasMap;
  if includes normalizedQuery (toLowerCase alias)
  then [entity EntityType.node_id id 0.9%Q] else [].

(** 3. status *)
Definition statusEntities (normalizedQuery : string) : list Entity.t :=
  if test false (oneOf "未达成" ["未完成"; "不达标"]) normalizedQuery
  then [entity EntityType.status "unachieved" 0.9%Q]
  else if test false (oneOf "已达成" ["完成"; "达标"]) normalizedQuery
  then [entity EntityType.status "achieved" 0.9%Q]
  else [].

(** 4. model type *)
Definition modelTypeEntities (normalizedQuery : string) : list Entity.t :=
  if test false (oneOf "sysml" ["系统建模"]) normalizedQuery
  then [entity EntityType.model_type "sysml" 0.95%Q]
  else if test false (oneOf "simulink" ["仿真"]) normalizedQuery
  then [entity EntityType.model_type "simulink" 0.95%Q]
  else if test false (Lit "modelica") normalizedQuery
  then [entity EntityType.model_type "modelica" 0.95%Q]
  else if test false (Lit "fmu") normalizedQuery
  then [entity EntityType.model_type "fmu" 0.95%Q]
  else if test false (Alt (Seq (Opt (Lit "非")) (Lit "模型")) (Lit "没有模型"))
            normalizedQuery
  then [entity EntityType.model_type "none" 0.9%Q]
  else [].

(** 5. level *)
Definition levelEntities (normalizedQuery : string) : list Entity.t :=
  if test false (Alt (Lit "一级") (Alt (Lit "1级")
                  (Seq (Lit "level") (Seq (Star whiteSpace) (Lit "1")))))
       normalizedQuery
  then [entity EntityType.level "1" 0.9%Q]
  else if test false (Alt (Lit "二级") (Alt (Lit "2级")
                  (Seq (Lit "level") (Seq (Star whiteSpace) (Lit "2")))))
       normalizedQuery
  then [entity EntityType.level "2" 0.9%Q]
  else [].

(** 6. category *)
Definition categoryEntities (normalizedQuery : string) : list Entity.t :=
  if test false (Lit "目标") normalizedQuery
  then [entity EntityType.category "goal" 0.9%Q]
  else if test true (oneOf "指标" ["kpi"]) normalizedQuery
  then [entity EntityType.category "kpi" 0.9%Q]
  else if test false (oneOf "设计" ["参数"]) normalizedQuery
  then [entity EntityType.category "design" 0.9%Q]
  else if test false (oneOf "验证" ["仿真"]) normalizedQuery
  then [entity EntityType.category "verify" 0.9%Q]
  else [].

Definition parseQuery (query : string) : ParsedQuery.t :=
  let normalizedQuery := trim (toLowerCase query) in
  let '(intent, confidence) := classifyIntent normalizedQuery in
  let entities :=
    (nodeIdEntities query ++ aliasEntities normalizedQuery
     ++ statusEntities normalizedQuery ++ modelTypeEntities normalizedQuery
     ++ levelEntities normalizedQuery ++ categoryEntities normalizedQuery)%list in
  {| ParsedQuery.rawQuery := query;
     ParsedQuery.intent := intent;
     ParsedQuery.entities := entities;
     ParsedQuery.confidence := confidence |}.
End Parser.

(** The two host functions on ASCII: they agree with the host's on every
    string whose other characters are caseless and are not white space, as
    the CJK text of the queries is. *)
Fixpoint asciiLower (s : string) : string :=
  match s with
  | EmptyString => EmptyString
  | String c s' => String (lowerChar c) (asciiLower s')
  end.

Definition isAsciiSpace (c : ascii) : bool :=
  inRange (ascii_of_nat 9) (ascii_of_nat 13) c || Ascii.eqb c " "%char.

Fixpoint trimStart (s : string) : string :=
  match s with
  | String c s' => if isAsciiSpace c then trimStart s' else s
  | EmptyString => EmptyString
  end.

Definition asciiTrim (s : string) : string :=
  String.rev (trimStart (String.rev (trimStart s))).

(** [kw] occurs in [s]. *)
Definition occurs (kw s : string) : Prop :=
  ∃ pre post, s = pre +:+ kw +:+ post.

(** The keywords of the first two rules. *)
Definition statsKeywords : list string :=
  ["统计"; "多少"; "几个"; "数量"; "占比"; "比例"; "百分"].
Definition chainKeywords : list string :=
  ["链路"; "路径"; "追踪"; "关系"].

(** The literals of a pattern that is an alternation of literals. *)
Fixpoint literals (r : regex) : list string :=
  match r with
  | Lit s => [s]
  | Alt r1 r2 => literals r1 ++ literals r2
  | _ => []
  end.

(** The remaining input at [c'] is a tail of the remaining input at [c]. *)
Definition behind (c' c : cursor) : Prop :=
  ∃ pre, rest c = pre +:+ rest c'.

(** The rule table of the specification: (pattern, intent, confidence),
    evaluated top to bottom, the first match deciding. *)
Definition intentRules : list (regex * QueryIntent.t * Q) :=
  [ (reStats, QueryIntent.query_stats, 0.9%Q);
    (reChain, QueryIntent.trace_chain, 0.9%Q);
    (reImpact, QueryIntent.analyze_impact, 0.9%Q);
    (reIssues, QueryIntent.find_issues, 0.8%Q);
    (reSuggest, QueryIntent.suggest, 0.8%Q);
    (reCompare, QueryIntent.compare, 0.8%Q);
    (reCorrelation, QueryIntent.correlation, 0.8%Q);
    (reHealth, QueryIntent.health_check, 0.9%Q);
    (rePrioritize, QueryIntent.prioritize, 0.8%Q);
    (reDisplay, QueryIntent.query_nodes, 0.7%Q) ].

Fixpoint firstMatch (rules : list (regex * QueryIntent.t * Q)) (s : string)
    : QueryIntent.t * Q :=
  match rules with
  | [] => (QueryIntent.unknown, 0.5%Q)
  | (re, intent, confidence) :: rules' =>
    if test false re s then (intent, confidence) else firstMatch rules' s
  end.

(** ** Reachability, and one walker for the three traversals

    The three closures differ in the directions they follow and in whether
    the loop tests [visited] before it recurses.  [walk] has both as
    parameters; each closure is an instance of it ([traverse_walk],
    [traverseUp_walk], [traverseDown_walk]), so the traversal lemmas are
    proved once. *)

(** [y] is the source of an edge into [x]. *)
Definition upstream (this : CopilotEngine) (x y : string) : Prop :=
  ∃ e, e ∈ edges this ∧ Edge.target e = x ∧ Edge.source e = y.

(** [y] is the target of an edge out of [x]. *)
Definition downstream (this : CopilotEngine) (x y : string) : Prop :=
  ∃ e, e ∈ edges this ∧ Edge.source e = x ∧ Edge.target e = y.

(** An edge joins [x] and [y], in either direction. *)
Definition linked (this : CopilotEngine) (x y : string) : Prop :=
  upstream this x y ∨ downstream this x y.

(** The snapshot has a node with this identifier. *)
Definition present (this : CopilotEngine) (x : string) : Prop :=
  ∃ n, n ∈ nodes this ∧ Node.id n = x.

Inductive Dir := Up | Down.

Definition near (d : Dir) (e : Edge.t) : string :=
  match d with Up => Edge.target e | Down => Edge.source e end.

Definition far (d : Dir) (e : Edge.t) : string :=
  match d with Up => Edge.source e | Down => Edge.target e end.

Definition hop (guarded : bool) (rec : string → TraceState → option TraceState)
    (d : Dir) (nodeId : string) (edge : Edge.t) (st : TraceState)
    : option TraceState :=
  if bool_decide (near d edge = nodeId)
     && (negb guarded || negb (bool_decide (far d edge ∈ visited st)))
  then rec (far d edge) (relate (Edge.id edge) (far d edge) st)
  else Some st.

Fixpoint walk (guarded : bool) (dirs : list Dir) (es : list Edge.t)
    (fuel : nat) (nodeId : string) (st : TraceState) : option TraceState :=
  match fuel with
  | O => None
  | S fuel =>
    if bool_decide (nodeId ∈ visited st) then Some st
    else forEach (λ d, forEach (hop guarded (walk guarded dirs es fuel) d nodeId) es)
           dirs (visit nodeId st)
  end.

Definition step (dirs : list Dir) (es : list Edge.t) (x y : string) : Prop :=
  ∃ d e, d ∈ dirs ∧ e ∈ es ∧ near d e = x ∧ far d e = y.

(** Every member of [V] outside [G] has all its neighbours in [V]. *)
Definition closed_off (dirs : list Dir) (es : list Edge.t) (G V : gset string)
    : Prop :=
  ∀ x y, x ∈ V → x ∉ G → step dirs es x y → y ∈ V.

(** The identifiers a traversal from [starts] can ever visit. *)
Definition universe (this : CopilotEngine) (starts : list string) : gset string :=
  list_to_set (Edge.source <$> edges this)
  ∪ list_to_set (Edge.target <$> edges this)
  ∪ list_to_set starts.

(** A node of the snapshot with category [c] that an edge out of [k]
    points to. *)
Definition neighbour (this : CopilotEngine) (k c y : string) : Prop :=
  ∃ e n, e ∈ edges this ∧ Edge.source e = k ∧ Edge.target e = y
         ∧ n ∈ nodes this ∧ Node.id n = y ∧ Node.category n = c.

(** The arcs of the edge list, in order. *)
Definition arcs (this : CopilotEngine) : list (string * string) :=
  (λ e, (Edge.source e, Edge.target e)) <$> edges this.

(** ** Small graphs used in the examples *)

Definition mkNode (i c : string) : Node.t :=
  {| Node.id := i; Node.label := i; Node.category := c;
     Node.level := None; Node.metrics := None |}.

Definition mkKpi (i : string) (a : bool) (m : option ModelType) : Node.t :=
  {| Node.id := i; Node.label := i; Node.category := "kpi";
     Node.level := Some 1%Z;
     Node.metrics := Some {| achieved := a; modelType := Some m;
                             modelCovered := bool_decide (is_Some m);
                             achievementRate := None |} |}.

Definition mkEdge (i s t : string) : Edge.t :=
  {| Edge.id := i; Edge.source := s; Edge.target := t;
     Edge.relationship := None |}.

(** e1: A→B, e2: A→C, e3: B→C *)
Definition triangle : CopilotEngine :=
  {| nodes := [mkNode "A" "kpi"; mkNode "B" "design"; mkNode "C" "design"];
     edges := [mkEdge "e1" "A" "B"; mkEdge "e2" "A" "C"; mkEdge "e3" "B" "C"] |}.

(** X→Y and Y→X *)
Definition cycle : CopilotEngine :=
  {| nodes := [mkNode "X" "kpi"; mkNode "Y" "verify"];
     edges := [mkEdge "e1" "X" "Y"; mkEdge "e2" "Y" "X"] |}.

(** A→B, B→C *)
Definition chain : CopilotEngine :=
  {| nodes := [mkNode "A" "goal"; mkNode "B" "kpi"; mkNode "C" "design"];
     edges := [mkEdge "e1" "A" "B"; mkEdge "e2" "B" "C"] |}.

(** An edge A→B whose source has no node object. *)
Definition dangling : CopilotEngine :=
  {| nodes := [mkNode "B" "kpi"];
     edges := [mkEdge "e1" "A" "B"] |}.

(** A KPI node without a metrics record. *)
Definition bare : CopilotEngine :=
  {| nodes := [mkNode "K" "kpi"]; edges := [] |}.

(** Two KPIs that share the design parameters D1 and D2 and no
    verification. *)
Definition coupled : AdvancedAnalyzer :=
  let ns := [mkKpi "K1" true (Some simulink); mkKpi "K2" false None;
             mkNode "D1" "design"; mkNode "D2" "design"; mkNode "V1" "verify"] in
  let es := [mkEdge "e1" "K1" "D1"; mkEdge "e2" "K1" "D2";
             mkEdge "e3" "K2" "D1"; mkEdge "e4" "K2" "D2";
             mkEdge "e5" "K1" "V1"] in
  {| engine := {| nodes := ns; edges := es |};
     analyzer_nodes := ns; analyzer_edges := es |}.

(** The nodes that add to each of the four status counters. *)
Definition tallyAchieved (n : Node.t) : bool :=
  counted n && truthy (achievedOf n).
Definition tallyUnachieved (n : Node.t) : bool :=
  counted n && negb (truthy (achievedOf n)).
Definition tallyWithModel (n : Node.t) : bool :=
  isKpi n && hasModelType n.
Definition tallyWithoutModel (n : Node.t) : bool :=
  counted n && negb (hasModelType n).

(** A node passes every filter that [condition] gives; an empty
    [category] or [nodeIds] array counts as not given.  The [modelType]
    filter, given as a model type or as [null], wants the metrics record
    to hold that very value under the key [modelType]. *)
Definition satisfies (condition : QueryCondition) (n : Node.t) : Prop :=
  match cond_category condition with
  | Some (c :: cs) => Node.category n ∈ c :: cs
  | _ => True
  end ∧
  match cond_achieved condition with
  | Some a => Node.category n = "kpi" ∧ achieved <$> Node.metrics n = Some a
  | None => True
  end ∧
  match cond_modelType condition with
  | Some mt => Node.category n = "kpi" ∧ Node.metrics n ≫= modelType = Some mt
  | None => True
  end ∧
  match cond_level condition with
  | Some l => Node.level n = Some l
  | None => True
  end ∧
  match cond_hasModel condition with
  | Some h => Node.category n = "kpi" ∧ hasModelType n = h
  | None => True
  end ∧
  match cond_nodeIds condition with
  | Some (i :: ids) => Node.id n ∈ i :: ids
  | _ => True
  end.

(** The identifier [i] belongs to an edge both of whose ends are in [V]. *)
Definition spans (dirs : list Dir) (es : list Edge.t) (V : gset string)
    (i : string) : Prop :=
  ∃ d e, d ∈ dirs ∧ e ∈ es ∧ Edge.id e = i ∧ near d e ∈ V ∧ far d e ∈ V.

(** The identifier of every edge at a node of [V] outside [G] is in [E]. *)
Definition covered (dirs : list Dir) (es : list Edge.t) (G V E : gset string)
    : Prop :=
  ∀ x d e, x ∈ V → x ∉ G → d ∈ dirs → e ∈ es → near d e = x → Edge.id e ∈ E.

(** ** CopilotEngine.queryEdges

    [relationship] is the optional argument; [if (relationship)] also
    treats the empty string as absent. *)
Definition queryEdges (this : CopilotEngine) (nodeIds : list string)
    (relationship : option string) : list Edge.t :=
  let nodeIdSet : gset string := list_to_set nodeIds in
  let keep (edge : Edge.t) : bool :=
    let isRelated :=
      bool_decide (Edge.source edge ∈ nodeIdSet)
      || bool_decide (Edge.target edge ∈ nodeIdSet) in
    if negb isRelated then false
    else
      match relationship with
      | Some r =>
        if bool_decide (r = "") then true
        else bool_decide (Edge.relationship edge = Some r)
      | None => true
      end in
  filter (λ edge, keep edge = true) (edges this).

(** ** CopilotEngine.findSharedDesignParams *)

(** [this.nodes.find(n => n.id === id)] *)
Definition findNode (ns : list Node.t) (id : string) : option Node.t :=
  List.find (λ n, bool_decide (Node.id n = id)) ns.

Definition findSharedDesignParams (this : CopilotEngine)
    (designParamId : string) : list Node.t :=
  let relatedKPIs :=
    foldl (λ (relatedKPIs : gset string) edge,
        if bool_decide (Edge.target edge = designParamId) then
          match findNode (nodes this) (Edge.source edge) with
          | Some sourceNode =>
            if bool_decide (Node.category sourceNode = "kpi")
            then {[Edge.source edge]} ∪ relatedKPIs else relatedKPIs
          | None => relatedKPIs
          end
        else relatedKPIs)
      ∅ (edges this) in
  filter (λ n, Node.id n ∈ relatedKPIs) (nodes this).

(** ** AdvancedAnalyzer.analyzeDependencies *)

Module Dependency.
Record ref := { id : string; name : string; category : string }.
Inductive level := high | medium | low.
Record t := {
  nodeId : string;
  nodeName : string;
  upstream : list ref;
  downstream : list ref;
  criticalPath : list string;
  riskLevel : level;
  riskFactors : list string;
}.
End Dependency.

Definition toRef (n : Node.t) : Dependency.ref :=
  {| Dependency.id := Node.id n;
     Dependency.name := Node.label n;
     Dependency.category := Node.category n |}.

(** The [while (true)] loop of calculateCriticalPath: climb to the first
    incoming neighbour that is a goal or a kpi, until there is none or a
    goal is reached.  The source has no bound on the iterations; [fuel]
    counts them, and [None] means that [fuel] iterations did not reach a
    [break]. *)
Fixpoint criticalPathLoop (this : AdvancedAnalyzer) (fuel : nat)
    (path : list string) (currentId : string) : option (list string) :=
  match fuel with
  | O => None
  | S fuel =>
    match List.find (λ n, bool_decide (Node.category n = "goal")
                          || bool_decide (Node.category n = "kpi"))
            (getConnectedNodes (engine this) currentId incoming) with
    | None => Some path
    | Some parent =>
      let path := Node.id parent :: path in
      if bool_decide (Node.category parent = "goal") then Some path
      else criticalPathLoop this fuel path (Node.id parent)
    end
  end.

Definition calculateCriticalPath (this : AdvancedAnalyzer) (fuel : nat)
    (nodeId : string) : option (list string) :=
  criticalPathLoop this fuel [nodeId] nodeId.

(** The factors and the score assessRisk accumulates. *)
Definition riskTally (node : Node.t) (upstream downstream : list Dependency.ref)
    : list string * Z :=
  let factors : list string := [] in
  let riskScore := 0%Z in
  let '(factors, riskScore) :=
    if isKpi node && negb (truthy (achievedOf node))
    then (factors ++ ["指标未达成"], (riskScore + 3)%Z)
    else (factors, riskScore) in
  let '(factors, riskScore) :=
    if isKpi node && negb (hasModelType node)
    then (factors ++ ["缺少模型支撑"], (riskScore + 2)%Z)
    else (factors, riskScore) in
  let '(factors, riskScore) :=
    if isKpi node || bool_decide (Node.category node = "design") then
      let hasVerify :=
        existsb (λ n, bool_decide (Dependency.category n = "verify"))
          downstream in
      if negb hasVerify
      then (factors ++ ["缺少验证环节"], (riskScore + 2)%Z)
      else (factors, riskScore)
    else (factors, riskScore) in
  let '(factors, riskScore) :=
    if (5 <? length upstream)%nat
    then (factors ++ ["上游依赖较多（" +:+ pretty (length upstream) +:+ "个）"],
          (riskScore + 1)%Z)
    else (factors, riskScore) in
  if (8 <? length downstream)%nat
  then (factors ++ ["下游依赖较多（" +:+ pretty (length downstream) +:+ "个）"],
        (riskScore + 1)%Z)
  else (factors, riskScore).

Definition assessRisk (node : Node.t) (upstream downstream : list Dependency.ref)
    : Dependency.level * list string :=
  let '(factors, riskScore) := riskTally node upstream downstream in
  let level :=
    if (5 <=? riskScore)%Z then Dependency.high
    else if (3 <=? riskScore)%Z then Dependency.medium
    else Dependency.low in
  (level, factors).

(** The outer [None] is the critical-path loop not returning within
    [fuel] iterations; the inner one is the [null] result. *)
Definition analyzeDependencies (this : AdvancedAnalyzer) (fuel : nat)
    (nodeId : string) : option (option Dependency.t) :=
  match findNode (analyzer_nodes this) nodeId with
  | None => Some None
  | Some node =>
    let upstream :=
      toRef <$> getConnectedNodes (engine this) nodeId incoming in
    let downstream :=
      toRef <$> getConnectedNodes (engine this) nodeId outgoing in
    criticalPath ← calculateCriticalPath this fuel nodeId;
    let '(level, factors) := assessRisk node upstream downstream in
    Some (Some {| Dependency.nodeId := nodeId;
                  Dependency.nodeName := Node.label node;
                  Dependency.upstream := upstream;
                  Dependency.downstream := downstream;
                  Dependency.criticalPath := criticalPath;
                  Dependency.riskLevel := level;
                  Dependency.riskFactors := factors |})
  end.

(** Each element of the list has an edge to the next one. *)
Fixpoint ascending (this : CopilotEngine) (l : list string) : Prop :=
  match l with
  | a :: l' =>
    match l' with
    | b :: _ => downstream this a b ∧ ascending this l'
    | [] => True
    end
  | [] => True
  end.

(** The first goal or kpi node among the incoming neighbours of [x]: the
    node the critical-path loop climbs to. *)
Definition parentOf (this : AdvancedAnalyzer) (x : string) : option Node.t :=
  List.find (λ n, bool_decide (Node.category n = "goal")
                  || bool_decide (Node.category n = "kpi"))
    (getConnectedNodes (engine this) x incoming).

(** ** More small graphs *)

(** Two kpi nodes that are each other's parent. *)
Definition loop2 : AdvancedAnalyzer :=
  let ns := [mkNode "K1" "kpi"; mkNode "K2" "kpi"] in
  let es := [mkEdge "e1" "K1" "K2"; mkEdge "e2" "K2" "K1"] in
  {| engine := {| nodes := ns; edges := es |};
     analyzer_nodes := ns; analyzer_edges := es |}.

(** goal G → kpi K → design D → verify V, with the back edge V → K. *)
Definition ladder : AdvancedAnalyzer :=
  let ns := [mkNode "G" "goal"; mkNode "K" "kpi"; mkNode "D" "design";
             mkNode "V" "verify"] in
  let es := [mkEdge "e1" "G" "K"; mkEdge "e2" "K" "D"; mkEdge "e3" "D" "V";
             mkEdge "e4" "V" "K"] in
  {| engine := {| nodes := ns; edges := es |};
     analyzer_nodes := ns; analyzer_edges := es |}.

(** ** ContextManager *)

(** The conversation context of [ContextManager] (contextManager.ts).  A
    [Date] is the number of milliseconds it holds; [recordQuery] takes the
    clock reading it stores as an argument.  The [frequentQueries] map is
    only read by key here, so its insertion order is not modelled.  The
    manager's one mutable field is [context], so the methods below take
    and return a [ConversationContext]. *)
Module HistoryEntry.
Record t := {
  query : string;
  parsed : ParsedQuery.t;
  timestamp : Z;
  resultNodes : option (list string);
}.
End HistoryEntry.

Record Preferences := {
  favoriteKPIs : list string;
  recentlyViewed : list string;
  frequentQueries : gmap string Z;
}.

Record SessionState := {
  lastIntent : option QueryIntent.t;
  lastEntities : option (list Entity.t);
  pendingAction : option string;
}.

Record ConversationContext := {
  focusedNodes : list string;
  focusedCategory : option string;
  queryHistory : list HistoryEntry.t;
  preferences : Preferences;
  sessionState : SessionState;
}.

Definition maxHistorySize : nat := 10.
Definition maxRecentlyViewed : nat := 20.

Definition initializeContext : ConversationContext :=
  {| focusedNodes := [];
     focusedCategory := None;
     queryHistory := [];
     preferences := {| favoriteKPIs := []; recentlyViewed := [];
                       frequentQueries := ∅ |};
     sessionState := {| lastIntent := None; lastEntities := None;
                        pendingAction := None |} |}.

(** [Array.prototype.indexOf]: the first index that holds [x], or -1. *)
Fixpoint indexOf (x : string) (l : list string) : Z :=
  match l with
  | [] => -1
  | y :: l' =>
    if decide (y = x) then 0
    else let index := indexOf x l' in
         if (index >? -1)%Z then (index + 1)%Z else (-1)%Z
  end.

(** [const index = a.indexOf(x); if (index > -1) a.splice(index, 1)]. *)
Definition spliceOut (x : string) (l : list string) : list string :=
  let index := indexOf x l in
  if (index >? -1)%Z then delete (Z.to_nat index) l else l.

Definition recordQuery (now : Z) (query : string) (parsed : ParsedQuery.t)
    (resultNodes : option (list string)) (this : ConversationContext)
    : ConversationContext :=
  let history :=
    queryHistory this
    ++ [ {| HistoryEntry.query := query; HistoryEntry.parsed := parsed;
            HistoryEntry.timestamp := now;
            HistoryEntry.resultNodes := resultNodes |} ] in
  let history :=
    if maxHistorySize <? length history then tail history else history in
  let count := default 0%Z (frequentQueries (preferences this) !! query) in
  {| focusedNodes := focusedNodes this;
     focusedCategory := focusedCategory this;
     queryHistory := history;
     preferences :=
       {| favoriteKPIs := favoriteKPIs (preferences this);
          recentlyViewed := recentlyViewed (preferences this);
          frequentQueries :=
            <[query := (count + 1)%Z]> (frequentQueries (preferences this)) |};
     sessionState :=
       {| lastIntent := Some (ParsedQuery.intent parsed);
          lastEntities := Some (ParsedQuery.entities parsed);
          pendingAction := pendingAction (sessionState this) |} |}.

Definition updateFocus (nodeIds : list string) (category : option string)
    (this : ConversationContext) : ConversationContext :=
  let viewed :=
    foldl (λ viewed id, id :: spliceOut id viewed)
          (recentlyViewed (preferences this)) nodeIds in
  let viewed :=
    if maxRecentlyViewed <? length viewed
    then take maxRecentlyViewed viewed else viewed in
  {| focusedNodes := nodeIds;
     focusedCategory := category;
     queryHistory := queryHistory this;
     preferences :=
       {| favoriteKPIs := favoriteKPIs (preferences this);
          recentlyViewed := viewed;
          frequentQueries := frequentQueries (preferences this) |};
     sessionState := sessionState this |}.

Definition getLastQuery (this : ConversationContext) : option HistoryEntry.t :=
  last (queryHistory this).

Definition withFavorites (favorites : list string) (this : ConversationContext)
    : ConversationContext :=
  {| focusedNodes := focusedNodes this;
     focusedCategory := focusedCategory this;
     queryHistory := queryHistory this;
     preferences :=
       {| favoriteKPIs := favorites;
          recentlyViewed := recentlyViewed (preferences this);
          frequentQueries := frequentQueries (preferences this) |};
     sessionState := sessionState this |}.

Definition addFavorite (nodeId : string) (this : ConversationContext)
    : ConversationContext :=
  if bool_decide (nodeId ∈ favoriteKPIs (preferences this)) then this
  else withFavorites (favoriteKPIs (preferences this) ++ [nodeId]) this.

Definition removeFavorite (nodeId : string) (this : ConversationContext)
    : ConversationContext :=
  withFavorites (spliceOut nodeId (favoriteKPIs (preferences this))) this.

Definition getFavorites (this : ConversationContext) : list string :=
  favoriteKPIs (preferences this).

(** [limit] defaults to 10 when the argument is left out. *)
Definition getRecentlyViewed (limit : option nat) (this : ConversationContext)
    : list string :=
  take (default 10 limit) (recentlyViewed (preferences this)).

Definition clearContext (this : ConversationContext) : ConversationContext :=
  initializeContext.

(** The words that mark a reference to earlier turns. *)
Definition referenceWords : list string :=
  ["它"; "这个"; "这些"; "那个"; "那些"; "上一个"; "刚才"; "之前"].
Definition reReference : regex :=
  oneOf "它" ["这个"; "这些"; "那个"; "那些"; "上一个"; "刚才"; "之前"].

(** [ids.forEach(nodeId => { if (!resolvedEntities.some(e => e.value ===
    nodeId)) resolvedEntities.push({type: 'node_id', value: nodeId, raw}) })]:
    the pushed entity has no confidence.  Its [raw] note, which no code
    reads, is not part of [Entity.t]. *)
Definition pushReferences (ids : list string) (resolvedEntities : list Entity.t)
    : list Entity.t :=
  foldl (λ resolvedEntities nodeId,
           if existsb (λ e, String.eqb (Entity.value e) nodeId) resolvedEntities
           then resolvedEntities
           else resolvedEntities
                ++ [ {| Entity.type := EntityType.node_id;
                        Entity.value := nodeId;
                        Entity.confidence := None |} ])
        resolvedEntities ids.

Definition resolveReferences (this : ConversationContext) (query : string)
    (parsed : ParsedQuery.t) : ParsedQuery.t :=
  let resolvedEntities := ParsedQuery.entities parsed in
  let hasReference := test false reReference query in
  let resolvedEntities :=
    if hasReference then
      let resolvedEntities :=
        match getLastQuery this with
        | Some lastQuery =>
          match HistoryEntry.resultNodes lastQuery with
          | Some resultNodes =>
            if 0 <? length resultNodes
            then pushReferences resultNodes resolvedEntities
            else resolvedEntities
          | None => resolvedEntities
          end
        | None => resolvedEntities
        end in
      if 0 <? length (focusedNodes this)
      then pushReferences (focusedNodes this) resolvedEntities
      else resolvedEntities
    else resolvedEntities in
  {| ParsedQuery.rawQuery := query;
     ParsedQuery.intent := ParsedQuery.intent parsed;
     ParsedQuery.entities := resolvedEntities;
     ParsedQuery.confidence := ParsedQuery.confidence parsed |}.

(** A call of one of the manager's state-changing methods, and the context
    a fresh manager holds after a sequence of calls. *)
Inductive Call :=
  | callRecordQuery (now : Z) (query : string) (parsed : ParsedQuery.t)
                    (resultNodes : option (list string))
  | callUpdateFocus (nodeIds : list string) (category : option string)
  | callAddFavorite (nodeId : string)
  | callRemoveFavorite (nodeId : string)
  | callClearContext.

Definition call (this : ConversationContext) (c : Call) : ConversationContext :=
  match c with
  | callRecordQuery now query parsed resultNodes =>
    recordQuery now query parsed resultNodes this
  | callUpdateFocus nodeIds category => updateFocus nodeIds category this
  | callAddFavorite nodeId => addFavorite nodeId this
  | callRemoveFavorite nodeId => removeFavorite nodeId this
  | callClearContext => clearContext this
  end.

Definition session (calls : list Call) : ConversationContext :=
  foldl call initializeContext calls.


(** * Properties *)

(** ** forEach *)

Lemma forEach_ext {A St} (f g : A → St → option St) l st :
  (∀ a s, a ∈ l → f a s = g a s) → forEach f l st = forEach g l st.
Proof.
  revert st. induction l as [|a l IH]; intros st Hfg; simpl; [done|].
  rewrite Hfg by left. destruct (g a st); [|done].
  apply IH. intros; apply Hfg. by right.
Qed.

Lemma forEach_one {A St} (f : A → St → option St) a st :
  forEach f [a] st = f a st.
Proof. simpl. by destruct (f a st). Qed.

Lemma forEach_two {A St} (f : A → St → option St) a b st :
  forEach f [a; b] st = f a st ≫= f b.
Proof. simpl. destruct (f a st); simpl; [|done]. by destruct (f b _). Qed.

Lemma forEach_app {A St} (f : A → St → option St) l1 l2 st :
  forEach f (l1 ++ l2) st = forEach f l1 st ≫= forEach f l2.
Proof.
  revert st. induction l1 as [|a l1 IH]; intros st; simpl; [done|].
  destruct (f a st); simpl; [apply IH|done].
Qed.

(** Loop invariant rule: [I pre st] holds after the elements [pre] were
    processed. *)
Lemma forEach_inv {A St} (f : A → St → option St) (I : list A → St → Prop)
    l st st' :
  forEach f l st = Some st' →
  I [] st →
  (∀ pre a s s', a ∈ l → I pre s → f a s = Some s' → I (pre ++ [a]) s') →
  I l st'.
Proof.
  intros Hrun H0 Hstep.
  assert (∀ pre, I pre st → (∀ pre a s s', a ∈ l → I pre s → f a s = Some s' → I (pre ++ [a]) s') → I (pre ++ l) st') as Hgen.
  { clear H0 Hstep. revert st Hrun.
    induction l as [|a l IH]; intros st Hrun pre Hpre Hstep; simpl in Hrun.
    - simplify_eq. by rewrite app_nil_r.
    - destruct (f a st) as [s1|] eqn:Hf; [|done].
      replace (pre ++ a :: l) with ((pre ++ [a]) ++ l) by (by rewrite <- app_assoc).
      eapply IH; [done| |].
      + eapply Hstep; [left|done|done].
      + intros. eapply Hstep; [by right|done|done]. }
  by apply (Hgen []).
Qed.

Lemma forEach_total {A St} (f : A → St → option St) (P : St → Prop) l st :
  P st →
  (∀ a s, a ∈ l → P s → ∃ s', f a s = Some s' ∧ P s') →
  ∃ st', forEach f l st = Some st' ∧ P st'.
Proof.
  revert st. induction l as [|a l IH]; intros st HP Hstep; simpl; [eauto|].
  destruct (Hstep a st) as (s1 & -> & HP1); [left|done|].
  apply IH; [done|]. intros; apply Hstep; [by right|done].
Qed.

(** ** The walker: what it computes, and that the budget suffices *)

Section walk_facts.
Context (guarded : bool) (dirs : list Dir) (es : list Edge.t).

Local Abbreviation step := (step dirs es).
Local Abbreviation walk := (walk guarded dirs es).
Local Abbreviation closed_off := (closed_off dirs es).

(** What a completed call has done.  [G] holds the nodes whose loops are
    still running further up the call stack: every other visited node has
    all its neighbours visited, before the call and after it; the call
    visits [n], only adds nodes that [n] reaches, and leaves
    [relatedNodes] equal to [visited]. *)
Lemma walk_spec fuel : ∀ n st st' G,
  walk fuel n st = Some st' →
  visited st ⊆ relatedNodes st →
  relatedNodes st ⊆ {[n]} ∪ visited st →
  closed_off G (visited st) →
  visited st ⊆ visited st' ∧ n ∈ visited st' ∧
  relatedNodes st' = visited st' ∧
  closed_off G (visited st') ∧
  (∀ y, y ∈ visited st' → y ∈ visited st ∨ rtc step n y).
Proof.
  induction fuel as [|fuel IH]; intros n st st' G Hrun Hlo Hhi Hcl; [done|].
  simpl in Hrun. case_bool_decide as Hn.
  { simplify_eq. split_and!; [done|done|set_solver|done|auto]. }
  set (J := λ s : TraceState,
    {[n]} ∪ visited st ⊆ visited s ∧ relatedNodes s = visited s ∧
    closed_off (G ∪ {[n]}) (visited s) ∧
    (∀ y, y ∈ visited s → y ∈ visited st ∨ rtc step n y)).
  assert (J (visit n st)) as HJ0.
  { unfold J; simpl. split_and!; [done|set_solver| |].
    - intros x y Hx HxG Hxy. apply elem_of_union_r. apply (Hcl x y); [set_solver|set_solver|done].
    - intros y [->%elem_of_singleton|Hy]%elem_of_union; [right; done|by left]. }
  (* one edge *)
  assert (∀ d e s s', d ∈ dirs → e ∈ es → J s →
    hop guarded (walk fuel) d n e s = Some s' →
    J s' ∧ visited s ⊆ visited s' ∧ (near d e = n → far d e ∈ visited s')) as Hhop.
  { intros d e s s' Hd He (Hs1 & Hs2 & Hs3 & Hs4) Hh. unfold hop in Hh.
    destruct (bool_decide (near d e = n)) eqn:Hnear; simpl in Hh; cycle 1.
    { simplify_eq. split_and!; [done|done|]. intros ?. by apply bool_decide_eq_false in Hnear. }
    apply bool_decide_eq_true in Hnear.
    destruct (negb guarded || negb (bool_decide (far d e ∈ visited s))) eqn:Hg; cycle 1.
    { simplify_eq. split_and!; [done|done|]. intros _.
      apply orb_false_iff in Hg as [_ Hg]. apply negb_false_iff in Hg.
      by apply bool_decide_eq_true in Hg. }
    apply (IH _ _ _ (G ∪ {[n]})) in Hh as (Hm & Hfar & Heq & Hc & Hr); simpl in *;
      [|set_solver|set_solver|done].
    split_and!; [split_and!| |]; [set_solver|done|done| |done|done].
    intros y Hy. destruct (Hr y Hy) as [Hy'|Hy']; [by apply Hs4|].
    right. eapply rtc_l; [|done]. exists d, e. done. }
  (* one direction *)
  assert (∀ d s s', d ∈ dirs → J s →
    forEach (hop guarded (walk fuel) d n) es s = Some s' →
    J s' ∧ visited s ⊆ visited s' ∧
    (∀ e, e ∈ es → near d e = n → far d e ∈ visited s')) as Hsweep.
  { intros d s s' Hd HJ Hs.
    apply (forEach_inv _ (λ pre s', J s' ∧ visited s ⊆ visited s' ∧
      ∀ e, e ∈ pre → near d e = n → far d e ∈ visited s')) in Hs; [done| |].
    - split_and!; [done|done|]. intros e He. by apply elem_of_nil in He.
    - intros pre e s1 s2 He (HJ1 & Hm1 & Hp1) Hh.
      destruct (Hhop d e s1 s2 Hd He HJ1 Hh) as (HJ2 & Hm2 & Hf2).
      split_and!; [done|set_solver|].
      intros e' [He'| ->%list_elem_of_singleton]%elem_of_app Hne; [|by apply Hf2].
      apply Hm2. by apply Hp1. }
  apply (forEach_inv _ (λ pre s', J s' ∧
    ∀ d e, d ∈ pre → e ∈ es → near d e = n → far d e ∈ visited s')) in Hrun.
  - destruct Hrun as ((H1 & H2 & H3 & H4) & H5).
    split_and!; [set_solver|set_solver|done| |done].
    intros x y Hx HxG Hxy. destruct (decide (x = n)) as [->|Hne].
    + destruct Hxy as (d & e & Hd & He & Hne & <-). by eapply H5.
    + apply (H3 x y); [done|set_solver|done].
  - split; [done|]. intros d e Hd. by apply elem_of_nil in Hd.
  - intros pre d s1 s2 Hd (HJ1 & Hp1) Hs.
    destruct (Hsweep d s1 s2 Hd HJ1 Hs) as (HJ2 & Hm2 & Hf2).
    split; [done|].
    intros d' e [Hd'| ->%list_elem_of_singleton]%elem_of_app He Hne; [|by apply Hf2].
    apply Hm2. by eapply Hp1.
Qed.

(** A call returns when the budget exceeds the number of identifiers of
    [U] not visited yet: every call that passes the [visited] test marks
    one more of them. *)
Lemma walk_total (U : gset string) fuel : ∀ n st,
  (∀ d e, e ∈ es → far d e ∈ U) →
  n ∈ U → size (U ∖ visited st) < fuel →
  ∃ st', walk fuel n st = Some st' ∧ visited st ⊆ visited st'.
Proof.
  induction fuel as [|fuel IH]; intros n st HU Hn Hsz; [lia|].
  simpl. case_bool_decide as Hv; [by eauto|].
  assert (size (U ∖ visited (visit n st)) < fuel) as Hsz1.
  { simpl. assert (U ∖ ({[n]} ∪ visited st) ⊂ U ∖ visited st) as Hsub by set_solver.
    apply subset_size in Hsub. lia. }
  destruct (forEach_total
    (λ d, forEach (hop guarded (walk fuel) d n) es)
    (λ s, visited (visit n st) ⊆ visited s) dirs (visit n st)) as (st' & Hrun & Hm);
    [done| |].
  - intros d s _ Hs.
    destruct (forEach_total (hop guarded (walk fuel) d n)
      (λ s, visited (visit n st) ⊆ visited s) es s) as (s' & Hrun & Hm); [done| |by eauto].
    intros e s1 He Hs1. unfold hop.
    destruct (_ && _); [|by eauto].
    destruct (IH (far d e) (relate (Edge.id e) (far d e) s1)) as (s2 & Hs2 & Hm2);
      [done|by apply HU| |].
    + simpl. assert (size (U ∖ visited s1) ≤ size (U ∖ visited (visit n st))).
      { apply subseteq_size. set_solver. }
      lia.
    + exists s2. split; [done|]. simpl in Hm2. set_solver.
  - exists st'. split; [done|]. simpl in Hm. set_solver.
Qed.
End walk_facts.

Lemma traverse_walk this fuel : ∀ n st,
  traverse this fuel n st = walk true [Up; Down] (edges this) fuel n st.
Proof.
  induction fuel as [|fuel IH]; intros n st; simpl; [done|].
  case_bool_decide; [done|].
  rewrite (forEach_ext _ (hop true (walk true [Up; Down] (edges this) fuel) Up n))
    by (intros e s' _; unfold hop; simpl; by rewrite IH).
  destruct (forEach _ _ _) as [s1|]; simpl; [|done].
  rewrite (forEach_ext _ (hop true (walk true [Up; Down] (edges this) fuel) Down n))
    by (intros e s' _; unfold hop; simpl; by rewrite IH).
  by destruct (forEach _ _ _).
Qed.

Lemma traverseUp_walk this fuel : ∀ n st,
  traverseUp this fuel n st = walk false [Up] (edges this) fuel n st.
Proof.
  induction fuel as [|fuel IH]; intros n st; simpl; [done|].
  case_bool_decide; [done|].
  rewrite (forEach_ext _ (hop false (walk false [Up] (edges this) fuel) Up n))
    by (intros e s' _; unfold hop; simpl; rewrite andb_true_r; by rewrite IH).
  by destruct (forEach _ _ _).
Qed.

Lemma traverseDown_walk this fuel : ∀ n st,
  traverseDown this fuel n st = walk false [Down] (edges this) fuel n st.
Proof.
  induction fuel as [|fuel IH]; intros n st; simpl; [done|].
  case_bool_decide; [done|].
  rewrite (forEach_ext _ (hop false (walk false [Down] (edges this) fuel) Down n))
    by (intros e s' _; unfold hop; simpl; rewrite andb_true_r; by rewrite IH).
  by destruct (forEach _ _ _).
Qed.

Lemma step_up this x y : step [Up] (edges this) x y ↔ upstream this x y.
Proof.
  split.
  - intros (d & e & ->%list_elem_of_singleton & He & Hn & Hf). by exists e.
  - intros (e & He & Hn & Hf). exists Up, e. split_and!; [by left|done..].
Qed.

Lemma step_down this x y : step [Down] (edges this) x y ↔ downstream this x y.
Proof.
  split.
  - intros (d & e & ->%list_elem_of_singleton & He & Hn & Hf). by exists e.
  - intros (e & He & Hn & Hf). exists Down, e. split_and!; [by left|done..].
Qed.

Lemma step_both this x y : step [Up; Down] (edges this) x y ↔ linked this x y.
Proof.
  split.
  - intros (d & e & Hd & He & Hn & Hf). destruct d; [left|right]; by exists e.
  - intros [(e & He & Hn & Hf)|(e & He & Hn & Hf)].
    + exists Up, e. split_and!; [by left|done..].
    + exists Down, e. split_and!; [right; by left|done..].
Qed.

Lemma rtc_iff {A} (R1 R2 : relation A) x y :
  (∀ a b, R1 a b ↔ R2 a b) → rtc R1 x y ↔ rtc R2 x y.
Proof. intros H. split; apply rtc_subrel; intros a b; by apply H. Qed.

Lemma size_list_to_set_le (l : list string) :
  size (list_to_set l : gset string) ≤ length l.
Proof.
  induction l as [|a l IH].
  { rewrite list_to_set_nil, size_empty. done. }
  rewrite list_to_set_cons, size_union_alt, size_singleton. cbn [length].
  assert (size (list_to_set l ∖ {[a]} : gset string) ≤ size (list_to_set l : gset string)).
  { apply subseteq_size. set_solver. }
  lia.
Qed.

Lemma universe_far this starts d e :
  e ∈ edges this → far d e ∈ universe this starts.
Proof.
  intros He. unfold universe. destruct d; simpl.
  - apply elem_of_union_l, elem_of_union_l, elem_of_list_to_set. by apply list_elem_of_fmap_2.
  - apply elem_of_union_l, elem_of_union_r, elem_of_list_to_set. by apply list_elem_of_fmap_2.
Qed.

Lemma universe_budget this starts V :
  size (universe this starts ∖ V) < budget this (length starts).
Proof.
  assert (size (universe this starts ∖ V) ≤ size (universe this starts)) as H1
    by (apply subseteq_size; set_solver).
  assert (size (universe this starts) ≤ 2 * length (edges this) + length starts) as H2.
  { unfold universe.
    pose proof (size_list_to_set_le (Edge.source <$> edges this)) as Ha.
    pose proof (size_list_to_set_le (Edge.target <$> edges this)) as Hb.
    pose proof (size_list_to_set_le starts) as Hc.
    rewrite length_fmap in Ha, Hb.
    rewrite !size_union_alt.
    assert (size (list_to_set (Edge.target <$> edges this) ∖ list_to_set (Edge.source <$> edges this) : gset string)
            ≤ size (list_to_set (Edge.target <$> edges this) : gset string)) by (apply subseteq_size; set_solver).
    assert (size (list_to_set starts ∖ (list_to_set (Edge.source <$> edges this) ∪ list_to_set (Edge.target <$> edges this)) : gset string)
            ≤ size (list_to_set starts : gset string)) by (apply subseteq_size; set_solver).
    lia. }
  unfold budget. lia.
Qed.

(** One-direction traversals: totality and the reachability they compute. *)
Lemma walk_from_initial guarded d this n :
  ∃ st, walk guarded [d] (edges this) (budget this 1) n initial = Some st ∧
    relatedNodes st = visited st ∧
    ∀ y, y ∈ visited st ↔ rtc (step [d] (edges this)) n y.
Proof.
  destruct (walk_total guarded [d] (edges this) (universe this [n])
              (budget this 1) n initial) as (st & Hrun & _).
  - intros d' e He. by apply universe_far.
  - unfold universe. set_solver.
  - apply (universe_budget this [n]).
  - exists st. split; [done|].
    apply (walk_spec _ _ _ _ _ _ _ ∅) in Hrun as (_ & Hn & Heq & Hcl & Hr);
      [|done|set_solver|by intros ?? ?%not_elem_of_empty].
    split; [done|]. intros y. split.
    + intros Hy. destruct (Hr y Hy) as [?%not_elem_of_empty|?]; done.
    + revert y. apply rtc_ind_r; [done|]. intros y z _ Hyz IH.
      apply (Hcl y z); [done|set_solver|done].
Qed.

Lemma present_existsb this x :
  existsb (λ n, bool_decide (Node.id n = x)) (nodes this) = true ↔ present this x.
Proof.
  rewrite existsb_exists. unfold present.
  split; intros (n & Hn & Hx); exists n.
  - split; [by apply list_elem_of_In|by apply bool_decide_eq_true in Hx].
  - split; [by apply list_elem_of_In|by apply bool_decide_eq_true].
Qed.

Lemma traceImpact_spec this n :
  ∃ r, traceImpact this n = Some r ∧
    ∀ y, y ∈ ChainResult.nodes r ↔ rtc (upstream this) n y.
Proof.
  destruct (walk_from_initial false Up this n) as (st & Hrun & Heq & Hreach).
  exists (result st). unfold traceImpact. rewrite traverseUp_walk, Hrun.
  split; [done|]. intros y. simpl. rewrite Heq, Hreach.
  apply rtc_iff, step_up.
Qed.

Lemma traceDependencies_spec this n :
  ∃ r, traceDependencies this n = Some r ∧
    ∀ y, y ∈ ChainResult.nodes r ↔ rtc (downstream this) n y.
Proof.
  destruct (walk_from_initial false Down this n) as (st & Hrun & Heq & Hreach).
  exists (result st). unfold traceDependencies. rewrite traverseDown_walk, Hrun.
  split; [done|]. intros y. simpl. rewrite Heq, Hreach.
  apply rtc_iff, step_down.
Qed.

Lemma traceChain_spec this S :
  ∃ r, traceChain this S = Some r ∧
    ∀ y, y ∈ ChainResult.nodes r ↔
         ∃ x, x ∈ S ∧ present this x ∧ rtc (linked this) x y.
Proof.
  unfold traceChain.
  set (f := λ nodeId st,
    if existsb (λ n, bool_decide (Node.id n = nodeId)) (nodes this)
    then traverse this (budget this (length S)) nodeId st else Some st).
  destruct (forEach_total f (λ _, True) S initial) as (st & Hrun & _); [done| |].
  { intros x s Hx _. unfold f. destruct (existsb _ _); [|by eauto].
    rewrite traverse_walk.
    destruct (walk_total true [Up; Down] (edges this) (universe this S)
                (budget this (length S)) x s) as (s' & -> & _); [..|by eauto].
    - intros d e He. by apply universe_far.
    - unfold universe. set_solver.
    - apply universe_budget. }
  exists (result st). rewrite Hrun. split; [done|]. simpl.
  apply (forEach_inv f (λ pre s,
    relatedNodes s = visited s ∧
    closed_off [Up; Down] (edges this) ∅ (visited s) ∧
    (∀ x, x ∈ pre → present this x → x ∈ visited s) ∧
    (∀ y, y ∈ visited s →
       ∃ x, x ∈ pre ∧ present this x ∧ rtc (step [Up; Down] (edges this)) x y)))
    in Hrun.
  - destruct Hrun as (Heq & Hcl & Hin & Hr). intros y. rewrite Heq. split.
    + intros (x & Hx & Hp & Hxy)%Hr. exists x. split_and!; [done..|].
      revert Hxy. apply rtc_subrel. intros a b. apply step_both.
    + intros (x & Hx & Hp & Hxy).
      assert (rtc (step [Up; Down] (edges this)) x y) as Hxy'.
      { revert Hxy. apply rtc_subrel. intros a b. apply step_both. }
      clear Hxy. revert y Hxy'. apply rtc_ind_r; [by apply Hin|].
      intros y z _ Hyz IH. apply (Hcl y z); [done|set_solver|done].
  - split_and!; [done|by intros ?? ?%not_elem_of_empty|by intros ? ?%elem_of_nil|].
    by intros ? ?%not_elem_of_empty.
  - intros pre x s s' Hx (Heq & Hcl & Hin & Hr) Hf. unfold f in Hf.
    destruct (existsb _ _) eqn:Hex.
    + apply present_existsb in Hex. rewrite traverse_walk in Hf.
      apply (walk_spec _ _ _ _ _ _ _ ∅) in Hf as (Hm & Hn & Heq' & Hcl' & Hr');
        [|set_solver|set_solver|done].
      split_and!; [done|done| |].
      * intros x' [Hx'| ->%list_elem_of_singleton]%elem_of_app Hp; [|done].
        by apply Hm, Hin.
      * intros y Hy. destruct (Hr' y Hy) as [Hy'|Hy'].
        -- destruct (Hr y Hy') as (x' & Hx' & Hp' & Hxy). exists x'.
           split_and!; [apply elem_of_app; by left|done|done].
        -- exists x. split_and!; [apply elem_of_app; right; by left|done|done].
    + simplify_eq. split_and!; [done|done| |].
      * intros x' [Hx'| ->%list_elem_of_singleton]%elem_of_app Hp; [by apply Hin|].
        apply present_existsb in Hp. congruence.
      * intros y Hy. destruct (Hr y Hy) as (x' & Hx' & Hp' & Hxy). exists x'.
        split_and!; [apply elem_of_app; by left|done|done].
Qed.

(** ** Claims about the traversals *)

Lemma traceChain_stable this S r S' :
  traceChain this S = Some r →
  (∀ x, x ∈ S' ↔ x ∈ ChainResult.nodes r) →
  ∃ r', traceChain this S' = Some r' ∧ ChainResult.nodes r' = ChainResult.nodes r.
Proof.
  intros Hr HS'.
  destruct (traceChain_spec this S) as (r0 & Hr0 & Hspec). simplify_eq.
  destruct (traceChain_spec this S') as (r' & Hr' & Hspec').
  exists r'. split; [done|]. apply set_eq. intros y.
  rewrite Hspec', Hspec. split.
  - intros (x & Hx & Hp & Hxy). apply HS', Hspec in Hx as (x0 & Hx0 & Hp0 & Hx0x).
    exists x0. split_and!; [done..|]. by etrans.
  - intros (x & Hx & Hp & Hxy). exists x. split_and!; [|done..].
    apply HS', Hspec. by exists x.
Qed.

(** C1 (as amended): for every list of start identifiers S,
    traceChain(S).nodes is the set of identifiers reachable, following
    edges in either direction, from the members of S that are present in
    the node snapshot; and it is a fixed point: traceChain on the returned
    node set returns the same node set. *)
Theorem traceChain_closure this S :
  ∃ r, traceChain this S = Some r ∧
    (∀ y, y ∈ ChainResult.nodes r ↔
          ∃ x, x ∈ S ∧ present this x ∧ rtc (linked this) x y) ∧
    ∃ r', traceChain this (elements (ChainResult.nodes r)) = Some r' ∧
          ChainResult.nodes r' = ChainResult.nodes r.
Proof.
  destruct (traceChain_spec this S) as (r & Hr & Hspec).
  exists r. split_and!; [done|done|].
  apply (traceChain_stable this S); [done|]. intros x. apply elem_of_elements.
Qed.

(** C1, counterexample: with the edge A→B and no node object for A,
    traceChain(["A"]) is empty, although B is reachable from A. *)
Lemma traceChain_skips_absent_start :
  ¬ (∀ r, traceChain dangling ["A"] = Some r →
       ∀ y, y ∈ ChainResult.nodes r ↔
            ∃ x, x ∈ ["A"] ∧ rtc (linked dangling) x y).
Proof.
  intros H.
  assert (traceChain dangling ["A"]
          = Some {| ChainResult.nodes := ∅; ChainResult.edges := ∅ |}) as Hrun
    by (vm_compute; reflexivity).
  apply H with (y := "B") in Hrun. simpl in Hrun. destruct Hrun as [_ Hback].
  apply (not_elem_of_empty (C := gset string) "B"), Hback.
  exists "A". split; [by left|].
  apply rtc_once. right. exists (mkEdge "e1" "A" "B"). split_and!; [by left|done..].
Qed.

Lemma rtc_within {A} (R : relation A) (P : A → Prop) x y :
  P x → (∀ a b, P a → R a b → P b) → rtc R x y → P y.
Proof. intros Hx Hstep Hxy. induction Hxy; eauto. Qed.

(** C3: on a graph of two nodes X and Y with edges X→Y and Y→X,
    traceChain([X]) returns with node set exactly {X, Y}; and on every
    graph, cyclic or not, traceChain, traceImpact and traceDependencies
    return a result. *)
Theorem traversals_terminate this X Y
    (HX : present this X)
    (Hxy : downstream this X Y)
    (Hyx : downstream this Y X)
    (Htwo : ∀ e, e ∈ edges this →
              Edge.source e ∈ ({[X; Y]} : gset string)
              ∧ Edge.target e ∈ ({[X; Y]} : gset string)) :
  (∃ r, traceChain this [X] = Some r ∧ ChainResult.nodes r = {[X; Y]}) ∧
  (∀ g S, is_Some (traceChain g S)) ∧
  (∀ g n, is_Some (traceImpact g n)) ∧
  (∀ g n, is_Some (traceDependencies g n)).
Proof.
  split_and!.
  - destruct (traceChain_spec this [X]) as (r & Hr & Hspec).
    exists r. split; [done|]. apply set_eq. intros y. rewrite Hspec. split.
    + intros (x & ->%list_elem_of_singleton & _ & Hreach).
      revert Hreach.
      apply (rtc_within _ (λ z, z ∈ ({[X; Y]} : gset string))); [set_solver|].
      intros a b _ [(e & He & _ & <-)|(e & He & _ & <-)]; by apply Htwo.
    + intros [->%elem_of_singleton| ->%elem_of_singleton]%elem_of_union.
      * exists X. split_and!; [by left|done|done].
      * exists X. split_and!; [by left|done|]. apply rtc_once. by right.
  - intros g S. destruct (traceChain_spec g S) as (r & -> & _). done.
  - intros g n. destruct (traceImpact_spec g n) as (r & -> & _). done.
  - intros g n. destruct (traceDependencies_spec g n) as (r & -> & _). done.
Qed.

Lemma traversals_terminate_witness :
  ∃ r, traceChain cycle ["X"] = Some r ∧ ChainResult.nodes r = {["X"; "Y"]}.
Proof.
  apply (traversals_terminate cycle "X" "Y").
  - exists (mkNode "X" "kpi"). split; [by left|reflexivity].
  - exists (mkEdge "e1" "X" "Y"). split_and!; [by left|reflexivity..].
  - exists (mkEdge "e2" "Y" "X"). split_and!; [right; by left|reflexivity..].
  - intros e He. simpl in He.
    apply elem_of_cons in He as [->|He]; [simpl; set_solver|].
    apply list_elem_of_singleton in He as ->. simpl. set_solver.
Defined.

Lemma downstream_arcs this x y : downstream this x y ↔ (x, y) ∈ arcs this.
Proof.
  unfold downstream, arcs. rewrite list_elem_of_fmap. split.
  - intros (e & He & <- & <-). by exists e.
  - intros (e & [= -> ->] & He). by exists e.
Qed.

Lemma upstream_arcs this x y : upstream this x y ↔ (y, x) ∈ arcs this.
Proof.
  unfold upstream, arcs. rewrite list_elem_of_fmap. split.
  - intros (e & He & <- & <-). by exists e.
  - intros (e & [= -> ->] & He). by exists e.
Qed.

(** C6: when the edges are A→B and B→C, traceDependencies(B).nodes is
    {B, C} and leaves A out, and traceImpact(B).nodes is {A, B} and leaves
    C out; on every graph traceImpact(n).nodes is what n reaches along
    incoming edges only, and traceDependencies(n).nodes what it reaches
    along outgoing edges only. *)
Theorem directionality this A B C
    (Harcs : arcs this = [(A, B); (B, C)])
    (HAB : A ≠ B) (HAC : A ≠ C) (HBC : B ≠ C) :
  (∃ r, traceDependencies this B = Some r ∧
        ChainResult.nodes r = {[B; C]} ∧ A ∉ ChainResult.nodes r) ∧
  (∃ r, traceImpact this B = Some r ∧
        ChainResult.nodes r = {[A; B]} ∧ C ∉ ChainResult.nodes r) ∧
  (∀ g n, ∃ r, traceImpact g n = Some r ∧
        ∀ y, y ∈ ChainResult.nodes r ↔ rtc (upstream g) n y) ∧
  (∀ g n, ∃ r, traceDependencies g n = Some r ∧
        ∀ y, y ∈ ChainResult.nodes r ↔ rtc (downstream g) n y).
Proof.
  split_and!.
  - destruct (traceDependencies_spec this B) as (r & Hr & Hspec).
    assert (ChainResult.nodes r = {[B; C]}) as Heq.
    { apply set_eq. intros y. rewrite Hspec. split.
      - apply (rtc_within _ (λ z, z ∈ ({[B; C]} : gset string))); [set_solver|].
        intros a b _ Hab%downstream_arcs. rewrite Harcs in Hab. set_solver.
      - intros [->%elem_of_singleton| ->%elem_of_singleton]%elem_of_union; [done|].
        apply rtc_once, downstream_arcs. rewrite Harcs. set_solver. }
    exists r. split_and!; [done|done|]. rewrite Heq. set_solver.
  - destruct (traceImpact_spec this B) as (r & Hr & Hspec).
    assert (ChainResult.nodes r = {[A; B]}) as Heq.
    { apply set_eq. intros y. rewrite Hspec. split.
      - apply (rtc_within _ (λ z, z ∈ ({[A; B]} : gset string))); [set_solver|].
        intros a b _ Hab%upstream_arcs. rewrite Harcs in Hab. set_solver.
      - intros [->%elem_of_singleton| ->%elem_of_singleton]%elem_of_union; [|done].
        apply rtc_once, upstream_arcs. rewrite Harcs. set_solver. }
    exists r. split_and!; [done|done|]. rewrite Heq. set_solver.
  - apply traceImpact_spec.
  - apply traceDependencies_spec.
Qed.

Lemma directionality_witness :
  (∃ r, traceDependencies chain "B" = Some r ∧
        ChainResult.nodes r = {["B"; "C"]} ∧ "A" ∉ ChainResult.nodes r) ∧
  (∃ r, traceImpact chain "B" = Some r ∧
        ChainResult.nodes r = {["A"; "B"]} ∧ "C" ∉ ChainResult.nodes r).
Proof.
  destruct (directionality chain "A" "B" "C") as (H1 & H2 & _);
    [reflexivity|done|done|done|].
  exact (conj H1 H2).
Defined.

Lemma forEach_skip {A St} (f : A → St → option St) l st :
  (∀ a, a ∈ l → f a st = Some st) → forEach f l st = Some st.
Proof.
  induction l as [|a l IH]; intros Hf; simpl; [done|].
  rewrite Hf by left. apply IH. intros; apply Hf. by right.
Qed.

Lemma traceChain_absent this x :
  ¬ present this x →
  traceChain this [x]
  = Some {| ChainResult.nodes := ∅; ChainResult.edges := ∅ |}.
Proof.
  intros Habs. unfold traceChain. simpl.
  destruct (existsb _ _) eqn:Hex; [|done].
  by apply present_existsb in Hex.
Qed.

Lemma traceImpact_isolated this x :
  (∀ y, ¬ upstream this x y) →
  traceImpact this x
  = Some {| ChainResult.nodes := {[x]}; ChainResult.edges := ∅ |}.
Proof.
  intros Hno. unfold traceImpact, budget. simpl.
  rewrite forEach_skip.
  - rewrite bool_decide_eq_false_2 by set_solver. simpl.
    unfold result, visit, initial; cbn [relatedNodes relatedEdges].
    by rewrite (right_id_L ∅ (∪)).
  - intros e He. case_bool_decide as Ht; [|done].
    destruct (Hno (Edge.source e)). by exists e.
Qed.

Lemma traceDependencies_isolated this x :
  (∀ y, ¬ downstream this x y) →
  traceDependencies this x
  = Some {| ChainResult.nodes := {[x]}; ChainResult.edges := ∅ |}.
Proof.
  intros Hno. unfold traceDependencies, budget. simpl.
  rewrite forEach_skip.
  - rewrite bool_decide_eq_false_2 by set_solver. simpl.
    unfold result, visit, initial; cbn [relatedNodes relatedEdges].
    by rewrite (right_id_L ∅ (∪)).
  - intros e He. case_bool_decide as Ht; [|done].
    destruct (Hno (Edge.target e)). by exists e.
Qed.

(** ** The edge sets of the traversals *)

Section walk_edges.
Context (guarded : bool) (dirs : list Dir) (es : list Edge.t).

Local Abbreviation walk := (walk guarded dirs es).

Local Abbreviation spans := (spans dirs es).
Local Abbreviation covered := (covered dirs es).

Lemma walk_edges_sound fuel : ∀ n st st',
  walk fuel n st = Some st' →
  visited st ⊆ visited st' ∧ relatedEdges st ⊆ relatedEdges st' ∧
  n ∈ visited st' ∧
  (∀ i, i ∈ relatedEdges st' → i ∈ relatedEdges st ∨ spans (visited st') i).
Proof.
  induction fuel as [|fuel IH]; intros n st st' Hrun; [done|].
  simpl in Hrun. case_bool_decide as Hn.
  { simplify_eq. split_and!; [done|done|done|by left]. }
  set (J := λ s : TraceState,
    {[n]} ∪ visited st ⊆ visited s ∧ relatedEdges st ⊆ relatedEdges s ∧
    (∀ i, i ∈ relatedEdges s → i ∈ relatedEdges st ∨ spans (visited s) i)).
  assert (∀ V V' i, V ⊆ V' → spans V i → spans V' i) as Hgrow.
  { intros V V' i HV (d & e & ? & ? & ? & ? & ?). exists d, e. set_solver. }
  assert (∀ d e s s', d ∈ dirs → e ∈ es → J s →
    hop guarded (walk fuel) d n e s = Some s' → J s') as Hhop.
  { intros d e s s' Hd He (Hs1 & Hs2 & Hs3) Hh. unfold hop in Hh.
    destruct (bool_decide (near d e = n)) eqn:Hnear; simpl in Hh;
      [|by simplify_eq].
    apply bool_decide_eq_true in Hnear.
    destruct (negb guarded || _); [|by simplify_eq].
    apply IH in Hh as (Hv & He' & Hfar & Hsound). simpl in *.
    split_and!; [set_solver|set_solver|].
    intros i Hi. destruct (Hsound i Hi) as [[->%elem_of_singleton|Hi']%elem_of_union|Hi'].
    - right. exists d, e. split_and!; [done..| |done]. rewrite Hnear. set_solver.
    - destruct (Hs3 i Hi') as [?|?]; [by left|right; by eapply Hgrow].
    - by right. }
  assert (J st') as (H1 & H2 & H3).
  { apply (forEach_inv _ (λ _ s, J s)) in Hrun; [done| |].
    - unfold J. simpl. split_and!; [done|done|by left].
    - intros _ d s1 s2 Hd HJ1 Hs.
      apply (forEach_inv _ (λ _ s, J s)) in Hs; [done|done|].
      intros _ e s3 s4 He HJ3 Hh. by eapply Hhop. }
  split_and!; [set_solver|done|set_solver|done].
Qed.

Lemma walk_edges_complete fuel : ∀ n st st' G,
  guarded = false →
  walk fuel n st = Some st' →
  covered G (visited st) (relatedEdges st) →
  covered G (visited st') (relatedEdges st').
Proof.
  intros n st st' G Hg. revert n st st' G.
  induction fuel as [|fuel IH]; intros n st st' G Hrun Hcov; [done|].
  simpl in Hrun. case_bool_decide as Hn; [by simplify_eq|].
  set (J := λ s : TraceState,
    {[n]} ∪ visited st ⊆ visited s ∧
    covered (G ∪ {[n]}) (visited s) (relatedEdges s)).
  assert (∀ d e s s', d ∈ dirs → e ∈ es → J s →
    hop guarded (walk fuel) d n e s = Some s' →
    J s' ∧ relatedEdges s ⊆ relatedEdges s'
    ∧ (near d e = n → Edge.id e ∈ relatedEdges s')) as Hhop.
  { intros d e s s' Hd He (Hs1 & Hs2) Hh. unfold hop in Hh.
    replace (negb guarded || negb (bool_decide (far d e ∈ visited s)))
      with true in Hh by (by rewrite Hg).
    destruct (bool_decide (near d e = n)) eqn:Hnear; simpl in Hh.
    - pose proof (walk_edges_sound _ _ _ _ Hh) as (Hv & He' & _ & _).
      apply (IH _ _ _ (G ∪ {[n]})) in Hh.
      + simpl in *. split_and!; [split; [set_solver|done]|set_solver|set_solver].
      + simpl. intros x d' e' Hx HxG Hd' He'' Hx'.
        apply elem_of_union_r. by eapply Hs2.
    - simplify_eq. split_and!; [done|done|].
      intros ?. by apply bool_decide_eq_false in Hnear. }
  assert (∀ d s s', d ∈ dirs → J s →
    forEach (hop guarded (walk fuel) d n) es s = Some s' →
    J s' ∧ relatedEdges s ⊆ relatedEdges s'
    ∧ (∀ e, e ∈ es → near d e = n → Edge.id e ∈ relatedEdges s')) as Hsweep.
  { intros d s s' Hd HJ Hs.
    apply (forEach_inv _ (λ pre s', J s' ∧ relatedEdges s ⊆ relatedEdges s' ∧
      ∀ e, e ∈ pre → near d e = n → Edge.id e ∈ relatedEdges s')) in Hs; [done| |].
    - split_and!; [done|done|]. intros e He. by apply elem_of_nil in He.
    - intros pre e s1 s2 He (HJ1 & Hm1 & Hp1) Hh.
      destruct (Hhop d e s1 s2 Hd He HJ1 Hh) as (HJ2 & Hm2 & Hf2).
      split_and!; [done|set_solver|].
      intros e' [He'| ->%list_elem_of_singleton]%elem_of_app Hne; [|by apply Hf2].
      apply Hm2. by apply Hp1. }
  apply (forEach_inv _ (λ pre s', J s' ∧
    ∀ d e, d ∈ pre → e ∈ es → near d e = n → Edge.id e ∈ relatedEdges s')) in Hrun.
  - destruct Hrun as ((H1 & H2) & H3).
    intros x d e Hx HxG Hd He Hnear. destruct (decide (x = n)) as [->|Hne].
    + by eapply H3.
    + apply (H2 x d e); [done|set_solver|done..].
  - split; [|intros d e Hd; by apply elem_of_nil in Hd].
    split; [done|]. simpl. intros x d e Hx HxG Hd He Hnear.
    apply (Hcov x d e); [set_solver|set_solver|done..].
  - intros pre d s1 s2 Hd (HJ1 & Hp1) Hs.
    destruct (Hsweep d s1 s2 Hd HJ1 Hs) as (HJ2 & Hm2 & Hf2).
    split; [done|].
    intros d' e [Hd'| ->%list_elem_of_singleton]%elem_of_app He Hne; [|by apply Hf2].
    apply Hm2. by eapply Hp1.
Qed.

(** With the [visited] test in the loop, every recorded edge pays for one
    newly visited node. *)
Lemma walk_forest fuel : ∀ n st st',
  guarded = true →
  walk fuel n st = Some st' →
  size (relatedEdges st') + size (visited st)
    + (if decide (n ∈ visited st) then 0 else 1)
  ≤ size (visited st') + size (relatedEdges st).
Proof.
  intros n st st' Hg. revert n st st'.
  induction fuel as [|fuel IH]; intros n st st' Hrun; [done|].
  simpl in Hrun. case_bool_decide as Hn.
  { simplify_eq. rewrite decide_True by done. lia. }
  rewrite decide_False by done.
  assert (size (visited (visit n st)) = S (size (visited st))) as Hsz.
  { simpl. rewrite size_union by set_solver. by rewrite size_singleton. }
  set (J := λ s : TraceState,
    size (relatedEdges s) + size (visited (visit n st))
    ≤ size (visited s) + size (relatedEdges st)).
  assert (∀ d e s s', J s →
    hop guarded (walk fuel) d n e s = Some s' → J s') as Hhop.
  { intros d e s s' HJ Hh. unfold hop in Hh.
    replace (negb guarded || negb (bool_decide (far d e ∈ visited s)))
      with (negb (bool_decide (far d e ∈ visited s))) in Hh by (by rewrite Hg).
    destruct (bool_decide (near d e = n)); simpl in Hh; [|by simplify_eq].
    case_bool_decide as Hfar; simpl in Hh; [by simplify_eq|].
    apply IH in Hh. simpl in Hh. rewrite decide_False in Hh by done.
    assert (size ({[Edge.id e]} ∪ relatedEdges s) ≤ S (size (relatedEdges s))).
    { rewrite size_union_alt, size_singleton.
      assert (size (relatedEdges s ∖ {[Edge.id e]}) ≤ size (relatedEdges s))
        by (apply subseteq_size; set_solver).
      lia. }
    unfold J in *. lia. }
  assert (J st') as HJ.
  { apply (forEach_inv _ (λ _ s, J s)) in Hrun; [done| |].
    - unfold J. simpl. lia.
    - intros _ d s1 s2 Hd HJ1 Hs.
      apply (forEach_inv _ (λ _ s, J s)) in Hs; [done|done|].
      intros _ e s3 s4 He HJ3 Hh. by eapply Hhop. }
  unfold J in HJ. lia.
Qed.
End walk_edges.

Lemma one_way_edges d this n :
  ∃ st, walk false [d] (edges this) (budget this 1) n initial = Some st ∧
    relatedNodes st = visited st ∧
    (∀ y, y ∈ visited st ↔ rtc (step [d] (edges this)) n y) ∧
    (∀ i, i ∈ relatedEdges st ↔
          ∃ e, e ∈ edges this ∧ Edge.id e = i ∧ near d e ∈ visited st) ∧
    (∀ e, e ∈ edges this → near d e ∈ visited st → far d e ∈ visited st).
Proof.
  destruct (walk_from_initial false d this n) as (st & Hrun & Heq & Hreach).
  exists st. split_and!; [done..| |].
  - intros i. split.
    + intros Hi. apply (walk_edges_sound _ _ _ _ _ _ _ Hrun) in Hi
        as [?%not_elem_of_empty|(d' & e & ->%list_elem_of_singleton & ? & ? & ? & ?)];
        [done|]. by exists e.
    + intros (e & He & <- & Hnear).
      eapply (walk_edges_complete _ _ _ _ _ _ _ ∅ eq_refl Hrun);
        [intros x d' e' Hx; simpl in Hx; by apply not_elem_of_empty in Hx
        |done|set_solver|by left|done|done].
  - intros e He Hnear. apply Hreach. eapply rtc_r; [by apply Hreach|].
    exists d, e. split_and!; [by left|done..].
Qed.

(** What the two one-way traversals return: the closure of the start
    node, and the identifiers of all edges at a node of the closure. *)
Lemma traceImpact_result this n :
  ∃ r, traceImpact this n = Some r ∧
    (∀ y, y ∈ ChainResult.nodes r ↔ rtc (upstream this) n y) ∧
    (∀ i, i ∈ ChainResult.edges r ↔
       ∃ e, e ∈ edges this ∧ Edge.id e = i
            ∧ Edge.target e ∈ ChainResult.nodes r).
Proof.
  destruct (one_way_edges Up this n) as (st & Hrun & Heq & Hreach & Hedges & _).
  exists (result st). unfold traceImpact. rewrite traverseUp_walk, Hrun.
  simpl. rewrite Heq. split_and!; [done| |done].
  intros y. rewrite Hreach. apply rtc_iff. intros ??. apply step_up.
Qed.

Lemma traceDependencies_result this n :
  ∃ r, traceDependencies this n = Some r ∧
    (∀ y, y ∈ ChainResult.nodes r ↔ rtc (downstream this) n y) ∧
    (∀ i, i ∈ ChainResult.edges r ↔
       ∃ e, e ∈ edges this ∧ Edge.id e = i
            ∧ Edge.source e ∈ ChainResult.nodes r).
Proof.
  destruct (one_way_edges Down this n) as (st & Hrun & Heq & Hreach & Hedges & _).
  exists (result st). unfold traceDependencies. rewrite traverseDown_walk, Hrun.
  simpl. rewrite Heq. split_and!; [done| |done].
  intros y. rewrite Hreach. apply rtc_iff. intros ??. apply step_down.
Qed.

(** C7 (as amended): for a node identifier x that is not in the node
    snapshot no traversal fails.  traceChain([x]) returns empty node and
    edge sets.  traceImpact(x) and traceDependencies(x) do not look at the
    snapshot: they return what x reaches along the incoming, respectively
    outgoing, edges of the edge list, with the identifiers of all edges at
    a node reached.  The result is {x} alone, with no edges, exactly when
    no edge ends, respectively starts, at x; otherwise the other end of
    every edge that names x is among the returned nodes and the edge among
    the returned edges. *)
Theorem absent_start this x (Habs : ¬ present this x) :
  traceChain this [x]
    = Some {| ChainResult.nodes := ∅; ChainResult.edges := ∅ |} ∧
  (∃ r, traceImpact this x = Some r ∧
        (∀ y, y ∈ ChainResult.nodes r ↔ rtc (upstream this) x y) ∧
        (∀ i, i ∈ ChainResult.edges r ↔
           ∃ e, e ∈ edges this ∧ Edge.id e = i
                ∧ Edge.target e ∈ ChainResult.nodes r) ∧
        (r = {| ChainResult.nodes := {[x]}; ChainResult.edges := ∅ |}
         ↔ ∀ y, ¬ upstream this x y) ∧
        (∀ e, e ∈ edges this → Edge.target e = x →
           Edge.source e ∈ ChainResult.nodes r
           ∧ Edge.id e ∈ ChainResult.edges r)) ∧
  (∃ r, traceDependencies this x = Some r ∧
        (∀ y, y ∈ ChainResult.nodes r ↔ rtc (downstream this) x y) ∧
        (∀ i, i ∈ ChainResult.edges r ↔
           ∃ e, e ∈ edges this ∧ Edge.id e = i
                ∧ Edge.source e ∈ ChainResult.nodes r) ∧
        (r = {| ChainResult.nodes := {[x]}; ChainResult.edges := ∅ |}
         ↔ ∀ y, ¬ downstream this x y) ∧
        (∀ e, e ∈ edges this → Edge.source e = x →
           Edge.target e ∈ ChainResult.nodes r
           ∧ Edge.id e ∈ ChainResult.edges r)).
Proof.
  split_and!.
  - by apply traceChain_absent.
  - destruct (traceImpact_result this x) as (r & Hr & Hnodes & Hedges).
    assert (∀ e, e ∈ edges this → Edge.target e = x →
              Edge.source e ∈ ChainResult.nodes r
              ∧ Edge.id e ∈ ChainResult.edges r) as Hends.
    { intros e He Ht. split.
      - apply Hnodes, rtc_once. by exists e.
      - apply Hedges. exists e. split_and!; [done..|].
        rewrite Ht. by apply Hnodes. }
    exists r. split_and!; [done..| |done].
    split.
    + intros -> y (e & He & Ht & _).
      destruct (Hends e He Ht) as [_ Hid]. simpl in Hid.
      by apply not_elem_of_empty in Hid.
    + intros Hno. apply traceImpact_isolated in Hno. congruence.
  - destruct (traceDependencies_result this x) as (r & Hr & Hnodes & Hedges).
    assert (∀ e, e ∈ edges this → Edge.source e = x →
              Edge.target e ∈ ChainResult.nodes r
              ∧ Edge.id e ∈ ChainResult.edges r) as Hends.
    { intros e He Hs. split.
      - apply Hnodes, rtc_once. by exists e.
      - apply Hedges. exists e. split_and!; [done..|].
        rewrite Hs. by apply Hnodes. }
    exists r. split_and!; [done..| |done].
    split.
    + intros -> y (e & He & Hs & _).
      destruct (Hends e He Hs) as [_ Hid]. simpl in Hid.
      by apply not_elem_of_empty in Hid.
    + intros Hno. apply traceDependencies_isolated in Hno. congruence.
Qed.

Lemma absent_start_witness :
  traceChain dangling ["A"]
    = Some {| ChainResult.nodes := ∅; ChainResult.edges := ∅ |}.
Proof.
  apply (absent_start dangling "A").
  intros (n & Hn & Hid). simpl in Hn.
  apply list_elem_of_singleton in Hn as ->. discriminate Hid.
Defined.

(** C7, counterexample: A has no node object, yet traceDependencies("A")
    follows the edge A→B and returns B as well. *)
Lemma absent_start_reaches_neighbour :
  ¬ present dangling "A" ∧
  ∃ r, traceDependencies dangling "A" = Some r ∧
       "B" ∈ ChainResult.nodes r ∧ "B" ≠ "A".
Proof.
  split.
  - intros (n & Hn & Hid). simpl in Hn.
    apply list_elem_of_singleton in Hn as ->. discriminate Hid.
  - exists {| ChainResult.nodes := {["A"; "B"]}; ChainResult.edges := {["e1"]} |}.
    split_and!; [vm_compute; reflexivity|simpl; set_solver|done].
Qed.

(** C10: traceChain does not return every edge between returned nodes.
    For the edge list e1: A→B, e2: A→C, e3: B→C, traceChain(["A"])
    returns the nodes {A, B, C} and the edges {e1, e3}: e2 is left out,
    although both its ends are returned. *)
Theorem traceChain_omits_edge :
  ∃ r, traceChain triangle ["A"] = Some r ∧
       ChainResult.nodes r = {["A"; "B"; "C"]} ∧
       ChainResult.edges r = {["e1"; "e3"]} ∧
       ∃ e, e ∈ edges triangle ∧ Edge.id e = "e2" ∧
            Edge.source e ∈ ChainResult.nodes r ∧
            Edge.target e ∈ ChainResult.nodes r ∧
            Edge.id e ∉ ChainResult.edges r.
Proof.
  exists {| ChainResult.nodes := {["A"; "B"; "C"]};
            ChainResult.edges := {["e1"; "e3"]} |}.
  split_and!; [vm_compute; reflexivity|done|done|].
  exists (mkEdge "e2" "A" "C"). simpl.
  split_and!; [right; by left|done|set_solver..].
Qed.

(** ** Claims about the statistics *)

Lemma countStatus_sum node c :
  (Stats.achieved (countStatus node c) + Stats.unachieved (countStatus node c)
   = Stats.achieved c + Stats.unachieved c + (if counted node then 1 else 0))%Z.
Proof.
  unfold countStatus, counted.
  destruct (Node.metrics node) as [m|]; simpl.
  - destruct (isKpi node); simpl; [|lia].
    destruct (achieved m), (truthyModelType m); simpl; lia.
  - rewrite andb_false_r. lia.
Qed.

Lemma foldl_count l : ∀ acc,
  let acc' := foldl (λ acc node, (countCategory node acc.1, countStatus node acc.2))
                acc l in
  (Stats.achieved acc'.2 + Stats.unachieved acc'.2
   = Stats.achieved acc.2 + Stats.unachieved acc.2
     + Z.of_nat (length (filter (λ n, counted n) l)))%Z.
Proof.
  induction l as [|n l IH]; intros acc; simpl; [lia|].
  rewrite IH. simpl. rewrite countStatus_sum.
  rewrite filter_cons. destruct (counted n); simpl; lia.
Qed.

(** C2 (as amended): for every input node list,
    calculateStats(nodes).byStatus.achieved plus byStatus.unachieved equals
    the number of input nodes whose category is 'kpi' and that carry a
    metrics record; a kpi node without one is counted in neither. *)
Theorem calculateStats_status_total this nodesArg :
  let stats := calculateStats this nodesArg in
  (Stats.achieved (Stats.byStatus stats) + Stats.unachieved (Stats.byStatus stats)
   = Z.of_nat (length (filter (λ n, Node.category n = "kpi"
                                    ∧ is_Some (Node.metrics n))
                         (default (nodes this) nodesArg))))%Z.
Proof.
  unfold calculateStats. simpl. rewrite foldl_count. simpl.
  rewrite (list_filter_iff (λ n, counted n)
             (λ n, Node.category n = "kpi" ∧ is_Some (Node.metrics n))); [done|].
  intros n. unfold counted, isKpi.
  rewrite andb_True, !bool_decide_spec. done.
Qed.

(** C2, counterexample: one kpi node without a metrics record; the two
    counters add up to 0, the number of kpi nodes is 1. *)
Lemma calculateStats_skips_bare_kpi :
  let stats := calculateStats bare (Some [mkNode "K" "kpi"]) in
  (Stats.achieved (Stats.byStatus stats) + Stats.unachieved (Stats.byStatus stats)
   ≠ Z.of_nat (length (filter (λ n, Node.category n = "kpi") [mkNode "K" "kpi"])))%Z.
Proof. vm_compute. discriminate. Qed.

(** ** Array.prototype.sort *)

Lemma insertBy_perm {A} (compareFn : A → A → Z) x l :
  insertBy compareFn x l ≡ₚ x :: l.
Proof.
  induction l as [|y l IH]; simpl; [done|].
  destruct (compareFn x y <=? 0)%Z; [done|].
  rewrite IH. apply perm_swap.
Qed.

Lemma sort_perm {A} (compareFn : A → A → Z) l : sort compareFn l ≡ₚ l.
Proof.
  induction l as [|x l IH]; simpl; [done|].
  unfold sort in *. simpl. by rewrite insertBy_perm, IH.
Qed.

Lemma elem_of_sort {A} (compareFn : A → A → Z) l x :
  x ∈ sort compareFn l ↔ x ∈ l.
Proof. by rewrite sort_perm. Qed.

Lemma length_sort {A} (compareFn : A → A → Z) l :
  length (sort compareFn l) = length l.
Proof. by rewrite sort_perm. Qed.

(** Sorting by [b.key - a.key] puts the larger keys first. *)
Lemma sort_descending {A} (key : A → Z) l :
  StronglySorted (λ a b, key b ≤ key a)%Z (sort (λ a b, key b - key a)%Z l).
Proof.
  unfold sort. induction l as [|x l IH]; simpl; [constructor|].
  revert IH. generalize (foldr (insertBy (λ a b, key b - key a)%Z) [] l).
  clear l. intros l Hl. induction Hl as [|y l Hl IH Hy]; simpl.
  - repeat constructor.
  - destruct (Z.leb_spec (key y - key x) 0) as [Hle|Hgt].
    + constructor; [by constructor|]. constructor; [lia|].
      eapply Forall_impl; [done|]. simpl. intros; lia.
    + constructor; [done|].
      rewrite insertBy_perm. constructor; [lia|done].
Qed.

(** ** Claims about the priority ranking *)

Lemma queryNodes_kpi this :
  queryNodes this kpiCondition
  = filter (λ n, Node.category n ∈ ["kpi"]) (nodes this).
Proof. reflexivity. Qed.

Lemma filter_kpi (l : list Node.t) :
  filter (λ n, Node.category n ∈ ["kpi"]) l
  = filter (λ n, Node.category n = "kpi") l.
Proof. apply list_filter_iff. intros n. apply list_elem_of_singleton. Qed.

Lemma scoreKpi_entry this kpi impact :
  1 ≤ impact →
  ∃ p, scoreKpi this kpi impact = [p] ∧
       Priority.nodeId p = Node.id kpi ∧ (1 ≤ Priority.priorityScore p)%Z.
Proof.
  intros Himpact. unfold scoreKpi.
  destruct (negb (truthy (achievedOf kpi))), (negb (hasModelType kpi)),
    (negb (existsb _ _)), (bool_decide (Node.level kpi = Some 1%Z));
    simpl;
    match goal with
    | |- context [(0 <? ?s)%Z] =>
      assert (1 ≤ s)%Z as Hs by lia;
      destruct (Z.ltb_spec 0 s); [|lia]
    end;
    eexists; split_and!; try reflexivity; simpl; lia.
Qed.

Lemma traceDependencies_self this n :
  ∃ r, traceDependencies this n = Some r ∧ n ∈ ChainResult.nodes r ∧
       1 ≤ size (ChainResult.nodes r).
Proof.
  destruct (traceDependencies_spec this n) as (r & Hr & Hspec).
  exists r. assert (n ∈ ChainResult.nodes r) as Hn by by apply Hspec.
  split_and!; [done..|].
  destruct (size (ChainResult.nodes r)) eqn:Hsz; [|lia].
  apply size_empty_inv in Hsz. set_solver.
Qed.

Lemma priorities_spec this kpis :
  ∃ ps, priorities this kpis = Some ps ∧
        Forall2 (λ kpi p, Priority.nodeId p = Node.id kpi
                          ∧ (1 ≤ Priority.priorityScore p)%Z) kpis ps.
Proof.
  induction kpis as [|kpi kpis (ps & Hps & Hall)]; simpl; [by eauto|].
  destruct (traceDependencies_self (engine this) (Node.id kpi))
    as (r & -> & _ & Hsize).
  rewrite Hps. simpl.
  destruct (scoreKpi_entry this kpi _ Hsize) as (p & -> & Hid & Hscore).
  exists (p :: ps). split; [done|]. by constructor.
Qed.

(** C9: prioritizeNodes returns an entry for every kpi node of the store.
    The downstream closure of a node contains the node itself, so the
    capped impact bonus min(size, 20) is at least 1, every kpi's
    priorityScore is at least 1, the [score > 0] filter removes nothing,
    and the result is as long as the list of kpi nodes. *)
Theorem prioritizeNodes_covers_kpis this :
  ∃ ps, prioritizeNodes this = Some ps ∧
    length ps
      = length (filter (λ n, Node.category n = "kpi") (nodes (engine this))) ∧
    (∀ p, p ∈ ps → (1 ≤ Priority.priorityScore p)%Z) ∧
    (∀ kpi, kpi ∈ nodes (engine this) → Node.category kpi = "kpi" →
       ∃ p, p ∈ ps ∧ Priority.nodeId p = Node.id kpi) ∧
    (∀ n, ∃ r, traceDependencies (engine this) n = Some r ∧
       n ∈ ChainResult.nodes r ∧
       (1 ≤ Z.min (Z.of_nat (size (ChainResult.nodes r))) 20)%Z).
Proof.
  unfold prioritizeNodes. rewrite queryNodes_kpi, filter_kpi.
  destruct (priorities_spec this
              (filter (λ n, Node.category n = "kpi") (nodes (engine this))))
    as (ps & -> & Hall).
  eexists. split; [reflexivity|]. split_and!.
  - rewrite length_sort. symmetry. by eapply Forall2_length.
  - intros p Hp%elem_of_sort.
    apply list_elem_of_lookup in Hp as [i Hi].
    destruct (Forall2_lookup_r _ _ _ _ _ Hall Hi) as (kpi & _ & _ & Hscore). done.
  - intros kpi Hin Hcat.
    assert (kpi ∈ filter (λ n, Node.category n = "kpi") (nodes (engine this)))
      as [i Hi]%list_elem_of_lookup by by apply list_elem_of_filter.
    destruct (Forall2_lookup_l _ _ _ _ _ Hall Hi) as (p & Hp & Hid & _).
    exists p. split; [|done]. apply elem_of_sort. by eapply list_elem_of_lookup_2.
  - intros n. destruct (traceDependencies_self (engine this) n) as (r & Hr & Hn & Hsz).
    exists r. split_and!; [done..|lia].
Qed.

(** ** Claims about the correlation analysis *)

Lemma connected_outgoing es k : ∀ (acc : gset string) y,
  y ∈ foldl (λ (connectedIds : gset string) edge,
        let connectedIds :=
          if bool_decide (outgoing = incoming ∨ outgoing = both)
             && bool_decide (Edge.target edge = k)
          then {[Edge.source edge]} ∪ connectedIds else connectedIds in
        if bool_decide (outgoing = outgoing ∨ outgoing = both)
           && bool_decide (Edge.source edge = k)
        then {[Edge.target edge]} ∪ connectedIds else connectedIds) acc es
  ↔ y ∈ acc ∨ ∃ e, e ∈ es ∧ Edge.source e = k ∧ Edge.target e = y.
Proof.
  induction es as [|e es IH]; intros acc y; simpl.
  - split; [by left|]. intros [?|(e & He%elem_of_nil & _)]; done.
  - rewrite IH. clear IH. destruct (bool_decide (Edge.source e = k)) eqn:Hk.
    + apply bool_decide_eq_true in Hk. split.
      * intros [[->%elem_of_singleton|?]%elem_of_union|(e' & ? & ? & ?)].
        -- right. exists e. split_and!; [by left|done..].
        -- by left.
        -- right. exists e'. split_and!; [by right|done..].
      * intros [?|(e' & [->|?]%elem_of_cons & ? & <-)].
        -- left. set_solver.
        -- left. set_solver.
        -- right. by exists e'.
    + apply bool_decide_eq_false in Hk. split.
      * intros [?|(e' & ? & ? & ?)]; [by left|].
        right. exists e'. split_and!; [by right|done..].
      * intros [?|(e' & [->|?]%elem_of_cons & ? & <-)]; [by left|done|].
        right. by exists e'.
Qed.

Lemma neighbourIds_spec this k c y :
  y ∈ neighbourIds this k c ↔ neighbour this k c y.
Proof.
  unfold neighbourIds, getConnectedNodes, neighbour.
  rewrite elem_of_list_to_set, list_elem_of_fmap. split.
  - intros (n & -> & (Hc & (Hn & Hin)%list_elem_of_filter)%list_elem_of_filter).
    apply connected_outgoing in Hn as [?%not_elem_of_empty|(e & He & Hs & Ht)]; [done|].
    by exists e, n.
  - intros (e & n & He & Hs & Ht & Hn & Hid & Hc). exists n. split; [done|].
    apply list_elem_of_filter. split; [done|].
    apply list_elem_of_filter. split; [|done].
    apply connected_outgoing. right. exists e. by rewrite Hid.
Qed.

Lemma length_shared (s1 s2 : gset string) :
  length (shared s1 s2) = size (s1 ∩ s2).
Proof.
  unfold shared, size, set_size. simpl. apply Permutation_length.
  apply NoDup_Permutation.
  - apply NoDup_filter, NoDup_elements.
  - apply NoDup_elements.
  - intros x. rewrite list_elem_of_filter, !elem_of_elements. set_solver.
Qed.

Lemma size_zero_empty (X : gset string) : size X = 0 ↔ X = ∅.
Proof.
  split; [intros H; by apply leibniz_equiv, size_empty_inv|].
  intros ->. apply size_empty.
Qed.

(** What the loop body pushes for one pair. *)
Lemma correlate_spec this kpi1 kpi2 :
  let nd := size (sharedNeighbours (engine this) "design" (Node.id kpi1) (Node.id kpi2)) in
  let nv := size (sharedNeighbours (engine this) "verify" (Node.id kpi1) (Node.id kpi2)) in
  (nd = 0 ∧ nv = 0 ∧ correlate this kpi1 kpi2 = []) ∨
  ((0 < nd ∨ 0 < nv) ∧
   ∃ c, correlate this kpi1 kpi2 = [c] ∧
        Correlation.id (Correlation.kpi1 c) = Node.id kpi1 ∧
        Correlation.id (Correlation.kpi2 c) = Node.id kpi2 ∧
        Correlation.sharedDesignParams c = Z.of_nat nd ∧
        Correlation.sharedVerifications c = Z.of_nat nv ∧
        (Correlation.correlationStrength c = strong ↔ 2 ≤ nd) ∧
        (Correlation.correlationStrength c = medium ↔ nd = 1) ∧
        (Correlation.correlationStrength c = weak ↔ nd = 0)).
Proof.
  intros nd nv. subst nd nv. unfold correlate, sharedNeighbours.
  rewrite !length_shared.
  generalize (size (neighbourIds (engine this) (Node.id kpi1) "design"
                    ∩ neighbourIds (engine this) (Node.id kpi2) "design")).
  generalize (size (neighbourIds (engine this) (Node.id kpi1) "verify"
                    ∩ neighbourIds (engine this) (Node.id kpi2) "verify")).
  intros nv nd.
  destruct nd as [|[|nd]], nv as [|nv]; simpl;
    first
      [ left; split_and!; [lia|lia|done]
      | right; split; [lia|]; eexists; split; [reflexivity|]; simpl;
        split_and!; try done; split; intros; first [done | lia] ].
Qed.

Lemma elem_of_correlations this c :
  c ∈ correlations this ↔
  ∃ i j kpi1 kpi2, i < j
    ∧ filter (λ n, Node.category n = "kpi") (nodes (engine this)) !! i = Some kpi1
    ∧ filter (λ n, Node.category n = "kpi") (nodes (engine this)) !! j = Some kpi2
    ∧ c ∈ correlate this kpi1 kpi2.
Proof.
  unfold correlations. rewrite queryNodes_kpi, filter_kpi.
  set (kpis := filter _ _).
  rewrite list_elem_of_bind. split.
  - intros (i & (j & Hc & Hj%elem_of_seq)%list_elem_of_bind & Hi%elem_of_seq).
    destruct (kpis !! i) as [kpi1|] eqn:H1; [|by apply elem_of_nil in Hc].
    destruct (kpis !! j) as [kpi2|] eqn:H2; [|by apply elem_of_nil in Hc].
    exists i, j, kpi1, kpi2. split_and!; [lia|done..].
  - intros (i & j & kpi1 & kpi2 & Hij & H1 & H2 & Hc).
    pose proof (lookup_lt_Some _ _ _ H1). pose proof (lookup_lt_Some _ _ _ H2).
    exists i. split; [|apply elem_of_seq; lia].
    apply list_elem_of_bind. exists j. split; [|apply elem_of_seq; lia].
    by rewrite H1, H2.
Qed.

Lemma elem_of_analyzeCorrelations this c :
  c ∈ analyzeCorrelations this ↔ c ∈ correlations this.
Proof. apply elem_of_sort. Qed.

Lemma correlations_entry this c :
  c ∈ analyzeCorrelations this →
  let nd := size (sharedNeighbours (engine this) "design"
                    (Correlation.id (Correlation.kpi1 c))
                    (Correlation.id (Correlation.kpi2 c))) in
  let nv := size (sharedNeighbours (engine this) "verify"
                    (Correlation.id (Correlation.kpi1 c))
                    (Correlation.id (Correlation.kpi2 c))) in
  (0 < nd ∨ 0 < nv) ∧
  Correlation.sharedDesignParams c = Z.of_nat nd ∧
  Correlation.sharedVerifications c = Z.of_nat nv ∧
  (Correlation.correlationStrength c = strong ↔ 2 ≤ nd) ∧
  (Correlation.correlationStrength c = medium ↔ nd = 1) ∧
  (Correlation.correlationStrength c = weak ↔ nd = 0).
Proof.
  intros (i & j & kpi1 & kpi2 & _ & _ & _ & Hc)%elem_of_analyzeCorrelations%elem_of_correlations.
  destruct (correlate_spec this kpi1 kpi2)
    as [(_ & _ & Hnil)|(Hpos & c' & Hc' & Hid1 & Hid2 & Hrest)].
  - rewrite Hnil in Hc. by apply elem_of_nil in Hc.
  - rewrite Hc' in Hc. apply list_elem_of_singleton in Hc as ->.
    simpl. rewrite Hid1, Hid2. done.
Qed.

(** C8: analyzeCorrelations has an entry for a pair of kpi nodes exactly
    when they share a design neighbour or a verify neighbour (a node of
    that category at the end of an outgoing edge of both); an entry is
    'strong' exactly when the pair shares at least 2 design neighbours and
    'medium' exactly when it shares 1; the list is sorted by the number of
    shared design neighbours, largest first; and a pair that shares exactly
    2 design neighbours and no verify neighbour gets a 'strong' entry. *)
Theorem analyzeCorrelations_spec this i j kpi1 kpi2
    (Hij : i < j)
    (H1 : filter (λ n, Node.category n = "kpi") (nodes (engine this)) !! i
          = Some kpi1)
    (H2 : filter (λ n, Node.category n = "kpi") (nodes (engine this)) !! j
          = Some kpi2) :
  let design := sharedNeighbours (engine this) "design" in
  let verify := sharedNeighbours (engine this) "verify" in
  ((∃ c, c ∈ analyzeCorrelations this
         ∧ Correlation.id (Correlation.kpi1 c) = Node.id kpi1
         ∧ Correlation.id (Correlation.kpi2 c) = Node.id kpi2)
   ↔ design (Node.id kpi1) (Node.id kpi2) ≠ ∅
     ∨ verify (Node.id kpi1) (Node.id kpi2) ≠ ∅) ∧
  (size (design (Node.id kpi1) (Node.id kpi2)) = 2 →
   size (verify (Node.id kpi1) (Node.id kpi2)) = 0 →
   ∃ c, c ∈ analyzeCorrelations this
        ∧ Correlation.id (Correlation.kpi1 c) = Node.id kpi1
        ∧ Correlation.id (Correlation.kpi2 c) = Node.id kpi2
        ∧ Correlation.correlationStrength c = strong) ∧
  (∀ c, c ∈ analyzeCorrelations this →
     let k1 := Correlation.id (Correlation.kpi1 c) in
     let k2 := Correlation.id (Correlation.kpi2 c) in
     Correlation.sharedDesignParams c = Z.of_nat (size (design k1 k2)) ∧
     (Correlation.correlationStrength c = strong ↔ 2 ≤ size (design k1 k2)) ∧
     (Correlation.correlationStrength c = medium ↔ size (design k1 k2) = 1)) ∧
  StronglySorted
    (λ a b, Correlation.sharedDesignParams b ≤ Correlation.sharedDesignParams a)%Z
    (analyzeCorrelations this) ∧
  (∀ c k1 k2 y, y ∈ sharedNeighbours (engine this) c k1 k2 ↔
     neighbour (engine this) k1 c y ∧ neighbour (engine this) k2 c y).
Proof.
  intros design verify.
  assert (∀ c, correlate this kpi1 kpi2 = [c] → c ∈ analyzeCorrelations this)
    as Hpush.
  { intros c Hc. apply elem_of_analyzeCorrelations, elem_of_correlations.
    exists i, j, kpi1, kpi2. split_and!; [done..|]. rewrite Hc. by left. }
  split_and!.
  - split.
    + intros (c & Hc & Hid1 & Hid2).
      destruct (correlations_entry this c Hc) as (Hpos & _).
      rewrite Hid1, Hid2 in Hpos. unfold design, verify.
      rewrite <- !size_zero_empty. lia.
    + intros Hne. unfold design, verify in Hne. rewrite <- !size_zero_empty in Hne.
      destruct (correlate_spec this kpi1 kpi2)
        as [(Hd & Hv & _)|(_ & c & Hc & Hid1 & Hid2 & _)]; [lia|].
      exists c. split_and!; [by apply Hpush|done..].
  - intros Hd Hv.
    destruct (correlate_spec this kpi1 kpi2)
      as [(Hd' & _)|(_ & c & Hc & Hid1 & Hid2 & _ & _ & Hstrong & _)].
    + unfold design in Hd. lia.
    + exists c. split_and!; [by apply Hpush|done..|].
      apply Hstrong. unfold design in Hd. lia.
  - intros c Hc. destruct (correlations_entry this c Hc) as (_ & Hn & _ & Hs & Hm & _).
    done.
  - apply (sort_descending Correlation.sharedDesignParams).
  - intros c k1 k2 y. unfold sharedNeighbours.
    by rewrite elem_of_intersection, !neighbourIds_spec.
Qed.

Lemma analyzeCorrelations_spec_witness :
  ∃ c, c ∈ analyzeCorrelations coupled
       ∧ Correlation.id (Correlation.kpi1 c) = "K1"
       ∧ Correlation.id (Correlation.kpi2 c) = "K2"
       ∧ Correlation.correlationStrength c = strong.
Proof.
  destruct (analyzeCorrelations_spec coupled 0 1
              (mkKpi "K1" true (Some simulink)) (mkKpi "K2" false None))
    as (_ & Hscenario & _); [lia|reflexivity|reflexivity|].
  apply Hscenario; vm_compute; reflexivity.
Defined.

(** ** Claims about the parser *)

Lemma append_String a s t : String a s +:+ t = String a (s +:+ t).
Proof. reflexivity. Qed.

Lemma literal_is_Some s : ∀ c,
  is_Some (literal false s c) ↔ ∃ t, rest c = s +:+ t.
Proof.
  induction s as [|a s IH]; intros c; simpl.
  - split; [intros _; by exists (rest c)|by eauto].
  - destruct (rest c) as [|b r] eqn:Hr.
    + split; [by intros [? ?]|by intros [t ?]].
    + destruct (Ascii.eqb_spec a b) as [->|Hne].
      * rewrite IH. simpl.
        split; intros [t Ht]; exists t; rewrite append_String in *; congruence.
      * split; [by intros [? ?]|].
        intros [t Ht]. rewrite append_String in Ht. congruence.
Qed.

Lemma matcher_oneOf s l : ∀ c,
  is_Some (matcher false (oneOf s l) Some c)
  ↔ ∃ kw, kw ∈ s :: l ∧ ∃ t, rest c = kw +:+ t.
Proof.
  revert s. induction l as [|s' l IH]; intros s c; simpl.
  - destruct (literal false s c) as [c'|] eqn:Hl; simpl.
    + split; [intros _|by eauto]. exists s. split; [by left|].
      apply literal_is_Some. by rewrite Hl.
    + split; [by intros [? ?]|].
      intros (kw & ->%list_elem_of_singleton & Ht).
      apply literal_is_Some in Ht. by rewrite Hl in Ht.
  - destruct (literal false s c) as [c'|] eqn:Hl; simpl.
    + split; [intros _|by eauto]. exists s. split; [by left|].
      apply literal_is_Some. by rewrite Hl.
    + rewrite IH. split.
      * intros (kw & Hkw & Ht). exists kw. split; [by right|done].
      * intros (kw & [->|Hkw]%elem_of_cons & Ht); [|by eauto].
        apply literal_is_Some in Ht. by rewrite Hl in Ht.
Qed.

Lemma execFrom_oneOf s l str : ∀ b,
  is_Some (execFrom false (oneOf s l) b str)
  ↔ ∃ kw, kw ∈ s :: l ∧ occurs kw str.
Proof.
  induction str as [|a str IH]; intros b; simpl.
  - pose proof (matcher_oneOf s l {| before := b; rest := "" |}) as Hm.
    destruct (matcher false (oneOf s l) Some _) as [c'|].
    + split; [intros _|by eauto].
      destruct Hm as [(kw & Hkw & t & Ht) _]; [by eauto|].
      exists kw. split; [done|]. exists "", t. done.
    + split; [by intros [? ?]|]. intros (kw & Hkw & pre & post & Hs).
      destruct pre; [|done]. simpl in Hs.
      destruct Hm as [_ Hm]. destruct Hm as [? Hm]; [|done].
      exists kw. split; [done|]. by exists post.
  - pose proof (matcher_oneOf s l {| before := b; rest := String a str |}) as Hm.
    destruct (matcher false (oneOf s l) Some _) as [c'|].
    + split; [intros _|by eauto].
      destruct Hm as [(kw & Hkw & t & Ht) _]; [by eauto|].
      exists kw. split; [done|]. exists "", t. done.
    + rewrite IH. split.
      * intros (kw & Hkw & pre & post & ->). exists kw. split; [done|].
        by exists (String a pre), post.
      * intros (kw & Hkw & pre & post & Hs). exists kw. split; [done|].
        destruct pre as [|a' pre]; simpl in Hs.
        -- destruct Hm as [_ Hm]. destruct Hm as [? Hm]; [|done].
           exists kw. split; [done|]. by exists post.
        -- injection Hs as -> ->. by exists pre, post.
Qed.

(** A pattern that is an alternation of literals tests for the occurrence
    of one of them. *)
Lemma test_oneOf s l str :
  test false (oneOf s l) str = true ↔ ∃ kw, kw ∈ s :: l ∧ occurs kw str.
Proof.
  unfold test. rewrite bool_decide_eq_true. apply execFrom_oneOf.
Qed.

Lemma classifyIntent_firstMatch s :
  classifyIntent s = firstMatch intentRules s.
Proof.
  unfold classifyIntent. simpl.
  repeat (destruct (test false _ s); [reflexivity|]). reflexivity.
Qed.

(** C5: the intent is that of the first rule, in the order stats, chain,
    impact, issue, suggest, compare, correlation, health, priority,
    display, whose pattern matches the normalized query, and 'unknown'
    when none does; so a query in which a stats keyword and a chain keyword
    both occur is classified 'query_stats' with confidence 0.9, as
    "统计 KPI_FoldTime 的链路" is. *)
Theorem intent_priority (toLowerCase trim : string → string) query kw1 kw2
    (Hkw1 : kw1 ∈ statsKeywords)
    (Hstats : occurs kw1 (trim (toLowerCase query)))
    (Hkw2 : kw2 ∈ chainKeywords)
    (Hchain : occurs kw2 (trim (toLowerCase query))) :
  let parse := parseQuery toLowerCase trim in
  test false reChain (trim (toLowerCase query)) = true ∧
  ParsedQuery.intent (parse query) = QueryIntent.query_stats ∧
  ParsedQuery.confidence (parse query) = 0.9%Q ∧
  (∀ q, (ParsedQuery.intent (parse q), ParsedQuery.confidence (parse q))
        = firstMatch intentRules (trim (toLowerCase q))) ∧
  (λ rule, rule.1.2) <$> intentRules
    = [ QueryIntent.query_stats; QueryIntent.trace_chain;
        QueryIntent.analyze_impact; QueryIntent.find_issues;
        QueryIntent.suggest; QueryIntent.compare; QueryIntent.correlation;
        QueryIntent.health_check; QueryIntent.prioritize;
        QueryIntent.query_nodes ] ∧
  firstMatch intentRules "" = (QueryIntent.unknown, 0.5%Q) ∧
  ParsedQuery.intent (parseQuery asciiLower asciiTrim "统计 KPI_FoldTime 的链路")
    = QueryIntent.query_stats ∧
  ParsedQuery.confidence (parseQuery asciiLower asciiTrim "统计 KPI_FoldTime 的链路")
    = 0.9%Q.
Proof.
  intros parse.
  assert (test false reStats (trim (toLowerCase query)) = true) as Hs.
  { apply test_oneOf. by exists kw1. }
  assert (∀ q, (ParsedQuery.intent (parse q), ParsedQuery.confidence (parse q))
               = firstMatch intentRules (trim (toLowerCase q))) as Hfirst.
  { intros q. unfold parse, parseQuery.
    rewrite <- (classifyIntent_firstMatch (trim (toLowerCase q))).
    by destruct (classifyIntent _). }
  assert (firstMatch intentRules (trim (toLowerCase query))
          = (QueryIntent.query_stats, 0.9%Q)) as Hq.
  { simpl. by rewrite Hs. }
  specialize (Hfirst query) as Hthis. rewrite Hq in Hthis.
  split_and!; [|congruence|congruence|done|reflexivity|reflexivity
               |vm_compute; reflexivity..].
  apply test_oneOf. by exists kw2.
Qed.

Lemma intent_priority_witness :
  ParsedQuery.intent (parseQuery asciiLower asciiTrim "统计 KPI_FoldTime 的链路")
    = QueryIntent.query_stats.
Proof.
  apply (intent_priority asciiLower asciiTrim "统计 KPI_FoldTime 的链路"
           "统计" "链路").
  - by left.
  - exists "", " kpi_foldtime 的链路". vm_compute. reflexivity.
  - by left.
  - exists "统计 kpi_foldtime 的", "". vm_compute. reflexivity.
Defined.

(** C4: the token pattern admits only capitals, underscores and trailing
    digits between two word boundaries, so the identifiers the claim
    names, and the data set uses, yield no node_id entity: 'KPI_FoldTime',
    'D_MotorTorque' and 'KPI_A1B' are not extracted, an all-capital
    identifier such as 'KPI_NVH' is.  For "KPI_FoldTime 的链路", the
    query the engine itself suggests to the user, the only entity is the
    category. *)
Theorem nodeId_pattern_misses_mixed_case :
  nodeIdEntities "KPI_FoldTime" = [] ∧
  nodeIdEntities "D_MotorTorque" = [] ∧
  nodeIdEntities "KPI_A1B" = [] ∧
  nodeIdEntities "KPI_NVH" = [entity EntityType.node_id "KPI_NVH" 0.95%Q] ∧
  ParsedQuery.entities (parseQuery asciiLower asciiTrim "KPI_FoldTime 的链路")
    = [entity EntityType.category "kpi" 0.9%Q].
Proof. split_and!; vm_compute; reflexivity. Qed.

(** * Further properties of the engine *)

(** ** How the traversals relate to each other *)

Lemma rtc_converse {A} (R S : relation A) x y :
  (∀ a b, R a b → S b a) → rtc R x y → rtc S y x.
Proof.
  intros HRS Hxy. induction Hxy as [|x y z Hxy _ IH]; [done|].
  eapply rtc_r; [done|]. by apply HRS.
Qed.

Lemma upstream_downstream this x y : upstream this x y ↔ downstream this y x.
Proof. split; intros (e & He & H1 & H2); by exists e. Qed.

Lemma linked_sym this x y : linked this x y → linked this y x.
Proof.
  intros [H|H]; [right; by apply upstream_downstream
                |left; by apply upstream_downstream].
Qed.

(** X1: impact is dependency read backwards: y is in
    traceDependencies(x).nodes exactly when x is in traceImpact(y).nodes. *)
Theorem dependencies_impact_dual this x y :
  ∃ rd ri, traceDependencies this x = Some rd ∧ traceImpact this y = Some ri ∧
    (y ∈ ChainResult.nodes rd ↔ x ∈ ChainResult.nodes ri).
Proof.
  destruct (traceDependencies_spec this x) as (rd & Hrd & Hd).
  destruct (traceImpact_spec this y) as (ri & Hri & Hi).
  exists rd, ri. split_and!; [done..|]. rewrite Hd, Hi.
  split; apply rtc_converse; intros a b; apply upstream_downstream.
Qed.

(** X2: the closures are transitive: when y is in
    traceDependencies(x).nodes, everything traceDependencies(y) returns is
    in traceDependencies(x).nodes too; likewise for traceImpact. *)
Theorem closures_transitive this x y :
  (∃ rx ry, traceDependencies this x = Some rx ∧ traceDependencies this y = Some ry ∧
     (y ∈ ChainResult.nodes rx → ChainResult.nodes ry ⊆ ChainResult.nodes rx)) ∧
  (∃ rx ry, traceImpact this x = Some rx ∧ traceImpact this y = Some ry ∧
     (y ∈ ChainResult.nodes rx → ChainResult.nodes ry ⊆ ChainResult.nodes rx)).
Proof.
  split.
  - destruct (traceDependencies_spec this x) as (rx & Hrx & Hx).
    destruct (traceDependencies_spec this y) as (ry & Hry & Hy).
    exists rx, ry. split_and!; [done..|]. intros Hxy z Hz.
    apply Hx. etrans; [by apply Hx|by apply Hy].
  - destruct (traceImpact_spec this x) as (rx & Hrx & Hx).
    destruct (traceImpact_spec this y) as (ry & Hry & Hy).
    exists rx, ry. split_and!; [done..|]. intros Hxy z Hz.
    apply Hx. etrans; [by apply Hx|by apply Hy].
Qed.

(** X3: traceChain distributes over concatenation of start lists: the
    node set for S1 followed by S2 is the union of the node sets for S1
    and for S2, so neither the order of the start identifiers nor
    repetitions among them change the node set. *)
Theorem traceChain_app this S1 S2 :
  ∃ r1 r2 r, traceChain this S1 = Some r1 ∧ traceChain this S2 = Some r2 ∧
    traceChain this (S1 ++ S2) = Some r ∧
    ChainResult.nodes r = ChainResult.nodes r1 ∪ ChainResult.nodes r2.
Proof.
  destruct (traceChain_spec this S1) as (r1 & Hr1 & H1).
  destruct (traceChain_spec this S2) as (r2 & Hr2 & H2).
  destruct (traceChain_spec this (S1 ++ S2)) as (r & Hr & H).
  exists r1, r2, r. split_and!; [done..|].
  apply set_eq. intros y. rewrite elem_of_union, H, H1, H2. split.
  - intros (x & [Hx|Hx]%elem_of_app & Hp & Hxy); [left|right]; by exists x.
  - intros [(x & Hx & Hp & Hxy)|(x & Hx & Hp & Hxy)]; exists x;
      (split_and!; [apply elem_of_app; by eauto|done|done]).
Qed.

(** X4: for a node of the snapshot, the chain contains both one-way
    closures: traceImpact(x).nodes and traceDependencies(x).nodes are
    subsets of traceChain([x]).nodes. *)
Theorem chain_contains_impact_and_dependencies this x (Hx : present this x) :
  ∃ rc ri rd, traceChain this [x] = Some rc ∧ traceImpact this x = Some ri ∧
    traceDependencies this x = Some rd ∧
    ChainResult.nodes ri ⊆ ChainResult.nodes rc ∧
    ChainResult.nodes rd ⊆ ChainResult.nodes rc.
Proof.
  destruct (traceChain_spec this [x]) as (rc & Hrc & Hc).
  destruct (traceImpact_spec this x) as (ri & Hri & Hi).
  destruct (traceDependencies_spec this x) as (rd & Hrd & Hd).
  exists rc, ri, rd. split_and!; [done..| |].
  - intros y Hy%Hi. apply Hc. exists x. split_and!; [by left|done|].
    revert Hy. apply rtc_subrel. intros a b. by left.
  - intros y Hy%Hd. apply Hc. exists x. split_and!; [by left|done|].
    revert Hy. apply rtc_subrel. intros a b. by right.
Qed.

Lemma chain_contains_impact_and_dependencies_witness :
  ∃ rc ri rd, traceChain chain ["B"] = Some rc ∧ traceImpact chain "B" = Some ri ∧
    traceDependencies chain "B" = Some rd ∧
    ChainResult.nodes ri ⊆ ChainResult.nodes rc ∧
    ChainResult.nodes rd ⊆ ChainResult.nodes rc.
Proof.
  apply (chain_contains_impact_and_dependencies chain "B").
  exists (mkNode "B" "kpi"). split; [right; by left|reflexivity].
Defined.

(** X5: the chains of two nodes of the snapshot are equal or disjoint:
    when y is a node of the snapshot and lies in traceChain([x]).nodes,
    traceChain([y]) returns the same node set. *)
Theorem chain_of_member this x y
    (Hx : present this x) (Hy : present this y) :
  ∃ rx ry, traceChain this [x] = Some rx ∧ traceChain this [y] = Some ry ∧
    (y ∈ ChainResult.nodes rx →
     ChainResult.nodes ry = ChainResult.nodes rx) ∧
    (y ∉ ChainResult.nodes rx →
     ChainResult.nodes ry ∩ ChainResult.nodes rx = ∅).
Proof.
  destruct (traceChain_spec this [x]) as (rx & Hrx & Hcx).
  destruct (traceChain_spec this [y]) as (ry & Hry & Hcy).
  assert (∀ a b, rtc (linked this) a b → rtc (linked this) b a) as Hsym.
  { intros a b. apply rtc_converse. intros ??. apply linked_sym. }
  exists rx, ry. split_and!; [done..| |].
  - intros (x' & ->%list_elem_of_singleton & _ & Hxy)%Hcx.
    apply set_eq. intros z. rewrite Hcx, Hcy. split.
    + intros (y' & ->%list_elem_of_singleton & _ & Hyz).
      exists x. split_and!; [by left|done|by etrans].
    + intros (x'' & ->%list_elem_of_singleton & _ & Hxz).
      exists y. split_and!; [by left|done|]. etrans; [by apply Hsym|done].
  - intros Hny. apply set_eq. intros z. rewrite elem_of_intersection, Hcx, Hcy.
    split; [|by intros ?%not_elem_of_empty].
    intros [(y' & ->%list_elem_of_singleton & _ & Hyz)
            (x' & ->%list_elem_of_singleton & _ & Hxz)].
    destruct Hny. apply Hcx. exists x. split_and!; [by left|done|].
    etrans; [done|by apply Hsym].
Qed.

Lemma chain_of_member_witness :
  ∃ rx ry, traceChain chain ["A"] = Some rx ∧ traceChain chain ["C"] = Some ry ∧
    (ChainResult.nodes ry = ChainResult.nodes rx
     ∨ ChainResult.nodes ry ∩ ChainResult.nodes rx = ∅).
Proof.
  destruct (chain_of_member chain "A" "C") as (rx & ry & Hrx & Hry & Hin & Hout).
  - exists (mkNode "A" "goal"). split; [by left|reflexivity].
  - exists (mkNode "C" "design"). split; [right; right; by left|reflexivity].
  - exists rx, ry. split_and!; [done..|].
    destruct (decide ("C" ∈ ChainResult.nodes rx)); [left|right]; eauto.
Defined.

(** X6: the edge set of a one-way traversal is determined by its node
    set.  traceImpact(n).edges holds exactly the identifiers of the edges
    whose target is in traceImpact(n).nodes, and the source of each such
    edge is in the node set too; traceDependencies(n) likewise, with
    source and target exchanged. *)
Theorem one_way_edge_sets this n :
  (∃ r, traceImpact this n = Some r ∧
     (∀ i, i ∈ ChainResult.edges r ↔
        ∃ e, e ∈ edges this ∧ Edge.id e = i
             ∧ Edge.target e ∈ ChainResult.nodes r) ∧
     (∀ e, e ∈ edges this → Edge.target e ∈ ChainResult.nodes r →
        Edge.source e ∈ ChainResult.nodes r)) ∧
  (∃ r, traceDependencies this n = Some r ∧
     (∀ i, i ∈ ChainResult.edges r ↔
        ∃ e, e ∈ edges this ∧ Edge.id e = i
             ∧ Edge.source e ∈ ChainResult.nodes r) ∧
     (∀ e, e ∈ edges this → Edge.source e ∈ ChainResult.nodes r →
        Edge.target e ∈ ChainResult.nodes r)).
Proof.
  split.
  - destruct (one_way_edges Up this n) as (st & Hrun & Heq & _ & Hedges & Hclosed).
    exists (result st). unfold traceImpact. rewrite traverseUp_walk, Hrun.
    simpl. rewrite Heq. done.
  - destruct (one_way_edges Down this n) as (st & Hrun & Heq & _ & Hedges & Hclosed).
    exists (result st). unfold traceDependencies. rewrite traverseDown_walk, Hrun.
    simpl. rewrite Heq. done.
Qed.

Lemma traceChain_state this S :
  ∃ st, traceChain this S = Some (result st) ∧
    relatedNodes st = visited st ∧
    (∀ i, i ∈ relatedEdges st → spans [Up; Down] (edges this) (visited st) i) ∧
    size (relatedEdges st) ≤ pred (size (visited st)).
Proof.
  unfold traceChain.
  set (f := λ nodeId st,
    if existsb (λ n, bool_decide (Node.id n = nodeId)) (nodes this)
    then traverse this (budget this (length S)) nodeId st else Some st).
  destruct (traceChain_spec this S) as (r & Hr & _). unfold traceChain in Hr.
  fold f in Hr. destruct (forEach f S initial) as [st|] eqn:Hrun; [|done].
  exists st. split; [done|]. clear Hr r.
  apply (forEach_inv f (λ _ s,
    relatedNodes s = visited s ∧
    closed_off [Up; Down] (edges this) ∅ (visited s) ∧
    (∀ i, i ∈ relatedEdges s → spans [Up; Down] (edges this) (visited s) i) ∧
    size (relatedEdges s) ≤ pred (size (visited s)))) in Hrun.
  - destruct Hrun as (? & _ & ? & ?). done.
  - split_and!; [done|by intros ?? ?%not_elem_of_empty
                |by intros ? ?%not_elem_of_empty|].
    unfold initial; cbn [relatedEdges visited]. rewrite !size_empty. done.
  - intros _ x s s' Hx (Heq & Hcl & Hsp & Hsz) Hf. unfold f in Hf.
    destruct (existsb _ _); [|by simplify_eq].
    rewrite traverse_walk in Hf.
    pose proof (walk_edges_sound _ _ _ _ _ _ _ Hf) as (Hv & _ & _ & Hsound).
    pose proof (walk_forest _ _ _ _ _ _ _ eq_refl Hf) as Hforest.
    apply (walk_spec _ _ _ _ _ _ _ ∅) in Hf as (_ & Hn & Heq' & Hcl' & _);
      [|set_solver|set_solver|done].
    split_and!; [done|done| |].
    + intros i Hi. destruct (Hsound i Hi) as [Hi'|Hi']; [|done].
      destruct (Hsp i Hi') as (d & e & ? & ? & ? & ? & ?).
      exists d, e. set_solver.
    + assert (size (visited s) ≤ size (visited s')) by by apply subseteq_size.
      destruct (decide (x ∈ visited s)) as [Hin|Hout]; [|lia].
      assert (size (visited s) ≠ 0); [|lia].
      intros Hz%size_empty_inv. set_solver.
Qed.

(** X7: the edges traceChain returns form a forest on the nodes it
    returns: every returned edge identifier belongs to an edge of the
    edge list with both ends in the returned node set, and there are at
    most as many of them as nodes less one (none when no node is
    returned). *)
Theorem traceChain_edge_forest this S :
  ∃ r, traceChain this S = Some r ∧
    (∀ i, i ∈ ChainResult.edges r →
       ∃ e, e ∈ edges this ∧ Edge.id e = i
            ∧ Edge.source e ∈ ChainResult.nodes r
            ∧ Edge.target e ∈ ChainResult.nodes r) ∧
    size (ChainResult.edges r) ≤ pred (size (ChainResult.nodes r)).
Proof.
  destruct (traceChain_state this S) as (st & Hrun & Heq & Hsp & Hsz).
  exists (result st). split_and!; [done| |].
  - simpl. rewrite Heq. intros i Hi.
    destruct (Hsp i Hi) as (d & e & _ & He & Hid & Hn & Hf).
    exists e. destruct d; simpl in *; done.
  - simpl. by rewrite Heq.
Qed.

(** ** The graph store *)

Lemma queryNodes_elem this condition n :
  n ∈ queryNodes this condition ↔ n ∈ nodes this ∧ satisfies condition n.
Proof.
  unfold queryNodes, satisfies.
  destruct condition as [[[|c cs]|] [a|] [mt|] [l|] [h|] [[|i ids]|]]; simpl;
    rewrite ?list_elem_of_filter, ?andb_True, ?bool_decide_spec;
    unfold isKpi; rewrite ?bool_decide_spec; tauto.
Qed.

Lemma queryNodes_filters this condition :
  ∃ (P : Node.t → Prop) (_ : ∀ n, Decision (P n)),
    ∀ ns, queryNodes {| nodes := ns; edges := edges this |} condition
          = filter P ns.
Proof.
  assert (∀ ns : list Node.t, ns = filter (λ _, True) ns) as Hid.
  { intros ns. induction ns as [|x ns IH]; [done|].
    rewrite filter_cons_True by done. by f_equal. }
  unfold queryNodes.
  destruct condition as [[[|c cs]|] [a|] [mt|] [l|] [h|] [[|i ids]|]]; simpl;
    try (eexists _, _; intros ns; rewrite ?list_filter_filter; reflexivity);
    eexists _, _; intros ns; apply Hid.
Qed.

(** X8: queryNodes is an AND of the filters given.  A node is returned
    exactly when it is in the snapshot and passes every filter of the
    condition (an absent field or an empty category/nodeIds array filters
    nothing; the achieved, modelType and hasModel filters pass kpi nodes
    only).  The modelType filter compares with [===]: whatever it asks
    for, also [null], a node is returned only if its metrics record has
    the key modelType with that very value, so a kpi whose record lacks
    the key is returned for no modelType filter.  The result is a sublist
    of the snapshot, and querying the result again with the same condition
    returns it unchanged. *)
Theorem queryNodes_spec this condition :
  (∀ n, n ∈ queryNodes this condition
        ↔ n ∈ nodes this ∧ satisfies condition n) ∧
  (∀ n mt, cond_modelType condition = Some mt →
     n ∈ queryNodes this condition →
     Node.category n = "kpi"
     ∧ ∃ m, Node.metrics n = Some m ∧ modelType m = Some mt) ∧
  sublist (queryNodes this condition) (nodes this) ∧
  queryNodes {| nodes := queryNodes this condition; edges := edges this |}
    condition
  = queryNodes this condition.
Proof.
  split; [intros n; apply queryNodes_elem|]. split.
  { intros n mt Hmt [_ Hpass]%queryNodes_elem.
    destruct Hpass as (_ & _ & Hpass & _). rewrite Hmt in Hpass.
    destruct Hpass as [Hkpi Hm]. split; [done|].
    destruct (Node.metrics n) as [m|]; [|done]. by exists m. }
  destruct (queryNodes_filters this condition) as (P & HP & Hfilter).
  destruct this as [ns es]. simpl in *. rewrite !Hfilter. split.
  - apply sublist_filter.
  - rewrite list_filter_filter. apply list_filter_iff. tauto.
Qed.

Lemma foldl_status l : ∀ acc,
  let acc' := foldl (λ acc node, (countCategory node acc.1, countStatus node acc.2))
                acc l in
  Stats.achieved acc'.2
    = (Stats.achieved acc.2 + Z.of_nat (length (filter (λ n, tallyAchieved n) l)))%Z ∧
  Stats.unachieved acc'.2
    = (Stats.unachieved acc.2 + Z.of_nat (length (filter (λ n, tallyUnachieved n) l)))%Z ∧
  Stats.withModel acc'.2
    = (Stats.withModel acc.2 + Z.of_nat (length (filter (λ n, tallyWithModel n) l)))%Z ∧
  Stats.withoutModel acc'.2
    = (Stats.withoutModel acc.2 + Z.of_nat (length (filter (λ n, tallyWithoutModel n) l)))%Z ∧
  Stats.partial acc'.2 = Stats.partial acc.2.
Proof.
  induction l as [|n l IH]; intros acc; simpl; [split_and!; lia|].
  destruct (IH (countCategory n acc.1, countStatus n acc.2))
    as (-> & -> & -> & -> & ->). simpl.
  rewrite !filter_cons.
  unfold countStatus, tallyAchieved, tallyUnachieved, tallyWithModel,
    tallyWithoutModel, counted, hasModelType, truthy, achievedOf.
  destruct (Node.metrics n) as [m|]; simpl.
  - destruct (isKpi n); simpl; [|split_and!; lia].
    destruct (achieved m), (truthyModelType m); simpl; split_and!; lia.
  - rewrite !andb_false_r. simpl. split_and!; lia.
Qed.

Lemma foldl_category l byStatus : ∀ c,
  let acc := foldl (λ acc node, (countCategory node acc.1, countStatus node acc.2))
               (∅, byStatus) l in
  let k := length (filter (λ n, Node.category n = c) l) in
  acc.1 !! c
  = if decide (k = 0 ∨ c = "__proto__") then None
    else if decide (c ∈ objectPrototype) then Some (text c k)
    else Some (number (Z.of_nat k)).
Proof.
  induction l as [|n l IH] using rev_ind; intros c; cbv zeta.
  - cbn [foldl fst]. rewrite lookup_empty. case_decide as Hd; [done|].
    destruct Hd. by left.
  - rewrite foldl_snoc, filter_app, length_app. cbn [fst snd].
    set (acc := foldl (λ acc node, (countCategory node acc.1, countStatus node acc.2))
                  (∅, byStatus) l) in *.
    unfold countCategory.
    destruct (decide (Node.category n = c)) as [Heq|Hne].
    + rewrite filter_cons_True by done. simpl length. rewrite Heq.
      case_bool_decide as Hproto.
      * rewrite IH.
        do 2 (destruct (decide (_ ∨ c = "__proto__")) as [_|Hn];
                [|destruct Hn; by right]).
        done.
      * rewrite lookup_insert_eq, IH.
        set (k := length (filter (λ n0, Node.category n0 = c) l)).
        destruct (decide (k + 1 = 0 ∨ c = "__proto__")) as [[?|?]|_];
          [lia|done|].
        destruct (decide (k = 0 ∨ c = "__proto__")) as [[Hk|?]|Hk]; [|done|].
        -- rewrite Hk. simpl. case_bool_decide; by case_decide.
        -- assert (k ≠ 0) by tauto.
           destruct (decide (c ∈ objectPrototype)); simpl;
             do 2 f_equal; lia.
    + rewrite filter_cons_False by done. simpl length. rewrite Nat.add_0_r.
      case_bool_decide as Hproto; [by rewrite IH|].
      rewrite lookup_insert_ne by done. by rewrite IH.
Qed.

(** X9: calculateStats(nodes).byCategory is the histogram of the
    categories of the counted node list, with the exceptions a plain
    object brings.  A category that does not occur has no key.  A category
    that occurs is mapped to the number of nodes that have it, unless it
    is a property name of Object.prototype: '__proto__' never gets a key,
    and a name such as 'constructor' is mapped to a string, the text of
    the inherited property followed by one "1" for each node.  The four
    categories of the data model are mapped to their counts.  total is the
    length of the list and partial stays 0. *)
Theorem calculateStats_histogram this nodesArg c :
  let targetNodes := default (nodes this) nodesArg in
  let stats := calculateStats this nodesArg in
  let k := length (filter (λ n, Node.category n = c) targetNodes) in
  Stats.byCategory stats !! c
    = (if decide (k = 0 ∨ c = "__proto__") then None
       else if decide (c ∈ objectPrototype) then Some (text c k)
       else Some (number (Z.of_nat k))) ∧
  (c ∈ ["goal"; "kpi"; "design"; "verify"] →
   Stats.byCategory stats !! c
     = if decide (k = 0) then None else Some (number (Z.of_nat k))) ∧
  Stats.total stats = Z.of_nat (length targetNodes) ∧
  Stats.partial (Stats.byStatus stats) = 0%Z.
Proof.
  intros targetNodes stats k. unfold stats, calculateStats. simpl.
  fold targetNodes. rewrite foldl_category. fold k.
  split_and!; [done| |done|].
  - intros Hc.
    assert (c ≠ "__proto__" ∧ c ∉ objectPrototype) as [Hproto Hnot].
    { unfold objectPrototype.
      repeat (apply elem_of_cons in Hc as [->|Hc]; [split; [done|set_solver]|]).
      by apply elem_of_nil in Hc. }
    rewrite (decide_False (P := c ∈ objectPrototype)) by done.
    destruct (decide (k = 0)) as [Hk|Hk].
    + by rewrite decide_True by by left.
    + rewrite decide_False; [done|]. by intros [?|?].
  - by destruct (foldl_status targetNodes
       (∅, {| Stats.achieved := 0; Stats.unachieved := 0; Stats.partial := 0;
              Stats.withModel := 0; Stats.withoutModel := 0 |}))
      as (_ & _ & _ & _ & ->).
Qed.

Lemma length_filter_iff {A} (P Q : A → Prop)
    `{!∀ x, Decision (P x)} `{!∀ x, Decision (Q x)} (l : list A) :
  (∀ x, P x ↔ Q x) → length (filter P l) = length (filter Q l).
Proof. intros HPQ. by rewrite (list_filter_iff P Q). Qed.

Lemma length_filter_split {A} (P Q R : A → Prop)
    `{!∀ x, Decision (P x)} `{!∀ x, Decision (Q x)} `{!∀ x, Decision (R x)}
    (l : list A) :
  (∀ x, R x ↔ P x ∨ Q x) → (∀ x, P x → Q x → False) →
  length (filter P l) + length (filter Q l) = length (filter R l).
Proof.
  intros HR HPQ. induction l as [|x l IH]; [done|].
  rewrite !filter_cons.
  destruct (decide (P x)), (decide (Q x)), (decide (R x)); simpl;
    first [lia | exfalso; naive_solver].
Qed.

(** X10: over the whole snapshot the status counters agree with the
    status queries: byStatus.achieved, byStatus.unachieved and
    byStatus.withModel are the lengths of queryNodes({achieved: true}),
    queryNodes({achieved: false}) and queryNodes({hasModel: true}); the two
    model counters add up to the two achievement counters; but
    byStatus.withoutModel can be smaller than the length of
    queryNodes({hasModel: false}), which also returns the kpi nodes that
    have no metrics record. *)
Theorem calculateStats_matches_queries this :
  let counts := Stats.byStatus (calculateStats this None) in
  let query c := Z.of_nat (length (queryNodes this c)) in
  Stats.achieved counts
    = query {| cond_category := None; cond_achieved := Some true;
               cond_modelType := None; cond_level := None;
               cond_hasModel := None; cond_nodeIds := None |} ∧
  Stats.unachieved counts
    = query {| cond_category := None; cond_achieved := Some false;
               cond_modelType := None; cond_level := None;
               cond_hasModel := None; cond_nodeIds := None |} ∧
  Stats.withModel counts
    = query {| cond_category := None; cond_achieved := None;
               cond_modelType := None; cond_level := None;
               cond_hasModel := Some true; cond_nodeIds := None |} ∧
  (Stats.withoutModel counts
    + Z.of_nat (length (filter (λ n, Node.category n = "kpi"
                                     ∧ Node.metrics n = None) (nodes this)))
    = query {| cond_category := None; cond_achieved := None;
               cond_modelType := None; cond_level := None;
               cond_hasModel := Some false; cond_nodeIds := None |})%Z ∧
  (Stats.withModel counts + Stats.withoutModel counts
   = Stats.achieved counts + Stats.unachieved counts)%Z.
Proof.
  intros counts query. unfold counts, query, calculateStats, queryNodes. simpl.
  destruct (foldl_status (nodes this)
       (∅, {| Stats.achieved := 0; Stats.unachieved := 0; Stats.partial := 0;
              Stats.withModel := 0; Stats.withoutModel := 0 |}))
    as (-> & -> & -> & -> & _). simpl.
  split_and!.
  - rewrite Z.add_0_l. f_equal. apply length_filter_iff. intros n.
    unfold tallyAchieved, counted, isKpi, truthy, achievedOf.
    destruct (Node.metrics n) as [[[] ? ? ?]|]; simpl;
      rewrite ?andb_True, ?bool_decide_spec; naive_solver.
  - rewrite Z.add_0_l. f_equal. apply length_filter_iff. intros n.
    unfold tallyUnachieved, counted, isKpi, truthy, achievedOf.
    destruct (Node.metrics n) as [[[] ? ? ?]|]; simpl;
      rewrite ?andb_True, ?bool_decide_spec; naive_solver.
  - rewrite Z.add_0_l. f_equal. apply length_filter_iff. intros n.
    unfold tallyWithModel, isKpi. rewrite !andb_True, !bool_decide_spec.
    destruct (hasModelType n); naive_solver.
  - rewrite Z.add_0_l, <- Nat2Z.inj_add. f_equal. apply length_filter_split.
    + intros n. unfold tallyWithoutModel, counted, isKpi, hasModelType,
        truthyModelType.
      destruct (Node.metrics n) as [[? [[?|]|] ? ?]|]; simpl;
        rewrite ?andb_True, ?bool_decide_spec; naive_solver.
    + intros n. unfold tallyWithoutModel, counted.
      intros H [_ Hnone]. rewrite Hnone in H. simpl in H.
      by rewrite andb_false_r in H.
  - rewrite !Z.add_0_l, <- !Nat2Z.inj_add. f_equal.
    rewrite (length_filter_split (λ n, tallyWithModel n)
               (λ n, tallyWithoutModel n) (λ n, counted n)),
            (length_filter_split (λ n, tallyAchieved n)
               (λ n, tallyUnachieved n) (λ n, counted n)); [done|..];
      intros n;
      unfold tallyAchieved, tallyUnachieved, tallyWithModel, tallyWithoutModel,
        counted, isKpi, hasModelType, truthyModelType, truthy, achievedOf;
      destruct (Node.metrics n) as [[[] [[?|]|] ? ?]|];
      destruct (bool_decide (Node.category n = "kpi")); simpl; naive_solver.
Qed.

Lemma connectedIds_elem es x direction : ∀ (acc : gset string) y,
  y ∈ foldl (λ (connectedIds : gset string) edge,
        let connectedIds :=
          if bool_decide (direction = incoming ∨ direction = both)
             && bool_decide (Edge.target edge = x)
          then {[Edge.source edge]} ∪ connectedIds else connectedIds in
        if bool_decide (direction = outgoing ∨ direction = both)
           && bool_decide (Edge.source edge = x)
        then {[Edge.target edge]} ∪ connectedIds else connectedIds) acc es
  ↔ y ∈ acc
    ∨ ∃ e, e ∈ es ∧
        (((direction = incoming ∨ direction = both)
          ∧ Edge.target e = x ∧ Edge.source e = y)
         ∨ ((direction = outgoing ∨ direction = both)
            ∧ Edge.source e = x ∧ Edge.target e = y)).
Proof.
  induction es as [|e es IH]; intros acc y.
  - simpl. split; [by left|]. intros [?|(e & He%elem_of_nil & _)]; done.
  - cbn [foldl]. rewrite IH. clear IH. cbv zeta.
    assert (∀ Q : Edge.t → Prop,
              (∃ e', e' ∈ e :: es ∧ Q e') ↔ Q e ∨ ∃ e', e' ∈ es ∧ Q e') as Hcons.
    { intros Q. split.
      - intros (e' & [->|?]%elem_of_cons & ?); eauto.
      - intros [?|(e' & ? & ?)]; [exists e|exists e']; split; try done;
          [by left|by right]. }
    rewrite Hcons. clear Hcons.
    destruct (bool_decide (direction = incoming ∨ direction = both)) eqn:Hin;
      destruct (bool_decide (direction = outgoing ∨ direction = both)) eqn:Hout;
      destruct (bool_decide (Edge.target e = x)) eqn:Ht;
      destruct (bool_decide (Edge.source e = x)) eqn:Hs; simpl;
      (apply bool_decide_eq_true in Hin || apply bool_decide_eq_false in Hin);
      (apply bool_decide_eq_true in Hout || apply bool_decide_eq_false in Hout);
      (apply bool_decide_eq_true in Ht || apply bool_decide_eq_false in Ht);
      (apply bool_decide_eq_true in Hs || apply bool_decide_eq_false in Hs);
      rewrite ?elem_of_union, ?elem_of_singleton;
      generalize (∃ e', e' ∈ es ∧
        (((direction = incoming ∨ direction = both)
          ∧ Edge.target e' = x ∧ Edge.source e' = y)
         ∨ ((direction = outgoing ∨ direction = both)
            ∧ Edge.source e' = x ∧ Edge.target e' = y)));
      intros R; naive_solver.
Qed.

Lemma getConnectedNodes_elem this x direction n :
  n ∈ getConnectedNodes this x direction ↔
  n ∈ nodes this ∧
  (((direction = incoming ∨ direction = both) ∧ upstream this x (Node.id n))
   ∨ ((direction = outgoing ∨ direction = both) ∧ downstream this x (Node.id n))).
Proof.
  unfold getConnectedNodes. rewrite list_elem_of_filter, connectedIds_elem.
  unfold upstream, downstream. split.
  - intros ([?%not_elem_of_empty|(e & He & [H|H])] & Hn); [done|..];
      (split; [done|]); [left|right]; (split; [tauto|exists e; tauto]).
  - intros (Hn & [(Hd & e & He & H)|(Hd & e & He & H)]);
      (split; [|done]); right; exists e; tauto.
Qed.

(** X11: getConnectedNodes returns the node objects of the snapshot, in
    snapshot order, that sit at the other end of an edge at nodeId:
    sources of incoming edges for 'incoming', targets of outgoing edges for
    'outgoing', either for 'both'.  An edge whose other end has no node
    object contributes nothing. *)
Theorem getConnectedNodes_spec this x n :
  (n ∈ getConnectedNodes this x incoming
   ↔ n ∈ nodes this ∧ upstream this x (Node.id n)) ∧
  (n ∈ getConnectedNodes this x outgoing
   ↔ n ∈ nodes this ∧ downstream this x (Node.id n)) ∧
  (n ∈ getConnectedNodes this x both
   ↔ n ∈ getConnectedNodes this x incoming
     ∨ n ∈ getConnectedNodes this x outgoing) ∧
  (∀ direction, sublist (getConnectedNodes this x direction) (nodes this)).
Proof.
  rewrite !getConnectedNodes_elem. split_and!.
  - split; [intros (? & [[_ ?]|[[?|?] _]]); done|]. intros [? ?]. eauto.
  - split; [intros (? & [[[?|?] _]|[_ ?]]); done|]. intros [? ?]. eauto.
  - split.
    + intros (? & [[_ ?]|[_ ?]]); [left|right]; eauto.
    + intros [(? & [[_ ?]|[[?|?] _]])|(? & [[[?|?] _]|[_ ?]])]; try done; eauto.
  - intros direction. apply sublist_filter.
Qed.

(** X12: a direct neighbour is always in the corresponding closure: the
    identifier of every node of getConnectedNodes(x, 'incoming') is in
    traceImpact(x).nodes, of every node of getConnectedNodes(x, 'outgoing')
    in traceDependencies(x).nodes, and, when x is in the snapshot, of every
    node of getConnectedNodes(x, 'both') in traceChain([x]).nodes. *)
Theorem neighbours_in_closure this x :
  (∃ r, traceImpact this x = Some r ∧
     ∀ n, n ∈ getConnectedNodes this x incoming → Node.id n ∈ ChainResult.nodes r) ∧
  (∃ r, traceDependencies this x = Some r ∧
     ∀ n, n ∈ getConnectedNodes this x outgoing → Node.id n ∈ ChainResult.nodes r) ∧
  (∃ r, traceChain this [x] = Some r ∧
     (present this x →
      ∀ n, n ∈ getConnectedNodes this x both → Node.id n ∈ ChainResult.nodes r)).
Proof.
  split_and!.
  - destruct (traceImpact_spec this x) as (r & Hr & Hspec). exists r.
    split; [done|]. intros n (_ & [[_ H]|[[?|?] _]])%getConnectedNodes_elem; [|done..].
    apply Hspec. by apply rtc_once.
  - destruct (traceDependencies_spec this x) as (r & Hr & Hspec). exists r.
    split; [done|]. intros n (_ & [[[?|?] _]|[_ H]])%getConnectedNodes_elem; [done..|].
    apply Hspec. by apply rtc_once.
  - destruct (traceChain_spec this [x]) as (r & Hr & Hspec). exists r.
    split; [done|]. intros Hx n (_ & Hn)%getConnectedNodes_elem.
    apply Hspec. exists x. split_and!; [by left|done|].
    apply rtc_once. destruct Hn as [[_ ?]|[_ ?]]; [by left|by right].
Qed.

(** X13: queryEdges returns, in edge-list order, the edges that touch the
    given identifiers: an edge is returned exactly when its source or its
    target is among nodeIds and, if a non-empty relationship is given, its
    relationship is that one.  With no identifiers the result is empty,
    and an empty-string relationship filters nothing. *)
Theorem queryEdges_spec this nodeIds relationship :
  (∀ e, e ∈ queryEdges this nodeIds relationship ↔
     e ∈ edges this
     ∧ (Edge.source e ∈ nodeIds ∨ Edge.target e ∈ nodeIds)
     ∧ match relationship with
       | Some r => r = "" ∨ Edge.relationship e = Some r
       | None => True
       end) ∧
  sublist (queryEdges this nodeIds relationship) (edges this) ∧
  queryEdges this [] relationship = [] ∧
  queryEdges this nodeIds (Some "") = queryEdges this nodeIds None.
Proof.
  split_and!.
  - intros e. unfold queryEdges. rewrite list_elem_of_filter. cbv zeta.
    destruct relationship as [r|]; repeat case_bool_decide; simpl;
      rewrite ?elem_of_list_to_set in *; naive_solver.
  - apply sublist_filter.
  - unfold queryEdges. induction (edges this) as [|e es IH]; [done|].
    rewrite filter_cons_False; [done|]. simpl.
    rewrite !bool_decide_eq_false_2 by set_solver. done.
  - unfold queryEdges. apply list_filter_iff. intros e. simpl.
    destruct (negb _); done.
Qed.

Lemma relatedKPIs_elem ns es d : ∀ (acc : gset string) y,
  y ∈ foldl (λ (relatedKPIs : gset string) edge,
        if bool_decide (Edge.target edge = d) then
          match findNode ns (Edge.source edge) with
          | Some sourceNode =>
            if bool_decide (Node.category sourceNode = "kpi")
            then {[Edge.source edge]} ∪ relatedKPIs else relatedKPIs
          | None => relatedKPIs
          end
        else relatedKPIs) acc es
  ↔ y ∈ acc
    ∨ ∃ e m, e ∈ es ∧ Edge.target e = d ∧ Edge.source e = y
             ∧ findNode ns y = Some m ∧ Node.category m = "kpi".
Proof.
  induction es as [|e es IH]; intros acc y.
  - simpl. split; [by left|]. intros [?|(e & m & He%elem_of_nil & _)]; done.
  - cbn [foldl]. rewrite IH. clear IH. split.
    + intros [Hy|(e' & m & He' & H)].
      * case_bool_decide as Ht; [|by left].
        destruct (findNode ns (Edge.source e)) as [m|] eqn:Hm; [|by left].
        case_bool_decide as Hc; [|by left].
        apply elem_of_union in Hy as [->%elem_of_singleton|?]; [|by left].
        right. exists e, m. split_and!; [by left|done..].
      * right. exists e', m. split; [by right|done].
    + intros [Hy|(e' & m & [->|He']%elem_of_cons & Ht & Hs & Hm & Hc)].
      * left. case_bool_decide; [|done].
        destruct (findNode ns (Edge.source e)); [|done].
        case_bool_decide; set_solver.
      * left. rewrite bool_decide_eq_true_2 by done. rewrite Hs, Hm.
        rewrite bool_decide_eq_true_2 by done. set_solver.
      * right. by exists e', m.
Qed.

Lemma findNode_Some ns i m :
  findNode ns i = Some m → m ∈ ns ∧ Node.id m = i.
Proof.
  unfold findNode. intros [Hin Hid]%find_some.
  split; [by apply list_elem_of_In|by apply bool_decide_eq_true in Hid].
Qed.

Lemma findNode_unique ns n :
  NoDup (Node.id <$> ns) → n ∈ ns → findNode ns (Node.id n) = Some n.
Proof.
  induction ns as [|m ns IH]; intros Hnd Hn; [by apply elem_of_nil in Hn|].
  rewrite fmap_cons in Hnd. apply NoDup_cons in Hnd as [Hm Hnd].
  unfold findNode. simpl. case_bool_decide as Heq.
  - apply elem_of_cons in Hn as [->|Hn]; [done|].
    destruct Hm. rewrite Heq. by apply list_elem_of_fmap_2.
  - apply elem_of_cons in Hn as [->|Hn]; [done|]. by apply IH.
Qed.

(** X14: findSharedDesignParams(d) returns nodes that are incoming
    neighbours of d, in snapshot order: a node is returned exactly when an
    edge runs from its identifier to d and the first node object with that
    identifier is a kpi.  When node identifiers are unique, the result is
    exactly the kpi nodes among getConnectedNodes(d, 'incoming'). *)
Theorem findSharedDesignParams_spec this d
    (Hids : NoDup (Node.id <$> nodes this)) :
  (∀ n, n ∈ findSharedDesignParams this d
        ↔ n ∈ getConnectedNodes this d incoming ∧ Node.category n = "kpi") ∧
  (∀ g n, n ∈ findSharedDesignParams g d
        ↔ n ∈ nodes g ∧ upstream g d (Node.id n)
          ∧ ∃ m, findNode (nodes g) (Node.id n) = Some m
                 ∧ Node.category m = "kpi") ∧
  (∀ g, sublist (findSharedDesignParams g d) (getConnectedNodes g d incoming)).
Proof.
  assert (∀ g n, n ∈ findSharedDesignParams g d
        ↔ n ∈ nodes g ∧ upstream g d (Node.id n)
          ∧ ∃ m, findNode (nodes g) (Node.id n) = Some m
                 ∧ Node.category m = "kpi") as Hgen.
  { intros g n. unfold findSharedDesignParams.
    rewrite list_elem_of_filter, relatedKPIs_elem. split.
    - intros ([?%not_elem_of_empty|(e & m & He & Ht & Hs & Hm & Hc)] & Hn); [done|].
      split_and!; [done|by exists e|by exists m].
    - intros (Hn & (e & He & Ht & Hs) & m & Hm & Hc). split; [|done].
      right. by exists e, m. }
  split_and!; [|done|].
  - intros n. rewrite Hgen, getConnectedNodes_elem. split.
    + intros (Hn & Hup & m & Hm & Hc). rewrite findNode_unique in Hm by done.
      simplify_eq. split; [|done]. split; [done|]. left. eauto.
    + intros ((Hn & [[_ Hup]|[[?|?] _]]) & Hc); [|done..].
      split_and!; [done..|]. exists n. split; [by apply findNode_unique|done].
  - intros g. unfold findSharedDesignParams, getConnectedNodes.
    match goal with
    | |- sublist (filter ?P _) (filter ?Q ?l) =>
      assert (filter P l = filter P (filter Q l)) as ->; [|apply sublist_filter]
    end.
    rewrite list_filter_filter. apply list_filter_iff. intros n.
    split; [|tauto]. intros HK. split; [done|].
    apply connectedIds_elem.
    apply relatedKPIs_elem in HK
      as [?%not_elem_of_empty|(e & m & He & Ht & Hs & Hm & Hc)]; [done|].
    right. exists e. split; [done|]. left. eauto.
Qed.

Lemma findSharedDesignParams_spec_witness :
  mkKpi "K2" false None ∈ getConnectedNodes (engine coupled) "D1" incoming
  ∧ Node.category (mkKpi "K2" false None) = "kpi".
Proof.
  destruct (findSharedDesignParams_spec (engine coupled) "D1") as [Hspec _].
  - apply (bool_decide_unpack _). vm_compute. exact I.
  - apply Hspec. vm_compute. repeat constructor.
Defined.

(** ** The analyzer *)

Lemma scoreKpi_elem this kpi impact p :
  p ∈ scoreKpi this kpi impact →
  Priority.nodeId p = Node.id kpi ∧ Priority.category p = Node.category kpi ∧
  (Z.min (Z.of_nat impact) 20 ≤ Priority.priorityScore p ≤ 130)%Z ∧
  (truthy (achievedOf kpi) = false → 50 ≤ Priority.priorityScore p)%Z.
Proof.
  unfold scoreKpi.
  destruct (truthy (achievedOf kpi)), (negb (hasModelType kpi)),
    (negb (existsb _ _)), (bool_decide (Node.level kpi = Some 1%Z)); simpl;
    match goal with
    | |- context [(0 <? ?s)%Z] => destruct (Z.ltb_spec 0 s)
    end;
    intros Hp; try (by apply elem_of_nil in Hp);
    apply list_elem_of_singleton in Hp as ->; simpl;
    split_and!; try done; try lia.
Qed.

Lemma priorities_elem this kpis : ∀ ps p,
  priorities this kpis = Some ps → p ∈ ps →
  ∃ kpi impact, kpi ∈ kpis ∧ p ∈ scoreKpi this kpi impact.
Proof.
  induction kpis as [|kpi kpis IH]; intros ps p Hps Hp; simpl in Hps.
  - simplify_eq. by apply elem_of_nil in Hp.
  - destruct (traceDependencies _ _) as [r|]; [|done]. simpl in Hps.
    destruct (priorities this kpis) as [rest|]; [|done]. simpl in Hps.
    simplify_eq. apply elem_of_app in Hp as [Hp|Hp].
    + exists kpi, (size (ChainResult.nodes r)). split; [by left|done].
    + destruct (IH rest p eq_refl Hp) as (k & i & ? & ?).
      exists k, i. split; [by right|done].
Qed.

Lemma prioritizeNodes_entries this :
  ∃ ps0,
    priorities this (filter (λ n, Node.category n = "kpi") (nodes (engine this)))
      = Some ps0 ∧
    prioritizeNodes this
      = Some (sort (λ a b, (Priority.priorityScore b
                            - Priority.priorityScore a)%Z) ps0) ∧
    ∀ p, p ∈ ps0 → (1 ≤ Priority.priorityScore p)%Z.
Proof.
  destruct (priorities_spec this
              (filter (λ n, Node.category n = "kpi") (nodes (engine this))))
    as (ps0 & Hps0 & Hall).
  exists ps0. split_and!; [done| |].
  - unfold prioritizeNodes. by rewrite queryNodes_kpi, filter_kpi, Hps0.
  - intros p [i Hi]%list_elem_of_lookup.
    destruct (Forall2_lookup_r _ _ _ _ _ Hall Hi) as (kpi & _ & _ & Hscore). done.
Qed.

(** X15: prioritizeNodes returns its entries in order of priorityScore,
    largest first; every entry stands for a kpi node of the snapshot, its
    score lies between 1 and 130, and an entry whose score is below 50
    belongs to a kpi that is achieved. *)
Theorem prioritizeNodes_ranked this :
  ∃ ps, prioritizeNodes this = Some ps ∧
    StronglySorted
      (λ a b, Priority.priorityScore b ≤ Priority.priorityScore a)%Z ps ∧
    ∀ p, p ∈ ps →
      (1 ≤ Priority.priorityScore p ≤ 130)%Z ∧
      ∃ kpi, kpi ∈ nodes (engine this) ∧ Node.category kpi = "kpi"
             ∧ Priority.nodeId p = Node.id kpi
             ∧ Priority.category p = "kpi"
             ∧ ((Priority.priorityScore p < 50)%Z →
                achieved <$> Node.metrics kpi = Some true).
Proof.
  destruct (prioritizeNodes_entries this) as (ps0 & Hps0 & Hrun & Hscore).
  eexists. split; [exact Hrun|]. split.
  - apply (sort_descending Priority.priorityScore).
  - intros p Hp. rewrite elem_of_sort in Hp. split.
    + destruct (priorities_elem _ _ _ _ Hps0 Hp) as (kpi & impact & _ & Hin).
      apply scoreKpi_elem in Hin as (_ & _ & Hb & _).
      specialize (Hscore p Hp). lia.
    + destruct (priorities_elem _ _ _ _ Hps0 Hp) as (kpi & impact & Hkpi & Hin).
      apply list_elem_of_filter in Hkpi as [Hcat Hkpi].
      apply scoreKpi_elem in Hin as (Hid & Hc & _ & Hun).
      exists kpi. split_and!; [done..|congruence|].
      intros Hlt. unfold truthy, achievedOf in Hun.
      destruct (Node.metrics kpi) as [[[] ? ? ?]|]; simpl in *; [done|..];
        specialize (Hun eq_refl); lia.
Qed.

(** X16: an entry of analyzeCorrelations is 'weak' exactly when the pair
    shares no design neighbour, and then it shares at least one verify
    neighbour; no entry has both counts 0.  The two kpis of an entry are
    kpi nodes of the snapshot, kpi1 standing before kpi2, and an achieved
    flag is true only for a kpi whose metrics record says so. *)
Theorem analyzeCorrelations_entries this :
  ∀ c, c ∈ analyzeCorrelations this →
    (Correlation.correlationStrength c = weak
     ↔ Correlation.sharedDesignParams c = 0%Z) ∧
    (Correlation.correlationStrength c = weak →
     1 ≤ Correlation.sharedVerifications c)%Z ∧
    (0 ≤ Correlation.sharedDesignParams c)%Z ∧
    (0 ≤ Correlation.sharedVerifications c)%Z ∧
    (1 ≤ Correlation.sharedDesignParams c + Correlation.sharedVerifications c)%Z ∧
    ∃ i j kpi1 kpi2, i < j
      ∧ filter (λ n, Node.category n = "kpi") (nodes (engine this)) !! i = Some kpi1
      ∧ filter (λ n, Node.category n = "kpi") (nodes (engine this)) !! j = Some kpi2
      ∧ Correlation.id (Correlation.kpi1 c) = Node.id kpi1
      ∧ Correlation.id (Correlation.kpi2 c) = Node.id kpi2
      ∧ (Correlation.achieved (Correlation.kpi1 c) = true
         ↔ achieved <$> Node.metrics kpi1 = Some true)
      ∧ (Correlation.achieved (Correlation.kpi2 c) = true
         ↔ achieved <$> Node.metrics kpi2 = Some true).
Proof.
  intros c Hc.
  destruct (correlations_entry this c Hc) as (Hpos & Hd & Hv & _ & _ & Hweak).
  split_and!; [rewrite Hweak, Hd; lia|rewrite Hweak, Hv; lia|lia..|].
  apply elem_of_analyzeCorrelations, elem_of_correlations in Hc
    as (i & j & kpi1 & kpi2 & Hij & H1 & H2 & Hc).
  exists i, j, kpi1, kpi2. split_and!; [done..| | | |];
    unfold correlate in Hc; destruct (_ || _) in Hc;
    try (by apply elem_of_nil in Hc);
    apply list_elem_of_singleton in Hc as ->; simpl; try done;
    unfold truthy, achievedOf;
    match goal with
    | |- context [Node.metrics ?k] =>
      destruct (Node.metrics k) as [[[] ? ? ?]|]; simpl; naive_solver
    end.
Qed.

Lemma analyzeCorrelations_entries_witness :
  ∃ c, head (analyzeCorrelations coupled) = Some c
       ∧ (1 ≤ Correlation.sharedDesignParams c
              + Correlation.sharedVerifications c)%Z.
Proof.
  destruct (analyzeCorrelations coupled) as [|c l] eqn:E;
    [by vm_compute in E|].
  exists c. split; [done|].
  apply (analyzeCorrelations_entries coupled c).
  rewrite E. left.
Defined.

(** X17: what assessRisk can return for each category.  Only a kpi node
    can be 'high', only a kpi or a design node can be 'medium'; a kpi that
    is not achieved and has no model type is always 'high'; and a node
    with no risk factor is 'low'.  There are never more than five factors. *)
Theorem assessRisk_levels node upstream downstream :
  let '(level, factors) := assessRisk node upstream downstream in
  (level = Dependency.high → Node.category node = "kpi") ∧
  (level = Dependency.medium →
   Node.category node = "kpi" ∨ Node.category node = "design") ∧
  (Node.category node = "kpi" → truthy (achievedOf node) = false →
   hasModelType node = false → level = Dependency.high) ∧
  (factors = [] → level = Dependency.low) ∧
  length factors ≤ 5.
Proof.
  unfold assessRisk, riskTally, isKpi.
  destruct (bool_decide (Node.category node = "kpi")) eqn:Hk;
    destruct (bool_decide (Node.category node = "design")) eqn:Hd;
    (apply bool_decide_eq_true in Hk || apply bool_decide_eq_false in Hk);
    (apply bool_decide_eq_true in Hd || apply bool_decide_eq_false in Hd);
    destruct (truthy (achievedOf node)), (hasModelType node),
      (existsb _ downstream), (5 <? length upstream)%nat,
      (8 <? length downstream)%nat; simpl;
    split_and!; try done; try lia; try (intros; by eauto); try congruence.
Qed.

Lemma ascending_snoc this l a b :
  ascending this (l ++ [a]) → downstream this a b →
  ascending this ((l ++ [a]) ++ [b]).
Proof.
  intros Hl Hab. induction l as [|x l IH]; simpl in *; [done|].
  destruct (l ++ [a]) as [|y l'] eqn:Hl'; [by destruct l|].
  simpl in *. destruct Hl as [Hxy Hl]. split; [done|]. by apply IH.
Qed.

Lemma parentOf_Some this x parent :
  parentOf this x = Some parent →
  parent ∈ nodes (engine this) ∧ downstream (engine this) (Node.id parent) x ∧
  (Node.category parent = "goal" ∨ Node.category parent = "kpi").
Proof.
  unfold parentOf. intros [Hin Hcat]%find_some.
  apply list_elem_of_In, getConnectedNodes_elem in Hin as (Hn & [[_ Hup]|[[?|?] _]]);
    [|done..].
  split_and!; [done|by apply upstream_downstream|].
  apply orb_true_iff in Hcat as [?%bool_decide_eq_true|?%bool_decide_eq_true]; eauto.
Qed.

Lemma criticalPathLoop_spec this fuel : ∀ path cur r,
  criticalPathLoop this fuel path cur = Some r →
  ∃ pre, r = pre ++ path ∧
    ascending (engine this) (pre ++ [cur]) ∧
    (∀ i, i ∈ pre → ∃ n, n ∈ nodes (engine this) ∧ Node.id n = i
                        ∧ (Node.category n = "goal" ∨ Node.category n = "kpi")) ∧
    (parentOf this (hd cur pre) = None
     ∨ (pre ≠ [] ∧ ∃ n, n ∈ nodes (engine this) ∧ Node.id n = hd cur pre
                        ∧ Node.category n = "goal")).
Proof.
  induction fuel as [|fuel IH]; intros path cur r Hrun; [done|].
  simpl in Hrun. fold (parentOf this cur) in Hrun.
  destruct (parentOf this cur) as [parent|] eqn:Hparent.
  - destruct (parentOf_Some _ _ _ Hparent) as (Hin & Hdown & Hcat).
    case_bool_decide as Hgoal.
    + simplify_eq. exists [Node.id parent]. split_and!; [done|done| |].
      * intros i ->%list_elem_of_singleton. by exists parent.
      * right. split; [done|]. by exists parent.
    + apply IH in Hrun as (pre & -> & Hasc & Hall & Hstop).
      exists (pre ++ [Node.id parent]). split_and!.
      * by rewrite <- app_assoc.
      * by apply ascending_snoc.
      * intros i [Hi| ->%list_elem_of_singleton]%elem_of_app; [by apply Hall|].
        by exists parent.
      * assert (hd cur (pre ++ [Node.id parent]) = hd (Node.id parent) pre) as ->
          by by destruct pre.
        destruct Hstop as [?|[Hne ?]]; [by left|right]. split; [|done].
        by destruct pre.
  - simplify_eq. exists []. split_and!; [done|done| |by left].
    by intros i ?%elem_of_nil.
Qed.

Lemma criticalPathLoop_mono this fuel : ∀ fuel' path cur r,
  criticalPathLoop this fuel path cur = Some r → fuel ≤ fuel' →
  criticalPathLoop this fuel' path cur = Some r.
Proof.
  induction fuel as [|fuel IH]; intros fuel' path cur r Hrun Hle; [done|].
  destruct fuel' as [|fuel']; [lia|]. simpl in *.
  destruct (List.find _ _) as [parent|]; [|done].
  case_bool_decide; [done|]. apply IH; [done|lia].
Qed.

(** X18: when the critical-path loop returns, on a budget of [fuel]
    iterations, the path it returns ends at nodeId, each of its elements has
    an edge to the next, every element before nodeId is the identifier of a
    goal or kpi node of the snapshot, and its first element is either a
    goal or a node without goal or kpi parent; any larger budget gives the
    same path. *)
Theorem calculateCriticalPath_spec this fuel nodeId path
    (Hrun : calculateCriticalPath this fuel nodeId = Some path) :
  last path = Some nodeId ∧
  ascending (engine this) path ∧
  (∀ i, i ∈ path → i = nodeId ∨
     ∃ n, n ∈ nodes (engine this) ∧ Node.id n = i
          ∧ (Node.category n = "goal" ∨ Node.category n = "kpi")) ∧
  (∃ top, head path = Some top ∧
     (parentOf this top = None
      ∨ (2 ≤ length path ∧
         ∃ n, n ∈ nodes (engine this) ∧ Node.id n = top
              ∧ Node.category n = "goal"))) ∧
  (∀ fuel', fuel ≤ fuel' → calculateCriticalPath this fuel' nodeId = Some path).
Proof.
  unfold calculateCriticalPath in *.
  pose proof (criticalPathLoop_spec _ _ _ _ _ Hrun) as (pre & -> & Hasc & Hall & Hstop).
  split_and!.
  - by rewrite last_snoc.
  - done.
  - intros i [Hi| ->%list_elem_of_singleton]%elem_of_app; [right; by apply Hall|by left].
  - exists (hd nodeId pre). split; [by destruct pre|].
    destruct Hstop as [?|[Hne ?]]; [by left|right]. split; [|done].
    rewrite length_app. simpl. destruct pre; [done|simpl; lia].
  - intros fuel' Hle. by eapply criticalPathLoop_mono.
Qed.

Lemma calculateCriticalPath_spec_witness :
  last ["G"; "K"; "D"] = Some "D" ∧ ascending (engine ladder) ["G"; "K"; "D"].
Proof.
  destruct (calculateCriticalPath_spec ladder 3 "D" ["G"; "K"; "D"])
    as (H1 & H2 & _); [vm_compute; reflexivity|].
  exact (conj H1 H2).
Defined.

(** X19: the critical-path loop has no visited set.  If some set of
    identifiers is closed under taking the parent (the first goal or kpi
    incoming neighbour) and holds no goal parent, as two kpi nodes with
    edges to each other are, then from a node of the set the loop never
    reaches a break: no budget of iterations returns a path, and
    analyzeDependencies does not return for a node of the set that the
    analyzer knows. *)
Theorem calculateCriticalPath_diverges this (C : string → Prop) nodeId
    (Hclosed : ∀ x, C x → ∃ parent, parentOf this x = Some parent
                                    ∧ Node.category parent ≠ "goal"
                                    ∧ C (Node.id parent))
    (Hstart : C nodeId) :
  (∀ fuel, calculateCriticalPath this fuel nodeId = None) ∧
  (∀ fuel, is_Some (findNode (analyzer_nodes this) nodeId) →
           analyzeDependencies this fuel nodeId = None).
Proof.
  assert (∀ fuel path x, C x → criticalPathLoop this fuel path x = None) as Hloop.
  { induction fuel as [|fuel IH]; intros path x Hx; [done|]. simpl.
    destruct (Hclosed x Hx) as (parent & Hparent & Hcat & Hp).
    unfold parentOf in Hparent. rewrite Hparent.
    rewrite bool_decide_eq_false_2 by done. by apply IH. }
  split.
  - intros fuel. by apply Hloop.
  - intros fuel [node Hnode]. unfold analyzeDependencies, calculateCriticalPath.
    rewrite Hnode, Hloop by done. done.
Qed.

Lemma calculateCriticalPath_diverges_witness :
  calculateCriticalPath loop2 100 "K1" = None.
Proof.
  apply (calculateCriticalPath_diverges loop2 (λ x, x = "K1" ∨ x = "K2") "K1").
  - intros x [->| ->].
    + exists (mkNode "K2" "kpi"). split_and!; [vm_compute; reflexivity|done|by right].
    + exists (mkNode "K1" "kpi"). split_and!; [vm_compute; reflexivity|done|by left].
  - by left.
Defined.

(** ** The parser: entities *)

Lemma append_nil_r s : s +:+ "" = s.
Proof. induction s as [|a s IH]; [done|]. rewrite append_String. by f_equal. Qed.

Lemma append_assoc s t u : (s +:+ t) +:+ u = s +:+ (t +:+ u).
Proof. induction s as [|a s IH]; [done|]. rewrite !append_String. by f_equal. Qed.

Lemma length_append s t :
  String.length (s +:+ t) = String.length s + String.length t.
Proof. induction s as [|a s IH]; [done|]. rewrite append_String. simpl. lia. Qed.

Lemma substring_append s t : substring 0 (String.length s) (s +:+ t) = s.
Proof.
  induction s as [|a s IH]; [by destruct t|].
  rewrite append_String. simpl. by f_equal.
Qed.

Lemma behind_refl c : behind c c.
Proof. by exists "". Qed.

Lemma behind_trans c1 c2 c3 : behind c1 c2 → behind c2 c3 → behind c1 c3.
Proof.
  intros [p1 H1] [p2 H2]. exists (p2 +:+ p1). by rewrite H2, H1, append_assoc.
Qed.

Lemma literal_behind ic s : ∀ c c', literal ic s c = Some c' → behind c' c.
Proof.
  induction s as [|a s IH]; intros c c' Hl; simpl in Hl.
  - simplify_eq. apply behind_refl.
  - destruct (rest c) as [|b r] eqn:Hr; [done|].
    destruct (sameChar ic a b); [|done].
    apply IH in Hl as [pre Hpre]. simpl in Hpre.
    exists (String b pre). by rewrite Hr, Hpre.
Qed.

(** A match only consumes input: whatever the pattern, the cursor the
    matcher returns is behind the one it started from. *)
Lemma matcher_behind ic r : ∀ k c c',
  (∀ c1 c2, k c1 = Some c2 → behind c2 c1) →
  matcher ic r k c = Some c' → behind c' c.
Proof.
  induction r as [|s|p|r1 IH1 r2 IH2|r1 IH1 r2 IH2|r1 IH1| |];
    intros k c c' Hk Hm; simpl in Hm.
  - by apply Hk.
  - destruct (literal ic s c) as [c1|] eqn:Hl; [|done]. simpl in Hm.
    eapply behind_trans; [by apply Hk|by eapply literal_behind].
  - destruct (rest c) as [|b t] eqn:Hr; [done|].
    destruct (p b); [|done]. apply Hk in Hm as [pre Hpre]. simpl in Hpre.
    exists (String b pre). by rewrite Hr, Hpre.
  - eapply IH1; [|done]. intros c1 c2. by apply IH2.
  - destruct (matcher ic r1 k c) as [c1|] eqn:H1.
    + simplify_eq. by eapply IH1.
    + by eapply IH2.
  - revert Hm. generalize (String.length (rest c)).
    intros n. revert c c'. induction n as [|n IHn]; intros c c' Hm; [by apply Hk|].
    destruct (matcher ic r1 _ c) as [c1|] eqn:H1; [|by apply Hk].
    simplify_eq. eapply IH1; [|done].
    intros c1 c2 Hc. cbv beta in Hc. case_match; [|done]. by eapply IHn.
  - destruct (atBoundary c); [by apply Hk|done].
  - destruct (before c); [done|by apply Hk].
Qed.

Lemma matched_occurs b s c' :
  behind c' {| before := b; rest := s |} →
  ∃ post, s = matched {| before := b; rest := s |} c' +:+ post.
Proof.
  intros [pre Hpre]. simpl in Hpre. exists (rest c'). unfold matched. simpl.
  rewrite Hpre at 1 2 3. rewrite length_append.
  replace (String.length pre + String.length (rest c') - String.length (rest c'))
    with (String.length pre) by lia.
  by rewrite substring_append.
Qed.

Lemma scan_occurs ic r s : ∀ skip b m,
  m ∈ scan ic r skip b s → occurs m s.
Proof.
  induction s as [|a s IH]; intros skip b m Hm.
  - simpl in Hm. destruct skip; [|by apply elem_of_nil in Hm].
    destruct (matcher ic r Some _) as [c'|] eqn:Hc; [|by apply elem_of_nil in Hm].
    apply list_elem_of_singleton in Hm as ->.
    apply matcher_behind in Hc; [|intros ?? [= ->]; apply behind_refl].
    destruct (matched_occurs _ _ _ Hc) as [post Hpost]. by exists "", post.
  - assert (∀ sk, m ∈ scan ic r sk (Some a) s → occurs m (String a s)) as Hnext.
    { intros sk (pre & post & ->)%IH. by exists (String a pre), post. }
    simpl in Hm. destruct skip; [|by eapply Hnext].
    destruct (matcher ic r Some _) as [c'|] eqn:Hc; [|by eapply Hnext].
    apply elem_of_cons in Hm as [->|Hm]; [|by eapply Hnext].
    apply matcher_behind in Hc; [|intros ?? [= ->]; apply behind_refl].
    destruct (matched_occurs _ _ _ Hc) as [post Hpost]. by exists "", post.
Qed.

Lemma execFrom_Start_inside r s : ∀ a,
  execFrom false (Seq Start r) (Some a) s = None.
Proof.
  induction s as [|b s IH]; intros a; simpl; [done|]. apply IH.
Qed.

Lemma execFrom_eq ic r b s :
  execFrom ic r b s
  = match matcher ic r Some {| before := b; rest := s |} with
    | Some c' => Some ({| before := b; rest := s |}, c')
    | None =>
      match s with
      | EmptyString => None
      | String a s' => execFrom ic r (Some a) s'
      end
    end.
Proof. by destruct s. Qed.

Lemma matcher_Start ic r k s :
  matcher ic (Seq Start r) k {| before := None; rest := s |}
  = matcher ic r k {| before := None; rest := s |}.
Proof. reflexivity. Qed.

Lemma test_nodeIdPrefix id :
  test false reNodeIdPrefix id = true →
  ∃ p rest, p ∈ ["KPI_"; "D_"; "V_"; "G_"] ∧ id = p +:+ rest.
Proof.
  unfold test. rewrite bool_decide_eq_true. unfold reNodeIdPrefix.
  rewrite execFrom_eq, matcher_Start. intros Hex.
  assert (is_Some (matcher false (oneOf "KPI_" ["D_"; "V_"; "G_"]) Some
                     {| before := None; rest := id |})) as Hm.
  { destruct (matcher false (oneOf _ _) Some _); [done|].
    destruct id as [|a id]; [by destruct Hex|].
    rewrite execFrom_Start_inside in Hex. by destruct Hex. }
  apply matcher_oneOf in Hm as (kw & Hkw & t & Ht). by exists kw, t.
Qed.

Lemma nodeIdEntities_elem query e :
  e ∈ nodeIdEntities query →
  Entity.type e = EntityType.node_id ∧ Entity.confidence e = Some 0.95%Q ∧
  occurs (Entity.value e) query ∧
  ∃ p rest, p ∈ ["KPI_"; "D_"; "V_"; "G_"] ∧ Entity.value e = p +:+ rest.
Proof.
  unfold nodeIdEntities, matchAll.
  destruct (scan false reNodeIdToken 0 None query) as [|m ms] eqn:Hscan;
    [by intros ?%elem_of_nil|].
  intros (id & He & Hid)%list_elem_of_bind.
  destruct (test false reNodeIdPrefix id) eqn:Ht; [|by apply elem_of_nil in He].
  apply list_elem_of_singleton in He as ->. simpl. split_and!; [done|done| |].
  - apply (scan_occurs false reNodeIdToken query 0 None). by rewrite Hscan.
  - by apply test_nodeIdPrefix.
Qed.

Lemma parseQuery_entities (toLowerCase trim : string → string) query :
  ParsedQuery.entities (parseQuery toLowerCase trim query)
  = nodeIdEntities query
    ++ aliasEntities toLowerCase (trim (toLowerCase query))
    ++ statusEntities (trim (toLowerCase query))
    ++ modelTypeEntities (trim (toLowerCase query))
    ++ levelEntities (trim (toLowerCase query))
    ++ categoryEntities (trim (toLowerCase query)).
Proof. unfold parseQuery. by destruct (classifyIntent _). Qed.

Lemma elem_of_parseQuery (toLowerCase trim : string → string) query e :
  e ∈ ParsedQuery.entities (parseQuery toLowerCase trim query) ↔
  e ∈ nodeIdEntities query
  ∨ e ∈ aliasEntities toLowerCase (trim (toLowerCase query))
  ∨ e ∈ statusEntities (trim (toLowerCase query))
  ∨ e ∈ modelTypeEntities (trim (toLowerCase query))
  ∨ e ∈ levelEntities (trim (toLowerCase query))
  ∨ e ∈ categoryEntities (trim (toLowerCase query)).
Proof.
  rewrite parseQuery_entities.
  generalize (nodeIdEntities query)
    (aliasEntities toLowerCase (trim (toLowerCase query)))
    (statusEntities (trim (toLowerCase query)))
    (modelTypeEntities (trim (toLowerCase query)))
    (levelEntities (trim (toLowerCase query)))
    (categoryEntities (trim (toLowerCase query))).
  intros A B S M L C. rewrite !elem_of_app. tauto.
Qed.

Lemma prefix_spec needle : ∀ s,
  String.prefix needle s = true ↔ ∃ t, s = needle +:+ t.
Proof.
  induction needle as [|a needle IH]; intros s.
  - destruct s; simpl; (split; [intros _; by eexists|done]).
  - destruct s as [|b s]; simpl; [split; [done|by intros [t ?]]|].
    destruct (Ascii.ascii_dec a b) as [->|Hne].
    + rewrite IH. split; intros [t Ht]; exists t;
        rewrite ?append_String in *; congruence.
    + split; [done|]. intros [t Ht]. rewrite append_String in Ht. congruence.
Qed.

Lemma includes_eq s needle :
  includes s needle
  = String.prefix needle s
    || match s with
       | EmptyString => false
       | String _ s' => includes s' needle
       end.
Proof. by destruct s. Qed.

Lemma includes_occurs needle : ∀ s,
  includes s needle = true ↔ occurs needle s.
Proof.
  induction s as [|a s IH]; rewrite includes_eq.
  - rewrite orb_false_r, prefix_spec. split.
    + intros [t Ht]. by exists "", t.
    + intros (pre & post & Hs). destruct pre; [by exists post|done].
  - rewrite orb_true_iff, prefix_spec, IH. split.
    + intros [[t Ht]|(pre & post & ->)]; [by exists "", t|].
      by exists (String a pre), post.
    + intros (pre & post & Hs). destruct pre as [|a' pre]; simpl in Hs.
      * left. by exists post.
      * right. rewrite append_String in Hs. injection Hs as -> ->.
        by exists pre, post.
Qed.

Lemma aliasEntities_elem (toLowerCase : string → string) nq e :
  e ∈ aliasEntities toLowerCase nq ↔
  ∃ alias id, (alias, id) ∈ aliasMap
    ∧ e = entity EntityType.node_id id 0.9%Q
    ∧ occurs (toLowerCase alias) nq.
Proof.
  unfold aliasEntities. rewrite list_elem_of_bind. split.
  - intros ([alias id] & He & Hin).
    destruct (includes nq (toLowerCase alias)) eqn:Hinc;
      [|by apply elem_of_nil in He].
    apply list_elem_of_singleton in He as ->.
    exists alias, id. split_and!; [done..|]. by apply includes_occurs.
  - intros (alias & id & Hin & -> & Hocc). exists (alias, id). split; [|done].
    apply includes_occurs in Hocc. rewrite Hocc. by left.
Qed.

Lemma statusEntities_elem nq e :
  e ∈ statusEntities nq →
  Entity.type e = EntityType.status ∧
  Entity.value e ∈ ["unachieved"; "achieved"] ∧
  statusEntities nq = [e].
Proof.
  unfold statusEntities.
  repeat (destruct (test _ _ nq);
    [intros ->%list_elem_of_singleton; split_and!;
       [done|simpl; set_solver|done]|]).
  by intros ?%elem_of_nil.
Qed.

Lemma modelTypeEntities_elem nq e :
  e ∈ modelTypeEntities nq →
  Entity.type e = EntityType.model_type ∧
  Entity.value e ∈ ["sysml"; "simulink"; "modelica"; "fmu"; "none"] ∧
  modelTypeEntities nq = [e].
Proof.
  unfold modelTypeEntities.
  repeat (destruct (test _ _ nq);
    [intros ->%list_elem_of_singleton; split_and!;
       [done|simpl; set_solver|done]|]).
  by intros ?%elem_of_nil.
Qed.

Lemma levelEntities_elem nq e :
  e ∈ levelEntities nq →
  Entity.type e = EntityType.level ∧
  Entity.value e ∈ ["1"; "2"] ∧
  levelEntities nq = [e].
Proof.
  unfold levelEntities.
  repeat (destruct (test _ _ nq);
    [intros ->%list_elem_of_singleton; split_and!;
       [done|simpl; set_solver|done]|]).
  by intros ?%elem_of_nil.
Qed.

Lemma categoryEntities_elem nq e :
  e ∈ categoryEntities nq →
  Entity.type e = EntityType.category ∧
  Entity.value e ∈ ["goal"; "kpi"; "design"; "verify"] ∧
  categoryEntities nq = [e].
Proof.
  unfold categoryEntities.
  repeat (destruct (test _ _ nq);
    [intros ->%list_elem_of_singleton; split_and!;
       [done|simpl; set_solver|done]|]).
  by intros ?%elem_of_nil.
Qed.

(** X20: a node_id entity of confidence 0.95 is copied from the raw text:
    its value occurs in the raw query as it stands and begins with KPI_,
    D_, V_ or G_. *)
Theorem nodeId_entities_verbatim (toLowerCase trim : string → string) query :
  ∀ e, e ∈ ParsedQuery.entities (parseQuery toLowerCase trim query) →
    Entity.type e = EntityType.node_id →
    Entity.confidence e = Some 0.95%Q →
    occurs (Entity.value e) query ∧
    ∃ p rest, p ∈ ["KPI_"; "D_"; "V_"; "G_"] ∧ Entity.value e = p +:+ rest.
Proof.
  intros e He Htype Hconf.
  apply elem_of_parseQuery in He as [He|[He|[He|[He|[He|He]]]]].
  - apply nodeIdEntities_elem in He as (_ & _ & ? & ?). done.
  - apply aliasEntities_elem in He as (alias & id & _ & -> & _). done.
  - apply statusEntities_elem in He as (? & _). congruence.
  - apply modelTypeEntities_elem in He as (? & _). congruence.
  - apply levelEntities_elem in He as (? & _). congruence.
  - apply categoryEntities_elem in He as (? & _). congruence.
Qed.

Lemma nodeId_entities_verbatim_witness :
  occurs "KPI_A1" "KPI_A1 的链路".
Proof.
  apply (nodeId_entities_verbatim asciiLower asciiTrim "KPI_A1 的链路"
           (entity EntityType.node_id "KPI_A1" 0.95%Q)).
  - vm_compute. left.
  - reflexivity.
  - reflexivity.
Defined.

Lemma parsed_entities_unique (toLowerCase trim : string → string) query e1 e2 :
  e1 ∈ ParsedQuery.entities (parseQuery toLowerCase trim query) →
  e2 ∈ ParsedQuery.entities (parseQuery toLowerCase trim query) →
  Entity.type e1 = Entity.type e2 →
  Entity.type e1 ≠ EntityType.node_id → e1 = e2.
Proof.
  intros H1%elem_of_parseQuery H2%elem_of_parseQuery Hty Hnot.
    assert (∀ e, e ∈ nodeIdEntities query → Entity.type e = EntityType.node_id)
    as HA by (intros e He; by apply nodeIdEntities_elem in He as (-> & _)).
  assert (∀ e, e ∈ aliasEntities toLowerCase (trim (toLowerCase query))
               → Entity.type e = EntityType.node_id) as HB.
  { intros e He. by apply aliasEntities_elem in He as (? & ? & _ & -> & _). }
  destruct H1 as [H1|[H1|[H1|[H1|[H1|H1]]]]];
    [by apply HA in H1|by apply HB in H1|..];
    (destruct H2 as [H2|[H2|[H2|[H2|[H2|H2]]]]];
      [apply HA in H2; congruence|apply HB in H2; congruence|..]);
    first [ apply statusEntities_elem in H1 as (T1 & _ & G1)
          | apply modelTypeEntities_elem in H1 as (T1 & _ & G1)
          | apply levelEntities_elem in H1 as (T1 & _ & G1)
          | apply categoryEntities_elem in H1 as (T1 & _ & G1) ];
    first [ apply statusEntities_elem in H2 as (T2 & _ & G2)
          | apply modelTypeEntities_elem in H2 as (T2 & _ & G2)
          | apply levelEntities_elem in H2 as (T2 & _ & G2)
          | apply categoryEntities_elem in H2 as (T2 & _ & G2) ];
    congruence.
Qed.

(** X21: apart from node identifiers a parsed query carries at most one
    entity of each type, and only the values the parser's branches
    write: a status is 'unachieved' or 'achieved', a model_type is one of
    'sysml', 'simulink', 'modelica', 'fmu', 'none' (never 'null'), a level
    is '1' or '2', a category is 'goal', 'kpi', 'design' or 'verify'; no
    entity has type metric or relationship. *)
Theorem entities_shape (toLowerCase trim : string → string) query :
  let entities := ParsedQuery.entities (parseQuery toLowerCase trim query) in
  (∀ e, e ∈ entities →
     match Entity.type e with
     | EntityType.node_id => True
     | EntityType.status => Entity.value e ∈ ["unachieved"; "achieved"]
     | EntityType.model_type =>
       Entity.value e ∈ ["sysml"; "simulink"; "modelica"; "fmu"; "none"]
     | EntityType.level => Entity.value e ∈ ["1"; "2"]
     | EntityType.category => Entity.value e ∈ ["goal"; "kpi"; "design"; "verify"]
     | EntityType.metric | EntityType.relationship => False
     end) ∧
  (∀ e1 e2, e1 ∈ entities → e2 ∈ entities →
     Entity.type e1 = Entity.type e2 →
     Entity.type e1 ≠ EntityType.node_id → e1 = e2).
Proof.
  intros entities. unfold entities. split.
  - intros e [He|[He|[He|[He|[He|He]]]]]%elem_of_parseQuery.
    + apply nodeIdEntities_elem in He as (-> & _). done.
    + apply aliasEntities_elem in He as (alias & id & _ & -> & _). done.
    + apply statusEntities_elem in He as (-> & ? & _). done.
    + apply modelTypeEntities_elem in He as (-> & ? & _). done.
    + apply levelEntities_elem in He as (-> & ? & _). done.
    + apply categoryEntities_elem in He as (-> & ? & _). done.
  - intros e1 e2. apply parsed_entities_unique.
Qed.

(** X22: the alias table is applied to the normalized query: for each
    canonical identifier, the parser emits the node_id entity of
    confidence 0.9 with that identifier exactly when the lower-cased form
    of one of its aliases occurs in the normalized query. *)
Theorem alias_entities (toLowerCase trim : string → string) query id :
  entity EntityType.node_id id 0.9%Q
    ∈ ParsedQuery.entities (parseQuery toLowerCase trim query)
  ↔ ∃ alias, (alias, id) ∈ aliasMap
             ∧ occurs (toLowerCase alias) (trim (toLowerCase query)).
Proof.
  rewrite elem_of_parseQuery. split.
  - intros [He|[He|[He|[He|[He|He]]]]].
    + apply nodeIdEntities_elem in He as (_ & Hc & _). simpl in Hc. done.
    + apply aliasEntities_elem in He as (alias & id' & Hin & [= ->] & Hocc).
      by exists alias.
    + apply statusEntities_elem in He as (? & _). done.
    + apply modelTypeEntities_elem in He as (? & _). done.
    + apply levelEntities_elem in He as (? & _). done.
    + apply categoryEntities_elem in He as (? & _). done.
  - intros (alias & Hin & Hocc). right; left.
    apply aliasEntities_elem. by exists alias, id.
Qed.

(** X23: the unachieved keywords win over the achieved ones.  When one
    of "未达成", "未完成", "不达标" occurs in the normalized query, the one
    status entity is 'unachieved', although "未完成" contains the achieved
    keyword "完成". *)
Theorem status_unachieved_first (toLowerCase trim : string → string) query kw
    (Hkw : kw ∈ ["未达成"; "未完成"; "不达标"])
    (Hocc : occurs kw (trim (toLowerCase query))) :
  let entities := ParsedQuery.entities (parseQuery toLowerCase trim query) in
  entity EntityType.status "unachieved" 0.9%Q ∈ entities ∧
  (∀ e, e ∈ entities → Entity.type e = EntityType.status →
        e = entity EntityType.status "unachieved" 0.9%Q) ∧
  occurs "完成" "未完成".
Proof.
  intros entities.
  assert (statusEntities (trim (toLowerCase query))
          = [entity EntityType.status "unachieved" 0.9%Q]) as Hstatus.
  { unfold statusEntities.
    assert (test false (oneOf "未达成" ["未完成"; "不达标"])
              (trim (toLowerCase query)) = true) as ->; [|done].
    apply test_oneOf. by exists kw. }
  assert (entity EntityType.status "unachieved" 0.9%Q ∈ entities) as Hin.
  { apply elem_of_parseQuery. right; right; left. rewrite Hstatus. by left. }
  split_and!; [done| |by exists "未", ""].
  intros e He Hty.
  apply (parsed_entities_unique toLowerCase trim query);
    [done|done|by rewrite Hty|by rewrite Hty].
Qed.

Lemma status_unachieved_first_witness :
  entity EntityType.status "unachieved" 0.9%Q
    ∈ ParsedQuery.entities (parseQuery asciiLower asciiTrim "显示未完成的指标").
Proof.
  apply (status_unachieved_first asciiLower asciiTrim "显示未完成的指标" "未完成").
  - right; by left.
  - exists "显示", "的指标". vm_compute. reflexivity.
Defined.

Lemma oneOf_literals s l : literals (oneOf s l) = s :: l.
Proof.
  revert s. induction l as [|s' l IH]; intros s; simpl; [done|]. by rewrite IH.
Qed.

Lemma firstMatch_unknown rules s :
  Forall (λ rule, rule.1.2 ≠ QueryIntent.unknown) rules →
  (firstMatch rules s).1 = QueryIntent.unknown
  ↔ ∀ rule, rule ∈ rules → test false rule.1.1 s = false.
Proof.
  induction 1 as [|[[re intent] conf] rules Hne _ IH]; simpl.
  - split; [by intros _ ? ?%elem_of_nil|done].
  - destruct (test false re s) eqn:Ht; simpl.
    + split; [done|]. intros Hall.
      specialize (Hall (re, intent, conf)). simpl in Hall.
      rewrite Hall in Ht by by left. done.
    + rewrite IH. split.
      * intros Hall rule [->|?]%elem_of_cons; [done|by apply Hall].
      * intros Hall rule ?. apply Hall. by right.
Qed.

Lemma intentRule_test rule str :
  rule ∈ intentRules →
  test false rule.1.1 str = true
  ↔ ∃ kw, kw ∈ literals rule.1.1 ∧ occurs kw str.
Proof.
  intros Hrule.
  assert (∃ s l, rule.1.1 = oneOf s l) as (s & l & ->).
  { unfold intentRules in Hrule.
    repeat (apply elem_of_cons in Hrule as [->|Hrule]; [by eexists _, _|]).
    by apply elem_of_nil in Hrule. }
  rewrite oneOf_literals. apply test_oneOf.
Qed.

(** X24: the parser falls back to 'unknown' exactly when none of the
    keywords of the ten intent rules occurs in the normalized query; the
    confidence is then 0.5, and otherwise at least 0.7. *)
Theorem unknown_iff_no_keyword (toLowerCase trim : string → string) query :
  let parsed := parseQuery toLowerCase trim query in
  (ParsedQuery.intent parsed = QueryIntent.unknown
   ↔ ∀ rule kw, rule ∈ intentRules → kw ∈ literals rule.1.1 →
                ¬ occurs kw (trim (toLowerCase query))) ∧
  (ParsedQuery.intent parsed = QueryIntent.unknown
   → ParsedQuery.confidence parsed = 0.5%Q) ∧
  (ParsedQuery.intent parsed ≠ QueryIntent.unknown
   → ParsedQuery.confidence parsed ∈ [0.7%Q; 0.8%Q; 0.9%Q]).
Proof.
  intros parsed.
  assert (ParsedQuery.intent parsed
          = (firstMatch intentRules (trim (toLowerCase query))).1
          ∧ ParsedQuery.confidence parsed
          = (firstMatch intentRules (trim (toLowerCase query))).2) as [Hi Hc].
  { unfold parsed, parseQuery.
    rewrite <- (classifyIntent_firstMatch (trim (toLowerCase query))).
    by destruct (classifyIntent _). }
  rewrite Hi, Hc. split_and!.
  - rewrite firstMatch_unknown by (repeat constructor; done). split.
    + intros Hall rule kw Hrule Hkw Hocc.
      specialize (Hall rule Hrule).
      assert (test false rule.1.1 (trim (toLowerCase query)) = true) as Ht;
        [|congruence].
      apply intentRule_test; [done|]. by exists kw.
    + intros Hnone rule Hrule.
      destruct (test false rule.1.1 (trim (toLowerCase query))) eqn:Ht; [|done].
      apply intentRule_test in Ht as (kw & Hkw & Hocc); [|done].
      by destruct (Hnone rule kw).
  - simpl. repeat (destruct (test false _ _); [done|]). done.
  - simpl. repeat (destruct (test false _ _); [intros _; simpl; set_solver|]). done.
Qed.

(** ** ContextManager *)

Lemma filter_all {A} (P : A → Prop) `{!∀ x, Decision (P x)} (l : list A) :
  (∀ x, x ∈ l → P x) → filter P l = l.
Proof.
  induction l as [|y l IH]; intros Hall; [done|].
  rewrite filter_cons_True by (apply Hall; left).
  rewrite IH; [done|]. intros x Hx. apply Hall. by right.
Qed.

Lemma spliceOut_cons x y l :
  spliceOut x (y :: l) = if decide (y = x) then l else y :: spliceOut x l.
Proof.
  unfold spliceOut. simpl. destruct (decide (y = x)) as [->|Hne]; [done|].
  destruct (Z.gtb_spec (indexOf x l) (-1)) as [Hi|Hi].
  - destruct (Z.gtb_spec (indexOf x l + 1) (-1)) as [_|?]; [|lia].
    replace (Z.to_nat (indexOf x l + 1)) with (S (Z.to_nat (indexOf x l)))
      by lia.
    done.
  - done.
Qed.

Lemma spliceOut_sublist x l : sublist (spliceOut x l) l.
Proof.
  unfold spliceOut. case_match; [apply sublist_delete|done].
Qed.

Lemma spliceOut_absent x l : x ∉ l → spliceOut x l = l.
Proof.
  induction l as [|y l IH]; [done|].
  rewrite not_elem_of_cons, spliceOut_cons. intros [Hne Hx].
  destruct (decide (y = x)); [done|]. by rewrite IH.
Qed.

Lemma spliceOut_NoDup x l :
  NoDup l → spliceOut x l = filter (λ y, y ≠ x) l.
Proof.
  induction 1 as [|y l Hy Hl IH]; [done|].
  rewrite spliceOut_cons, filter_cons.
  destruct (decide (y = x)) as [->|Hne].
  - destruct (decide (x ≠ x)) as [|_]; [done|].
    symmetry. apply filter_all. intros z Hz ->. done.
  - destruct (decide (y ≠ x)); [|done]. by rewrite IH.
Qed.

(** Moving the identifiers of [ids] to the front one after the other, as
    the loop of [updateFocus] does. *)
Lemma moveToFront_spec ids : ∀ viewed,
  NoDup viewed →
  foldl (λ viewed id, id :: spliceOut id viewed) viewed ids
  = reverse (remove_dups ids) ++ filter (λ x, x ∉ ids) viewed.
Proof.
  induction ids as [|id ids IH]; intros viewed Hnd.
  - simpl. symmetry. apply filter_all. intros x _. apply not_elem_of_nil.
  - simpl foldl. rewrite spliceOut_NoDup by done.
    rewrite IH.
    2:{ apply NoDup_cons. split; [|by apply NoDup_filter].
        rewrite list_elem_of_filter. by intros [? _]. }
    rewrite filter_cons, list_filter_filter.
    assert (filter (λ a, (a ∉ ids) ∧ (a ≠ id)) viewed
            = filter (λ x, x ∉ (id :: ids)) viewed) as ->.
    { apply list_filter_iff. intros x. rewrite not_elem_of_cons. tauto. }
    simpl remove_dups.
    destruct (decide_rel elem_of id ids) as [Hin|Hnot].
    + by destruct (decide (id ∉ ids)).
    + destruct (decide (id ∉ ids)); [|done].
      by rewrite reverse_cons, <- app_assoc.
Qed.

Lemma session_snoc calls c : session (calls ++ [c]) = call (session calls) c.
Proof. unfold session. by rewrite foldl_snoc. Qed.


(** X25: whatever state-changing methods (recordQuery, updateFocus,
    addFavorite, removeFavorite, clearContext) are called on a fresh
    manager, in whatever order, the history holds at most 10 queries, the
    recently-viewed list at most 20 identifiers and none of them twice, no
    favourite is listed twice, and every recorded query count is at least
    1. *)
Theorem context_invariants calls :
  let this := session calls in
  length (queryHistory this) ≤ 10 ∧
  length (recentlyViewed (preferences this)) ≤ 20 ∧
  NoDup (recentlyViewed (preferences this)) ∧
  NoDup (getFavorites this) ∧
  (∀ query count, frequentQueries (preferences this) !! query = Some count →
                  (1 ≤ count)%Z).
Proof.
  induction calls as [|c calls IH] using rev_ind.
  - simpl. repeat split; try apply NoDup_nil_2; try lia.
    intros q k Hq. by rewrite lookup_empty in Hq.
  - rewrite session_snoc. simpl in IH |- *. unfold getFavorites in *.
    destruct IH as (Hh & Hlen & Hrv & Hfav & Hfq).
    destruct c as [now q p rn|ids cat|x|x|]; simpl.
    + repeat split; try done.
      * unfold maxHistorySize.
        destruct (Nat.ltb_spec 10 (length (queryHistory (session calls) ++
          [ {| HistoryEntry.query := q; HistoryEntry.parsed := p;
               HistoryEntry.timestamp := now;
               HistoryEntry.resultNodes := rn |} ]))) as [Hgt|Hle]; [|done].
        rewrite length_app in Hgt. simpl in Hgt.
        destruct (queryHistory (session calls)) as [|e h]; simpl in *; [lia|].
        rewrite length_app. simpl. lia.
      * intros q' k. rewrite lookup_insert_Some.
        intros [[_ <-]|[_ Hk]]; [|by eapply Hfq].
        destruct (frequentQueries (preferences (session calls)) !! q)
          as [k0|] eqn:Hq; simpl; [|lia].
        apply Hfq in Hq. lia.
    + assert (NoDup (foldl (λ viewed id, id :: spliceOut id viewed)
                (recentlyViewed (preferences (session calls))) ids)) as Hnd.
      { rewrite moveToFront_spec by done. apply NoDup_app. repeat split.
        - rewrite reverse_Permutation. apply NoDup_remove_dups.
        - intros y Hy. rewrite elem_of_reverse, elem_of_remove_dups in Hy.
          rewrite list_elem_of_filter. intros [Hnot _]. by apply Hnot.
        - by apply NoDup_filter. }
      unfold maxRecentlyViewed. repeat split; try done.
      * case_match eqn:Hlt; [rewrite length_take; lia|].
        apply Nat.ltb_ge in Hlt. done.
      * case_match; [|done]. eapply sublist_NoDup; [exact Hnd|apply sublist_take].
    + unfold addFavorite. case_bool_decide as Hin; simpl; [done|].
      repeat split; try done.
      apply NoDup_app. repeat split; [done| |apply NoDup_singleton].
      intros y Hy ->%list_elem_of_singleton. done.
    + repeat split; try done.
      eapply sublist_NoDup; [exact Hfav|apply spliceOut_sublist].
    + repeat split; try apply NoDup_nil_2; try lia.
      intros q k Hq. by rewrite lookup_empty in Hq.
Qed.



(** X27: updateFocus keeps the recently-viewed list in order of last
    view.  When the list has no duplicates, after updateFocus(nodeIds) it
    holds the distinct identifiers of nodeIds, the last one first, followed
    by the earlier entries that are not among nodeIds in their old order,
    cut to 20; the focus is nodeIds itself. *)
Theorem updateFocus_recent nodeIds category this
    (Hviewed : NoDup (recentlyViewed (preferences this))) :
  let this' := updateFocus nodeIds category this in
  recentlyViewed (preferences this')
  = take 20 (reverse (remove_dups nodeIds)
             ++ filter (λ x, x ∉ nodeIds) (recentlyViewed (preferences this))) ∧
  focusedNodes this' = nodeIds ∧
  (∀ id, last nodeIds = Some id → head (getRecentlyViewed None this') = Some id).
Proof.
  cbv zeta. unfold getRecentlyViewed. simpl.
  rewrite moveToFront_spec by done. unfold maxRecentlyViewed.
  assert (∀ l : list string, (if 20 <? length l then take 20 l else l) = take 20 l)
    as Htake.
  { intros l. destruct (Nat.ltb_spec 20 (length l)); [done|].
    by rewrite take_ge. }
  rewrite Htake. repeat split.
  intros id Hlast.
  apply last_Some in Hlast as [l' ->].
  assert (remove_dups (l' ++ [id]) = remove_dups l' ++ [id]
          ∨ ∃ l'', remove_dups (l' ++ [id]) = l'' ++ [id]) as Hrd.
  { right. clear. induction l' as [|a l' [l'' IH]]; [by exists []|].
    simpl. destruct (decide_rel elem_of a (l' ++ [id])).
    - by exists l''.
    - exists (a :: l''). by rewrite IH. }
  destruct Hrd as [->|[l'' ->]]; by rewrite reverse_snoc.
Qed.

Lemma updateFocus_recent_witness :
  recentlyViewed (preferences
    (updateFocus ["K2"; "K3"; "K2"] None
       (updateFocus ["K1"; "K2"] None initializeContext)))
  = ["K2"; "K3"; "K1"].
Proof.
  destruct (updateFocus_recent ["K2"; "K3"; "K2"] None
              (updateFocus ["K1"; "K2"] None initializeContext)) as [-> _].
  - vm_compute. repeat constructor; set_solver.
  - vm_compute. reflexivity.
Defined.

(** X28: the favourites behave as a set kept in insertion order.  When
    no favourite is listed twice, removeFavorite(x) leaves a list without
    x, addFavorite(x) leaves a list with x and adds it at the end only if
    it was missing, adding twice is adding once, and adding a new
    favourite and removing it again restores the list. *)
Theorem favorites_add_remove this x
    (Hfav : NoDup (getFavorites this)) :
  (x ∉ getFavorites (removeFavorite x this)) ∧
  getFavorites (removeFavorite x this)
    = filter (λ y, y ≠ x) (getFavorites this) ∧
  x ∈ getFavorites (addFavorite x this) ∧
  NoDup (getFavorites (addFavorite x this)) ∧
  addFavorite x (addFavorite x this) = addFavorite x this ∧
  (x ∉ getFavorites this →
   getFavorites (addFavorite x this) = getFavorites this ++ [x] ∧
   getFavorites (removeFavorite x (addFavorite x this)) = getFavorites this).
Proof.
  unfold getFavorites in *.
  assert (favoriteKPIs (preferences (removeFavorite x this))
          = filter (λ y, y ≠ x) (favoriteKPIs (preferences this))) as Hrem.
  { simpl. by apply spliceOut_NoDup. }
  assert (x ∈ favoriteKPIs (preferences (addFavorite x this))) as Hin.
  { unfold addFavorite. case_bool_decide; [done|]. simpl.
    apply elem_of_app. right. by left. }
  split; [|split; [done|]].
  { rewrite Hrem, list_elem_of_filter. by intros [? _]. }
  split; [done|]. split.
  { unfold addFavorite. case_bool_decide as Hx; simpl; [done|].
    apply NoDup_app. repeat split; [done| |apply NoDup_singleton].
    intros y Hy ->%list_elem_of_singleton. done. }
  split.
  { unfold addFavorite at 1. by rewrite bool_decide_eq_true_2. }
  intros Hx. unfold addFavorite. rewrite bool_decide_eq_false_2 by done.
  simpl. split; [done|].
  clear Hrem Hin Hfav.
  induction (favoriteKPIs (preferences this)) as [|y l IH]; simpl.
  - rewrite spliceOut_cons. by destruct (decide (x = x)).
  - apply not_elem_of_cons in Hx as [Hne Hx].
    rewrite spliceOut_cons. destruct (decide (y = x)); [done|].
    by rewrite IH.
Qed.

Lemma favorites_add_remove_witness :
  getFavorites
    (removeFavorite "K2" (addFavorite "K2" (addFavorite "K1" initializeContext)))
  = ["K1"].
Proof.
  destruct (favorites_add_remove
              (addFavorite "K2" (addFavorite "K1" initializeContext)) "K2")
    as (_ & -> & _).
  - vm_compute. repeat constructor; set_solver.
  - vm_compute. reflexivity.
Defined.

Lemma pushReferences_spec ids : ∀ ents,
  ∃ added, pushReferences ids ents = ents ++ added ∧
    NoDup (Entity.value <$> added) ∧
    (∀ e, e ∈ added →
       Entity.type e = EntityType.node_id ∧ Entity.confidence e = None
       ∧ Entity.value e ∈ ids ∧ Entity.value e ∉ Entity.value <$> ents) ∧
    (∀ id, id ∈ ids → id ∈ Entity.value <$> ents ++ added).
Proof.
  unfold pushReferences.
  induction ids as [|id ids IH]; intros ents.
  - exists []. rewrite app_nil_r. split; [done|].
    split; [apply NoDup_nil_2|]. split; [by intros e He%elem_of_nil|].
    by intros id Hid%elem_of_nil.
  - simpl foldl.
    destruct (existsb (λ e, String.eqb (Entity.value e) id) ents) eqn:Hex.
    + destruct (IH ents) as (added & -> & Hnd & Hadded & Hcov).
      exists added. repeat split; try done; try (by apply Hadded).
      * right. by apply Hadded.
      * intros id' [->|Hid']%elem_of_cons; [|by apply Hcov].
        apply existsb_exists in Hex as (e & He & Heq).
        apply String.eqb_eq in Heq as <-.
        rewrite fmap_app. apply elem_of_app. left.
        apply list_elem_of_fmap. exists e. split; [done|].
        by apply list_elem_of_In.
    + set (new := {| Entity.type := EntityType.node_id;
                     Entity.value := id; Entity.confidence := None |}).
      destruct (IH (ents ++ [new])) as (added & -> & Hnd & Hadded & Hcov).
      assert (id ∉ Entity.value <$> ents) as Hid.
      { intros (e & Hv & He)%list_elem_of_fmap.
        assert (existsb (λ e, String.eqb (Entity.value e) id) ents = true)
          as Htrue; [|congruence].
        apply existsb_exists. exists e. split; [by apply list_elem_of_In|].
        apply String.eqb_eq. done. }
      exists (new :: added). rewrite <- app_assoc. split; [done|].
      split; [|split].
      * simpl. apply NoDup_cons. split; [|done].
        intros (e & Hv & He)%list_elem_of_fmap.
        destruct (Hadded e He) as (_ & _ & _ & Hnot). apply Hnot.
        rewrite fmap_app. apply elem_of_app. right. simpl. rewrite <- Hv.
        by left.
      * intros e [->|He]%elem_of_cons.
        -- repeat split; try done. simpl. by left.
        -- destruct (Hadded e He) as (? & ? & ? & Hnot).
           repeat split; try done; [by right|].
           intros Hin. apply Hnot. rewrite fmap_app. apply elem_of_app.
           by left.
      * intros id' [->|Hid']%elem_of_cons.
        -- rewrite fmap_app. apply elem_of_app. right. simpl. by left.
        -- apply Hcov in Hid'. by rewrite <- app_assoc in Hid'.
Qed.

(** X29: resolveReferences only appends.  The entities of the parsed
    query stay in front in their order, intent and confidence are kept and
    rawQuery becomes the query given.  Every appended entity is a node_id
    without confidence whose value is a result node of the last query or
    a focused node and was not the value of an entity before.  Nothing
    is appended when none of the reference words occurs in the query;
    when one does, every result node of the last query and every focused
    node is the value of some entity of the result. *)
Theorem resolveReferences_spec this query parsed :
  let resolved := resolveReferences this query parsed in
  let referred id :=
    id ∈ focusedNodes this
    ∨ ∃ lastQuery resultNodes,
        getLastQuery this = Some lastQuery
        ∧ HistoryEntry.resultNodes lastQuery = Some resultNodes
        ∧ id ∈ resultNodes in
  ParsedQuery.rawQuery resolved = query ∧
  ParsedQuery.intent resolved = ParsedQuery.intent parsed ∧
  ParsedQuery.confidence resolved = ParsedQuery.confidence parsed ∧
  ∃ added,
    ParsedQuery.entities resolved = ParsedQuery.entities parsed ++ added ∧
    (∀ e, e ∈ added →
       Entity.type e = EntityType.node_id ∧ Entity.confidence e = None
       ∧ referred (Entity.value e)
       ∧ Entity.value e ∉ Entity.value <$> ParsedQuery.entities parsed) ∧
    ((∀ kw, kw ∈ referenceWords → ¬ occurs kw query) → added = []) ∧
    (∀ kw id, kw ∈ referenceWords → occurs kw query → referred id →
       id ∈ Entity.value <$> ParsedQuery.entities resolved).
Proof.
  cbv zeta. do 3 (split; [done|]).
  unfold resolveReferences. simpl.
  destruct (test false reReference query) eqn:Href.
  2:{ exists []. rewrite app_nil_r. split; [done|].
      split; [by intros e He%elem_of_nil|]. split; [done|].
      intros kw id Hkw Hocc _.
      assert (test false reReference query = true) as Htrue; [|congruence].
      apply test_oneOf. by exists kw. }
  apply test_oneOf in Href as (kw0 & Hkw0 & Hocc0).
  set (ents := ParsedQuery.entities parsed).
  (* the result nodes of the last query *)
  assert (∃ ids,
    match getLastQuery this with
    | Some lastQuery =>
      match HistoryEntry.resultNodes lastQuery with
      | Some resultNodes =>
        if 0 <? length resultNodes
        then pushReferences resultNodes ents else ents
      | None => ents
      end
    | None => ents
    end = pushReferences ids ents
    ∧ ∀ id, id ∈ ids ↔
        ∃ lastQuery resultNodes,
          getLastQuery this = Some lastQuery
          ∧ HistoryEntry.resultNodes lastQuery = Some resultNodes
          ∧ id ∈ resultNodes) as (ids & -> & Hids).
  { destruct (getLastQuery this) as [lq|].
    2:{ exists []. split; [done|]. intros id. split.
        - by intros ?%elem_of_nil.
        - by intros (? & ? & ? & _). }
    destruct (HistoryEntry.resultNodes lq) as [rn|] eqn:Hrn.
    2:{ exists []. split; [done|]. intros id. split.
        - by intros ?%elem_of_nil.
        - intros (? & ? & [= <-] & Hr & _). congruence. }
    exists rn. split.
    - destruct rn; done.
    - intros id. split.
      + intros Hid. by exists lq, rn.
      + intros (? & ? & [= <-] & Hr & Hid). rewrite Hrn in Hr.
        by injection Hr as <-. }
  assert ((if 0 <? length (focusedNodes this)
           then pushReferences (focusedNodes this) (pushReferences ids ents)
           else pushReferences ids ents)
          = pushReferences (focusedNodes this) (pushReferences ids ents)) as ->.
  { by destruct (focusedNodes this). }
  destruct (pushReferences_spec ids ents) as (a1 & -> & _ & Ha1 & Hc1).
  destruct (pushReferences_spec (focusedNodes this) (ents ++ a1))
    as (a2 & -> & _ & Ha2 & Hc2).
  exists (a1 ++ a2). rewrite app_assoc. split; [done|]. split; [|split].
  - intros e [He|He]%elem_of_app.
    + destruct (Ha1 e He) as (? & ? & Hv & ?). repeat split; try done.
      right. by apply Hids.
    + destruct (Ha2 e He) as (? & ? & Hv & Hnot). repeat split; try done.
      * by left.
      * intros Hin. apply Hnot. rewrite fmap_app. apply elem_of_app. by left.
  - intros Hnone. by destruct (Hnone kw0).
  - intros kw id _ _ [Hfocus|Hlast].
    + by apply Hc2.
    + apply Hids, Hc1 in Hlast. rewrite fmap_app. apply elem_of_app. by left.
Qed.

